(** * Divine Court: admission actor and case ingestor

    A shallow embedding of the two workers of the repository:

    - [WaspEdge]: the [RateLimiter] Durable Object of
      [wasp-edge/src/index.ts] (tumbling window, heuristic score, verdict);
    - [CaseIngestor]: the queue consumer of [case-ingestor/src/index.ts]
      (case upsert, event insert, windowed metrics, snapshot write, ack).

    JavaScript numbers that the code only ever uses as integers (hit counters,
    scores of the actor, millisecond timestamps, ASNs) are modelled as [Z].
    The metrics of the ingestor are modelled by [num]: exact rationals extended
    with the IEEE special values that a division by zero produces, so that the
    effect of the guards in [recomputeMetrics] can be observed.  Rounding of
    binary64 arithmetic and the sign of zero are not modelled; the last
    example of the file evaluates the arithmetic of one window in binary64. *)

From Stdlib Require Import ZArith QArith Qround String Ascii List Lia Bool Floats.
From stdpp Require Import base option list gmap strings fin_maps pretty.
From Stdlib Require Import Lqa.

Local Open Scope string_scope.
Local Open Scope list_scope.
Local Open Scope Z_scope.

(** JavaScript truthiness of a string: only the empty string is falsy. *)
Definition truthy (s : string) : bool := negb (String.eqb s "").

(* ================================================================== *)
(** * wasp-edge: the RateLimiter Durable Object                         *)
(* ================================================================== *)

Module WaspEdge.

(** The verdict type ['allow'|'challenge'|'tarpit'|'block']. *)
Inductive Action := allow | challenge | tarpit | block.

#[global] Instance Action_eq_dec : EqDecision Action.
Proof. solve_decision. Defined.

(** The stored object [b], initially
    [{ hits: 0, window: now, score: 0, lastUA: '' }]. *)
Record Bucket := mkBucket {
  hits : Z;
  window : Z;
  score : Z;
  lastUA : string
}.

(** The JSON body posted to the Durable Object. *)
Record LimitRequest := mkLimitRequest {
  ip : string;
  asn : Z;
  ua : string;
  path : string;
  method : string;
  trustedCookie : bool
}.

(** The JSON body of the response: [{ action, score: b.score, hits: b.hits }]. *)
Record Verdict := mkVerdict {
  action : Action;
  v_score : Z;
  v_hits : Z
}.

(** [const key = `ip:${ip}`]. *)
Definition storage_key (r : LimitRequest) : string := "ip:" +:+ ip r.

(** [this.state.storage.get(key) ?? { hits: 0, window: now, score: 0, lastUA: '' }]. *)
Definition load (now : Z) (storage : gmap string Bucket) (key : string) : Bucket :=
  default (mkBucket 0 now 0 "") (storage !! key).

(** Lines 77-78: [if (now - b.window > 1000) { b.hits = 0; b.window = now; } b.hits++]. *)
Definition tick (now : Z) (b : Bucket) : Bucket :=
  let b := if 1000 <? now - window b
           then mkBucket 0 now (score b) (lastUA b)
           else b in
  mkBucket (hits b + 1) (window b) (score b) (lastUA b).

(** Lines 81-88: the heuristics, evaluated on the bucket after [tick]. *)
Definition heuristics (b : Bucket) (r : LimitRequest) : Z :=
  let api := String.prefix "/api/" (path r) in
  let write := negb (String.eqb (method r) "GET")
               && negb (String.eqb (method r) "HEAD") in
  let delta := 0 in
  let delta := if api && (15 <? hits b) then delta + 2 else delta in
  let delta := if negb api && (35 <? hits b) then delta + 1 else delta in
  let delta := if negb (truthy (ua r)) || String.eqb (ua r) "-"
               then delta + 1 else delta in
  let delta := if write && (5 <? hits b) then delta + 2 else delta in
  let delta := if truthy (lastUA b) && negb (String.eqb (lastUA b) (ua r))
               then delta + 1 else delta in
  delta.

(** Lines 89-90: [b.lastUA = ua; b.score = Math.max(0, b.score + delta - 1)]. *)
Definition decay (b : Bucket) (r : LimitRequest) (delta : Z) : Bucket :=
  mkBucket (hits b) (window b) (Z.max 0 (score b + delta - 1)) (ua r).

(** Lines 94-99: the threshold policy. *)
Definition verdict_action (trusted : bool) (b : Bucket) : Action :=
  let action := allow in
  if negb trusted then
    if (120 <? hits b) || (12 <? score b) then block
    else if (70 <? hits b) || (8 <? score b) then tarpit
    else if (30 <? hits b) || (5 <? score b) then challenge
    else action
  else action.

(** [RateLimiter.fetch]: one evaluation at clock reading [now].  The
    [expirationTtl] option of [put] is a request to the host; eviction by the
    host is modelled by the [Evict] step below. *)
Definition fetch (now : Z) (storage : gmap string Bucket) (r : LimitRequest)
  : gmap string Bucket * Verdict :=
  let key := storage_key r in
  let b := load now storage key in
  let b := tick now b in
  let delta := heuristics b r in
  let b := decay b r delta in
  let storage := <[key := b]> storage in
  (storage, mkVerdict (verdict_action (trustedCookie r) b) (score b) (hits b)).

(** The request path lies under [/api/]. *)
Definition under_api (p : string) : Prop := String.prefix "/api/" p = true.

#[global] Instance under_api_dec p : Decision (under_api p) :=
  decide (String.prefix "/api/" p = true).

(** The weight [w] of a heuristic whose condition is [P], and 0 when the
    condition does not hold. *)
Definition contribution (P : Prop) `{Decision P} (w : Z) : Z :=
  if decide P then w else 0.

(** Histories of one Durable Object instance: evaluations, interleaved with
    evictions of idle entries by the host. *)
Inductive Step :=
| Evaluate (now : Z) (r : LimitRequest)
| Evict (key : string).

Definition step (storage : gmap string Bucket) (s : Step) : gmap string Bucket :=
  match s with
  | Evaluate now r => fst (fetch now storage r)
  | Evict key => delete key storage
  end.

(** The storage reached from the empty one after a history. *)
Definition run (h : list Step) : gmap string Bucket := foldl step ∅ h.

(** The successive readings of [Date.now()] never go backwards, starting
    from [t0]. *)
Fixpoint clock_ok (t0 : Z) (h : list Step) : bool :=
  match h with
  | [] => true
  | Evaluate now _ :: h' => (t0 <=? now) && clock_ok now h'
  | Evict _ :: h' => clock_ok t0 h'
  end.

(** The last clock reading of a history that started at [t0]. *)
Fixpoint last_clock (t0 : Z) (h : list Step) : Z :=
  match h with
  | [] => t0
  | Evaluate now _ :: h' => last_clock now h'
  | Evict _ :: h' => last_clock t0 h'
  end.

End WaspEdge.

(* ================================================================== *)
(** * case-ingestor: the queue consumer                                 *)
(* ================================================================== *)

Module CaseIngestor.

(** ** Numbers of the metrics

    A JavaScript number as far as the metrics need it: an exact rational, or
    one of the special values of IEEE 754 that arithmetic produces on a
    division by zero.  The rounding of binary64 is not part of [num]: the
    theorems on the metrics state what rounding does not move (finiteness,
    signs, orders between monotone expressions, thresholds that are not met
    with equality), and [forces64] below evaluates the forces in binary64
    where the two are compared. *)
Inductive num := Fin (q : Q) | PosInf | NegInf | NaN.

Declare Scope num_scope.
Delimit Scope num_scope with num.
Bind Scope num_scope with num.

Definition of_Z (z : Z) : num := Fin (inject_Z z).
Definition of_nat (n : nat) : num := of_Z (Z.of_nat n).

Definition Qltb (x y : Q) : bool := negb (Qle_bool y x).

Definition num_opp (x : num) : num :=
  match x with
  | Fin a => Fin (- a)
  | PosInf => NegInf
  | NegInf => PosInf
  | NaN => NaN
  end.

Definition num_add (x y : num) : num :=
  match x, y with
  | NaN, _ | _, NaN => NaN
  | Fin a, Fin b => Fin (a + b)
  | PosInf, NegInf | NegInf, PosInf => NaN
  | PosInf, _ | _, PosInf => PosInf
  | NegInf, _ | _, NegInf => NegInf
  end.

Definition num_sub (x y : num) : num := num_add x (num_opp y).

(** An infinity of the sign of [a] times [s], and NaN for [a = 0]. *)
Definition scaled_inf (a : Q) (s : bool) : num :=
  if Qeq_bool a 0 then NaN
  else if Bool.eqb (Qltb 0 a) s then PosInf else NegInf.

Definition num_mul (x y : num) : num :=
  match x, y with
  | NaN, _ | _, NaN => NaN
  | Fin a, Fin b => Fin (a * b)
  | Fin a, PosInf | PosInf, Fin a => scaled_inf a true
  | Fin a, NegInf | NegInf, Fin a => scaled_inf a false
  | PosInf, PosInf | NegInf, NegInf => PosInf
  | PosInf, NegInf | NegInf, PosInf => NegInf
  end.

(** Division: a finite number over zero is an infinity (NaN for 0/0), a finite
    number over an infinity is zero, an infinity over an infinity is NaN. *)
Definition num_div (x y : num) : num :=
  match x, y with
  | NaN, _ | _, NaN => NaN
  | Fin a, Fin b => if Qeq_bool b 0 then scaled_inf a true else Fin (a / b)
  | Fin _, (PosInf | NegInf) => Fin 0
  | PosInf, Fin b => if Qltb b 0 then NegInf else PosInf
  | NegInf, Fin b => if Qltb b 0 then PosInf else NegInf
  | (PosInf | NegInf), (PosInf | NegInf) => NaN
  end.

(** [x < y]; every comparison with NaN is false. *)
Definition num_ltb (x y : num) : bool :=
  match x, y with
  | NaN, _ | _, NaN => false
  | Fin a, Fin b => Qltb a b
  | _, NegInf => false
  | NegInf, _ => true
  | PosInf, _ => false
  | Fin _, PosInf => true
  end.

(** [x <= y]. *)
Definition num_leb (x y : num) : bool :=
  match x, y with
  | NaN, _ | _, NaN => false
  | Fin a, Fin b => Qle_bool a b
  | NegInf, _ => true
  | _, PosInf => true
  | _, NegInf => false
  | PosInf, _ => false
  end.

Definition num_gtb (x y : num) : bool := num_ltb y x.
Definition num_geb (x y : num) : bool := num_leb y x.

(** [Math.max] and [Math.min] of two numbers. *)
Definition Math_max (x y : num) : num :=
  match x, y with
  | NaN, _ | _, NaN => NaN
  | _, _ => if num_ltb x y then y else x
  end.

Definition Math_min (x y : num) : num :=
  match x, y with
  | NaN, _ | _, NaN => NaN
  | _, _ => if num_ltb y x then y else x
  end.

(** [Math.round]: the nearest integer, halves rounded up. *)
Definition Math_round (x : num) : num :=
  match x with
  | Fin a => of_Z (Qfloor (a + (1 # 2))%Q)
  | _ => x
  end.

(** Equality of numbers up to the representation of the rational. *)
Definition num_eq (x y : num) : Prop :=
  match x, y with
  | Fin a, Fin b => (a == b)%Q
  | PosInf, PosInf | NegInf, NegInf => True
  | _, _ => False
  end.

Definition finite (x : num) : Prop := exists q, x = Fin q.

Infix "+" := num_add : num_scope.
Infix "-" := num_sub : num_scope.
Infix "*" := num_mul : num_scope.
Infix "/" := num_div : num_scope.
Infix "<?" := num_ltb : num_scope.
Infix ">?" := num_gtb : num_scope.
Infix ">=?" := num_geb : num_scope.
Infix "==" := num_eq (at level 70, no associativity) : num_scope.

(** ** Messages, rows and the database *)

(** [type EventMsg]. *)
Record EventMsg := mkEventMsg {
  ts : Z; ip : string; asn : Z; country : string; ua : string;
  path : string; method : string; action : string; score : Q; hits : Z;
  zone : string; colo : string
}.

(** A row of the table [cases] of [schema.sql]. *)
Record CaseRow := mkCaseRow {
  c_id : string;
  c_key : string;
  c_zone : string;
  c_ip : string;
  c_asn : Z;
  c_country : string;
  c_first_seen : Z;
  c_last_seen : Z;
  c_status : string;
  c_attack_rps : num;
  c_est_bandwidth_mbps : num;
  c_system_capacity_rps : num;
  c_AF : num;
  c_DF : num;
  c_BoF : num;
  c_evidence_count : num;
  c_mercy : num;
  c_justice : num;
  c_abuse_report : option string;
  c_section504_draft : option string
}.

(** A row of the table [events]. *)
Record EventRow := mkEventRow {
  e_id : Z;
  e_case_id : string;
  e_ts : Z;
  e_path : string;
  e_method : string;
  e_ua : string;
  e_action : string;
  e_score : Q;
  e_hits : Z;
  e_colo : string
}.

(** The columns [ts, action, score, hits] selected by [recomputeMetrics]. *)
Record Row := mkRow {
  r_ts : Z;
  r_action : string;
  r_score : Q;
  r_hits : Z
}.

(** The D1 database. *)
Record DB := mkDB {
  cases : list CaseRow;
  events : list EventRow
}.

(** The object returned by [recomputeMetrics]. *)
Record Metrics := mkMetrics {
  attack_rps : num;
  bandwidth_mbps : num;
  capacity_rps : num;
  af : num;
  df : num;
  bof : num;
  ef : num;
  mercy : num;
  justice : num
}.

(** What the host platform supplies: the exponential, and the two text
    templates of the source, whose number and date formatting ([toFixed],
    [toISOString]) is left abstract; the second one also reads the clock. *)
Class Host := {
  Math_exp : num -> num;
  buildAbuseReport : string -> Metrics -> string;
  buildSection504Draft : Z -> Metrics -> string
}.

(** What the environment supplies while one message is processed: whether D1
    answers, the value of [crypto.randomUUID()], and the readings of the clock
    in [recomputeMetrics], in [buildSection504Draft] and in the snapshot
    update. *)
Record Env := mkEnv {
  d1_up : bool;
  randomUUID : string;
  now_recompute : Z;
  now_draft : Z;
  now_update : Z
}.

(** The outcome of an awaited D1 statement: a value, or a rejection. *)
Inductive Result (A : Type) :=
| Ok (a : A)
| Rejected (reason : string).
Arguments Ok {A} a.
Arguments Rejected {A} reason.

#[global] Instance Result_ret : MRet Result := fun A a => Ok a.
#[global] Instance Result_bind : MBind Result := fun A B f r =>
  match r with
  | Ok a => f a
  | Rejected reason => Rejected reason
  end.

(** ** D1 statements *)

(** A statement runs only when D1 answers. *)
Definition d1 {A} (env : Env) (r : Result A) : Result A :=
  if d1_up env then r else Rejected "D1_ERROR".

(** [SELECT id FROM cases WHERE key = ?1], [first()]. *)
Definition select_case_id (env : Env) (db : DB) (key : string)
  : Result (option string) :=
  d1 env (Ok (c_id <$> List.find (fun c => String.eqb (c_key c) key) (cases db))).

Definition set_last_seen (t : Z) (c : CaseRow) : CaseRow :=
  mkCaseRow (c_id c) (c_key c) (c_zone c) (c_ip c) (c_asn c) (c_country c)
    (c_first_seen c) t (c_status c)
    (c_attack_rps c) (c_est_bandwidth_mbps c) (c_system_capacity_rps c)
    (c_AF c) (c_DF c) (c_BoF c) (c_evidence_count c) (c_mercy c) (c_justice c)
    (c_abuse_report c) (c_section504_draft c).

(** [UPDATE cases SET last_seen=?2 WHERE id=?1]. *)
Definition update_last_seen (env : Env) (db : DB) (id : string) (t : Z)
  : Result DB :=
  d1 env (Ok (mkDB
    (map (fun c => if String.eqb (c_id c) id then set_last_seen t c else c) (cases db))
    (events db))).

(** The row made by [INSERT INTO cases (id, key, zone, ip, asn, country,
    first_seen, last_seen, status) VALUES (?1, ..., ?7, ?7, 'OPEN')], the
    other columns taking the defaults of the schema. *)
Definition new_case (id key : string) (e : EventMsg) : CaseRow :=
  mkCaseRow id key (zone e) (ip e) (asn e) (country e) (ts e) (ts e) "OPEN"
    (Fin 0) (Fin 0) (Fin 0) (Fin 0) (Fin 0) (Fin 1) (Fin 0) (Fin 0.5) (Fin 0.5)
    None None.

(** The insert is rejected when it breaks [id PRIMARY KEY] or [key UNIQUE]. *)
Definition insert_case (env : Env) (db : DB) (c : CaseRow) : Result DB :=
  d1 env (
    if existsb (fun c' => String.eqb (c_id c') (c_id c)) (cases db)
    then Rejected "UNIQUE constraint failed: cases.id"
    else if existsb (fun c' => String.eqb (c_key c') (c_key c)) (cases db)
    then Rejected "UNIQUE constraint failed: cases.key"
    else Ok (mkDB (cases db ++ [c]) (events db))).

(** [INSERT INTO events (case_id, ts, path, method, ua, action, score, hits,
    colo)]; the id is the next AUTOINCREMENT value, and the insert is rejected
    when [case_id] names no case (FOREIGN KEY). *)
Definition insert_event (env : Env) (db : DB) (caseId : string) (e : EventMsg)
  : Result DB :=
  d1 env (
    if existsb (fun c => String.eqb (c_id c) caseId) (cases db)
    then Ok (mkDB (cases db)
               (events db ++
                [mkEventRow (1 + foldr Z.max 0 (e_id <$> events db)) caseId
                   (ts e) (path e) (method e) (ua e) (action e) (score e)
                   (hits e) (colo e)]))
    else Rejected "FOREIGN KEY constraint failed").

(** [ORDER BY ts]. *)
Fixpoint insert_by_ts (r : Row) (l : list Row) : list Row :=
  match l with
  | [] => [r]
  | r' :: l' => if r_ts r <=? r_ts r' then r :: l else r' :: insert_by_ts r l'
  end.

Definition order_by_ts (l : list Row) : list Row := foldr insert_by_ts [] l.

(** [SELECT ts, action, score, hits FROM events WHERE case_id=?1 AND ts>=?2
    ORDER BY ts]. *)
Definition select_window (env : Env) (db : DB) (caseId : string) (from : Z)
  : Result (list Row) :=
  d1 env (Ok (order_by_ts
    ((fun e => mkRow (e_ts e) (e_action e) (e_score e) (e_hits e)) <$>
     List.filter (fun e => String.eqb (e_case_id e) caseId && (from <=? e_ts e))
       (events db)))).

(** [UPDATE cases SET last_seen=?2, status=?3, attack_rps=?4, ...,
    section504_draft=?14 WHERE id=?1]: one statement writes all the columns. *)
Definition set_snapshot (t : Z) (status : string) (m : Metrics)
    (abuse s504 : string) (c : CaseRow) : CaseRow :=
  mkCaseRow (c_id c) (c_key c) (c_zone c) (c_ip c) (c_asn c) (c_country c)
    (c_first_seen c) t status
    (attack_rps m) (bandwidth_mbps m) (capacity_rps m)
    (af m) (df m) (bof m) (ef m) (mercy m) (justice m)
    (Some abuse) (Some s504).

Definition update_snapshot (env : Env) (db : DB) (caseId : string) (t : Z)
    (status : string) (m : Metrics) (abuse s504 : string) : Result DB :=
  d1 env (Ok (mkDB
    (map (fun c => if String.eqb (c_id c) caseId
                   then set_snapshot t status m abuse s504 c else c) (cases db))
    (events db))).

(** ** The consumer *)

(** [upsertCase]: the id of the case of key [zone:ip:asn], bumping its
    [last_seen] when the select finds a row with a truthy id, and inserting a
    new case otherwise. *)
Definition case_key (e : EventMsg) : string :=
  zone e +:+ ":" +:+ ip e +:+ ":" +:+ pretty (asn e).

Definition upsertCase (env : Env) (db : DB) (e : EventMsg) : Result (string * DB) :=
  let key := case_key e in
  found ← select_case_id env db key;
  match found with
  | Some found_id =>
      if truthy found_id then
        db ← update_last_seen env db found_id (ts e);
        mret (found_id, db)
      else
        let id := randomUUID env in
        db ← insert_case env db (new_case id key e);
        mret (id, db)
  | None =>
      let id := randomUUID env in
      db ← insert_case env db (new_case id key e);
      mret (id, db)
  end.

(** The number of rows whose action is [a]:
    [rows.results?.filter(r => r.action === a).length ?? 0]. *)
Definition count_action (a : string) (rows : list Row) : nat :=
  length (List.filter (fun r => String.eqb (r_action r) a) rows).

(** [rows.results!.reduce((s,r) => s + r.score, 0)]. *)
Definition sum_scores (rows : list Row) : num :=
  foldl (fun s r => (s + Fin (r_score r))%num) (Fin 0) rows.

(** [n ? (rows.results!.reduce(...) / n) : 0], the mean score of the window. *)
Definition avgScore (rows : list Row) : num :=
  match length rows with
  | O => Fin 0
  | _ => (sum_scores rows / of_nat (length rows))%num
  end.

(** The body of [recomputeMetrics] after the select, with the constant
    [capacityRPS] as a parameter. *)
Definition metricsOf `{Host} (capacityRPS : num) (rows : list Row) : Metrics :=
  let n := length rows in
  let rps := (of_nat n / Fin 60)%num in
  let estBandwidthMbps := ((rps * Fin 2 * Fin 8) / Fin 1024)%num in
  let AF := if (capacityRPS >? Fin 0)%num then (rps / capacityRPS)%num else Fin 0 in
  let challenged := count_action "challenge" rows in
  let tarpitted := count_action "tarpit" rows in
  let blocked := count_action "block" rows in
  let allowed := count_action "allow" rows in
  let DF := ((of_nat challenged * Fin 0.6 + of_nat tarpitted * Fin 0.9
              + of_nat blocked * Fin 1.0) / Fin 60)%num in
  let BoF := if (AF >? Fin 0)%num then (DF / AF)%num else Fin 1 in
  let avgScore := match n with
                  | O => Fin 0
                  | _ => (sum_scores rows / of_nat n)%num
                  end in
  let EF := Math_round (of_nat n + avgScore * Fin 3)%num in
  let mercy := (Fin 1 / (Fin 1 + Math_exp (avgScore - Fin 6)))%num in
  let nonAllow := match n with
                  | O => Fin 0
                  | _ => ((of_nat challenged + of_nat tarpitted + of_nat blocked)
                          / of_nat n)%num
                  end in
  let justice := Math_max (Fin 0) (Math_min (Fin 1) (nonAllow + avgScore / Fin 12)%num) in
  mkMetrics rps estBandwidthMbps capacityRPS AF DF BoF EF mercy justice.

(** [const capacityRPS = 500]. *)
Definition capacityRPS : num := Fin 500.

(** Lines 72-84 in the binary64 arithmetic of JavaScript, from the length of
    the window and its three counts: [rps], [AF], [DF] and [BoF].  The
    literals are the binary64 values of 0.6 and 0.9.  [metricsOf] has the
    same formulas over exact rationals; the two agree up to the rounding of
    each operation. *)
Definition float_of_count (n : Z) : float := PrimFloat.of_uint63 (Uint63.of_Z n).

Definition forces64 (n challenged tarpitted blocked : Z)
  : float * float * float * float :=
  let rps := (float_of_count n / 60)%float in
  let capacityRPS := 500%float in
  let AF := if (0 <? capacityRPS)%float then (rps / capacityRPS)%float
            else 0%float in
  let DF := ((float_of_count challenged * 0x1.3333333333333p-1
              + float_of_count tarpitted * 0x1.ccccccccccccdp-1
              + float_of_count blocked * 1) / 60)%float in
  let BoF := if (0 <? AF)%float then (DF / AF)%float else 1%float in
  (rps, AF, DF, BoF).

(** [const windowMs = 60_000]. *)
Definition windowMs : Z := 60000.

(** [recomputeMetrics]: the metrics of the events of the case in the window
    that starts [windowMs] before the clock reading. *)
Definition recomputeMetrics `{Host} (env : Env) (db : DB) (caseId : string)
  : Result Metrics :=
  let now := now_recompute env in
  let from := now - windowMs in
  rows ← select_window env db caseId from;
  mret (metricsOf capacityRPS rows).

(** The condition of line 25:
    [metrics.ef >= 50 || metrics.af >= 1 || metrics.bof < 1]. *)
Definition trigger (metrics : Metrics) : bool :=
  (ef metrics >=? Fin 50)%num || (af metrics >=? Fin 1)%num
  || (bof metrics <? Fin 1)%num.

(** Lines 25-41: the snapshot of the case is written when the condition
    holds, and nothing is written otherwise. *)
Definition materialize `{Host} (env : Env) (db : DB) (e : EventMsg)
    (caseId : string) (metrics : Metrics) : Result DB :=
  if trigger metrics then
    let abuse := buildAbuseReport (zone e) metrics in
    let s504 := buildSection504Draft (now_draft env) metrics in
    update_snapshot env db caseId (now_update env) "OPEN" metrics abuse s504
  else mret db.

(** The body of the loop of [queue], up to and excluding [msg.ack()], when
    D1 gives one answer for the whole message: every await reads the same
    [env], so a rejection by D1 comes before the message has written
    anything.  [process_awaits] below has the rejections between the
    awaits. *)
Definition process `{Host} (env : Env) (db : DB) (e : EventMsg) : Result DB :=
  '(caseId, db) ← upsertCase env db e;
  db ← insert_event env db caseId e;
  metrics ← recomputeMetrics env db caseId;
  materialize env db e caseId metrics.

(** A message of the batch: its id and its body. *)
Record Message := mkMessage {
  msg_id : nat;
  body : EventMsg
}.

(** What a run of [queue] leaves behind: the database, the ids of the
    messages on which [ack()] was called, in order, and whether the handler
    returned or threw. *)
Record Outcome := mkOutcome {
  final_db : DB;
  acked : list nat;
  completed : Result unit
}.

(** The loop of [queue] from its [i]-th iteration on; [world i] is the
    environment of that iteration.  A rejected statement ends the handler:
    the messages not yet reached are neither processed nor acknowledged.
    Under [process] the rejected message has written nothing;
    [queue_awaits_from] below keeps what its earlier awaits have written. *)
Fixpoint queue_from `{Host} (world : nat -> Env) (i : nat) (db : DB)
    (acks : list nat) (messages : list Message) : Outcome :=
  match messages with
  | [] => mkOutcome db acks (Ok tt)
  | msg :: rest =>
      match process (world i) db (body msg) with
      | Ok db' => queue_from world (S i) db' (acks ++ [msg_id msg]) rest
      | Rejected reason => mkOutcome db acks (Rejected reason)
      end
  end.

(** [queue(batch, env)]. *)
Definition queue `{Host} (world : nat -> Env) (db : DB) (messages : list Message)
  : Outcome :=
  queue_from world O db [] messages.

(** ** Failures between the awaits of one message

    The awaits of the loop body are separate statements, each committed when
    it returns: the source opens no transaction.  [process] is the body under
    one answer of D1 for the whole message.  In [process_awaits] every await
    has an environment of its own ([envs 0] for [upsertCase], [envs 1] for
    the insert of the event, [envs 2] for [recomputeMetrics], [envs 3] for
    the update of the snapshot), and the result holds the database as the
    awaits that returned have left it, with the rejection that ended the
    body if there was one.  The two statements of [upsertCase] share an
    environment: the first is a SELECT, so the rejection of either leaves
    the database as it was. *)
Definition process_awaits `{Host} (envs : nat -> Env) (db : DB) (e : EventMsg)
  : DB * Result unit :=
  match upsertCase (envs 0%nat) db e with
  | Rejected reason => (db, Rejected reason)
  | Ok (caseId, db1) =>
      match insert_event (envs 1%nat) db1 caseId e with
      | Rejected reason => (db1, Rejected reason)
      | Ok db2 =>
          match recomputeMetrics (envs 2%nat) db2 caseId with
          | Rejected reason => (db2, Rejected reason)
          | Ok metrics =>
              match materialize (envs 3%nat) db2 e caseId metrics with
              | Rejected reason => (db2, Rejected reason)
              | Ok db3 => (db3, Ok tt)
              end
          end
      end
  end.

(** The loop of [queue] over [process_awaits]; [world i k] is the environment
    of the [k]-th await of the [i]-th iteration.  When an await is rejected
    the handler ends, and the database keeps what the earlier awaits of that
    iteration have written. *)
Fixpoint queue_awaits_from `{Host} (world : nat -> nat -> Env) (i : nat) (db : DB)
    (acks : list nat) (messages : list Message) : Outcome :=
  match messages with
  | [] => mkOutcome db acks (Ok tt)
  | msg :: rest =>
      match process_awaits (world i) db (body msg) with
      | (db', Ok _) => queue_awaits_from world (S i) db' (acks ++ [msg_id msg]) rest
      | (db', Rejected reason) => mkOutcome db' acks (Rejected reason)
      end
  end.

Definition queue_awaits `{Host} (world : nat -> nat -> Env) (db : DB)
    (messages : list Message) : Outcome :=
  queue_awaits_from world O db [] messages.

(** The rows [c] and [c'] agree on every column but [last_seen], which is
    [t] in [c']. *)
Definition bumped (t : Z) (c c' : CaseRow) : Prop :=
  c_id c' = c_id c /\ c_key c' = c_key c /\ c_zone c' = c_zone c
  /\ c_ip c' = c_ip c /\ c_asn c' = c_asn c /\ c_country c' = c_country c
  /\ c_first_seen c' = c_first_seen c /\ c_last_seen c' = t
  /\ c_status c' = c_status c /\ c_attack_rps c' = c_attack_rps c
  /\ c_est_bandwidth_mbps c' = c_est_bandwidth_mbps c
  /\ c_system_capacity_rps c' = c_system_capacity_rps c
  /\ c_AF c' = c_AF c /\ c_DF c' = c_DF c /\ c_BoF c' = c_BoF c
  /\ c_evidence_count c' = c_evidence_count c /\ c_mercy c' = c_mercy c
  /\ c_justice c' = c_justice c /\ c_abuse_report c' = c_abuse_report c
  /\ c_section504_draft c' = c_section504_draft c.

(** The row [c'] is [c] after the snapshot update: the identity columns and
    [first_seen] are those of [c], and [last_seen], [status], the nine metric
    columns and the two reports are the values bound by the statement. *)
Definition snapshot_of (t : Z) (m : Metrics) (abuse s504 : string)
    (c c' : CaseRow) : Prop :=
  c_id c' = c_id c /\ c_key c' = c_key c /\ c_zone c' = c_zone c
  /\ c_ip c' = c_ip c /\ c_asn c' = c_asn c /\ c_country c' = c_country c
  /\ c_first_seen c' = c_first_seen c
  /\ c_last_seen c' = t /\ c_status c' = "OPEN"
  /\ c_attack_rps c' = attack_rps m
  /\ c_est_bandwidth_mbps c' = bandwidth_mbps m
  /\ c_system_capacity_rps c' = capacity_rps m
  /\ c_AF c' = af m /\ c_DF c' = df m /\ c_BoF c' = bof m
  /\ c_evidence_count c' = ef m
  /\ c_mercy c' = mercy m /\ c_justice c' = justice m
  /\ c_abuse_report c' = Some abuse /\ c_section504_draft c' = Some s504.

(** The rows of key [key]. *)
Definition rows_of_key (key : string) (l : list CaseRow) : list CaseRow :=
  List.filter (fun c => String.eqb (c_key c) key) l.

(** The rational value of [n / 60], the requests per second of [n] rows. *)
Definition rps_of (n : nat) : Q := (inject_Z (Z.of_nat n) / 60)%Q.

(** The rational value of
    [(challenged*0.6 + tarpitted*0.9 + blocked*1.0) / 60]. *)
Definition df_of (rows : list Row) : Q :=
  ((inject_Z (Z.of_nat (count_action "challenge" rows)) * 0.6
    + inject_Z (Z.of_nat (count_action "tarpit" rows)) * 0.9
    + inject_Z (Z.of_nat (count_action "block" rows)) * 1.0) / 60)%Q.

(** The schema constraints on [cases], and ids as [randomUUID] makes them. *)
Definition cases_ok (l : list CaseRow) : Prop :=
  NoDup (c_id <$> l) /\ NoDup (c_key <$> l) /\ Forall (fun c => c_id c <> "") l.

#[global] Instance cases_ok_dec l : Decision (cases_ok l).
Proof. unfold cases_ok. apply _. Defined.

(** ** Sample data

    A host whose exponential is the constant 1 and whose templates return
    their titles; it only serves to run the consumer on the samples below. *)
Definition sample_host : Host := {|
  Math_exp := fun _ => Fin 1;
  buildAbuseReport := fun zone _ => "ABUSE REPORT " +:+ zone;
  buildSection504Draft := fun _ _ => "SECTION 504 INFORMATION"
|}.

(** An event of the client 203.0.113.9 at 1000 ms, with score 10. *)
Definition sample_event (action : string) : EventMsg :=
  mkEventMsg 1000 "203.0.113.9" 64500 "CA" "curl/8" "/login" "POST" action 10 130
    "example.com" "YYZ".

(** D1 answers, and the clock reads 60000 ms throughout. *)
Definition sample_env : Env :=
  mkEnv true "6f1c2a9e-0d1b-4c55-9a53-0c1f4a7e2b10" 60000 60000 60000.

Definition empty_db : DB := mkDB [] [].

(** The case of the sample client, and nothing else. *)
Definition one_case_db : DB :=
  mkDB [new_case "case-1" (case_key (sample_event "allow")) (sample_event "allow")] [].

(** Thirty blocked and twenty allowed requests of score 10. *)
Definition fifty_rows : list Row :=
  repeat (mkRow 1000 "block" 10 130) 30 ++ repeat (mkRow 1000 "allow" 10 20) 20.

Definition fifty_db : DB :=
  mkDB (cases one_case_db)
    ((fun r => mkEventRow 0 "case-1" (r_ts r) "/login" "POST" "curl/8"
                 (r_action r) (r_score r) (r_hits r) "YYZ") <$> fifty_rows).

(** One allowed request of the sample client. *)
Definition one_allow_db : DB :=
  mkDB (cases one_case_db)
    [mkEventRow 1 "case-1" 1000 "/login" "POST" "curl/8" "allow" 0 1 "YYZ"].

(** A batch of two messages, and a world in which D1 answers during the first
    iteration only. *)
Definition two_messages : list Message :=
  [mkMessage 0 (sample_event "block"); mkMessage 1 (sample_event "allow")].

Definition failing_world (i : nat) : Env :=
  mkEnv (Nat.eqb i 0) "6f1c2a9e-0d1b-4c55-9a53-0c1f4a7e2b10" 60000 60000 60000.

(** A world in which D1 stops answering after the two inserts of the first
    message. *)
Definition stopping_world (i k : nat) : Env :=
  mkEnv (Nat.eqb i 0 && Nat.ltb k 2) "6f1c2a9e-0d1b-4c55-9a53-0c1f4a7e2b10"
    60000 60000 60000.

End CaseIngestor.

(* ================================================================== *)
(** * wasp-edge: the Worker in front of the Durable Object              *)
(* ================================================================== *)

Module EdgeWorker.
Import WaspEdge.

(** ** Strings of the platform

    Header values are byte strings, one code unit below 256 per byte
    ([string]); [decodeURIComponent] returns a string of UTF-16 code units. *)
Definition jsstring := list N.

Definition code_units (s : string) : jsstring :=
  N_of_ascii <$> list_ascii_of_string s.

(** [s.split(sep)] for a separator of one character: never empty. *)
Fixpoint split_on (sep : ascii) (s : string) : list string :=
  match s with
  | EmptyString => [EmptyString]
  | String c s' =>
      if Ascii.eqb c sep then EmptyString :: split_on sep s'
      else match split_on sep s' with
           | x :: xs => String c x :: xs
           | [] => [String c EmptyString]
           end
  end.

(** The white space and line terminators of ECMAScript below 256:
    TAB, LF, VT, FF, CR, SP and NBSP. *)
Definition is_space (c : ascii) : bool :=
  let n := N_of_ascii c in
  ((9 <=? n) && (n <=? 13) || (n =? 32) || (n =? 160))%N.

Fixpoint trim_start (s : string) : string :=
  match s with
  | EmptyString => EmptyString
  | String c s' => if is_space c then trim_start s' else s
  end.

Fixpoint trim_end (s : string) : string :=
  match s with
  | EmptyString => EmptyString
  | String c s' =>
      match trim_end s' with
      | EmptyString => if is_space c then EmptyString else String c EmptyString
      | t => String c t
      end
  end.

(** [s.trim()]. *)
Definition trim (s : string) : string := trim_end (trim_start s).

(** ** [decodeURIComponent] (ECMA-262, Decode with an empty preserved set) *)

(** The value of a hexadecimal digit. *)
Definition hex_digit (c : ascii) : option N :=
  let n := N_of_ascii c in
  if ((48 <=? n) && (n <=? 57))%N then Some (n - 48)%N
  else if ((65 <=? n) && (n <=? 70))%N then Some (n - 55)%N
  else if ((97 <=? n) && (n <=? 102))%N then Some (n - 87)%N
  else None.

(** The number of leading 1 bits of an octet (5 stands for 5 or more). *)
Definition leading_ones (b : N) : nat :=
  if (b <? 128)%N then 0
  else if (b <? 192)%N then 1
  else if (b <? 224)%N then 2
  else if (b <? 240)%N then 3
  else if (b <? 248)%N then 4
  else 5.

Definition is_continuation (b : N) : bool := ((128 <=? b) && (b <? 192))%N.

(** The code point of a well-formed UTF-8 sequence of 2, 3 or 4 octets: the
    continuation octets are of the form 10xxxxxx, the encoding is the shortest
    one, and the code point is neither a surrogate nor above U+10FFFF. *)
Definition utf8_code_point (octets : list N) : option N :=
  match octets with
  | [b0; b1] =>
      let v := ((b0 - 192) * 64 + (b1 - 128))%N in
      if is_continuation b1 && (128 <=? v)%N then Some v else None
  | [b0; b1; b2] =>
      let v := ((b0 - 224) * 4096 + (b1 - 128) * 64 + (b2 - 128))%N in
      if is_continuation b1 && is_continuation b2 && (2048 <=? v)%N
         && negb ((55296 <=? v) && (v <=? 57343))%N
      then Some v else None
  | [b0; b1; b2; b3] =>
      let v := ((b0 - 240) * 262144 + (b1 - 128) * 4096 + (b2 - 128) * 64
                + (b3 - 128))%N in
      if is_continuation b1 && is_continuation b2 && is_continuation b3
         && (65536 <=? v)%N && (v <=? 1114111)%N
      then Some v else None
  | _ => None
  end.

(** UTF16EncodeCodePoint. *)
Definition utf16_encode (v : N) : jsstring :=
  if (v <? 65536)%N then [v]
  else [(55296 + (v - 65536) / 1024)%N; (56320 + (v - 65536) mod 1024)%N].

(** Where the decoder stands between two characters: outside an escape; after
    the [%] or after the first digit of an escape, which continues the
    sequence [pending] when there is one; or inside a sequence, where the
    next character must be a [%]. *)
Inductive DecodeState :=
| Plain
| Hex1 (pending : option (nat * list N))
| Hex2 (pending : option (nat * list N)) (hi : N)
| NeedPercent (remaining : nat) (octets : list N).

(** One character: the code units it completes and the next state, or a
    URIError. *)
Definition decode_step (st : DecodeState) (c : ascii)
  : CaseIngestor.Result (jsstring * DecodeState) :=
  match st with
  | Plain =>
      if Ascii.eqb c "%" then CaseIngestor.Ok ([], Hex1 None)
      else CaseIngestor.Ok ([N_of_ascii c], Plain)
  | Hex1 pending =>
      match hex_digit c with
      | Some hi => CaseIngestor.Ok ([], Hex2 pending hi)
      | None => CaseIngestor.Rejected "URIError"
      end
  | Hex2 pending hi =>
      match hex_digit c with
      | None => CaseIngestor.Rejected "URIError"
      | Some lo =>
          let b := (16 * hi + lo)%N in
          match pending with
          | None =>
              match leading_ones b with
              | O => CaseIngestor.Ok ([b], Plain)
              | 2%nat => CaseIngestor.Ok ([], NeedPercent 1 [b])
              | 3%nat => CaseIngestor.Ok ([], NeedPercent 2 [b])
              | 4%nat => CaseIngestor.Ok ([], NeedPercent 3 [b])
              | _ => CaseIngestor.Rejected "URIError"
              end
          | Some (S (S j), octets) =>
              CaseIngestor.Ok ([], NeedPercent (S j) (octets ++ [b]))
          | Some (_, octets) =>
              match utf8_code_point (octets ++ [b]) with
              | Some v => CaseIngestor.Ok (utf16_encode v, Plain)
              | None => CaseIngestor.Rejected "URIError"
              end
          end
      end
  | NeedPercent remaining octets =>
      if Ascii.eqb c "%" then CaseIngestor.Ok ([], Hex1 (Some (remaining, octets)))
      else CaseIngestor.Rejected "URIError"
  end.

Fixpoint decode_from (st : DecodeState) (s : string)
  : CaseIngestor.Result jsstring :=
  match s with
  | EmptyString =>
      match st with
      | Plain => CaseIngestor.Ok []
      | _ => CaseIngestor.Rejected "URIError"
      end
  | String c s' =>
      match decode_step st c with
      | CaseIngestor.Ok (out, st') =>
          match decode_from st' s' with
          | CaseIngestor.Ok rest => CaseIngestor.Ok (out ++ rest)
          | CaseIngestor.Rejected reason => CaseIngestor.Rejected reason
          end
      | CaseIngestor.Rejected reason => CaseIngestor.Rejected reason
      end
  end.

Definition decodeURIComponent (s : string) : CaseIngestor.Result jsstring :=
  decode_from Plain s.

(** ** [parseCookies] *)

(** [out[k] = v] on an object literal: a string assigned to [__proto__] is
    dropped by the setter of [Object.prototype]. *)
Definition assign (out : gmap string jsstring) (k : string) (v : jsstring)
  : gmap string jsstring :=
  if String.eqb k "__proto__" then out else <[k := v]> out.

(** The callback of [forEach]:
    [const [k,v] = p.split('='); if (k && v) out[k.trim()] =
    decodeURIComponent(v.trim())]. *)
Definition parse_part (out : gmap string jsstring) (p : string)
  : CaseIngestor.Result (gmap string jsstring) :=
  match split_on "=" p with
  | k :: v :: _ =>
      if truthy k && truthy v then
        match decodeURIComponent (trim v) with
        | CaseIngestor.Ok value => CaseIngestor.Ok (assign out (trim k) value)
        | CaseIngestor.Rejected reason => CaseIngestor.Rejected reason
        end
      else CaseIngestor.Ok out
  | _ => CaseIngestor.Ok out
  end.

(** [parts.forEach(...)]: an exception of the callback ends the loop. *)
Fixpoint parse_parts (out : gmap string jsstring) (parts : list string)
  : CaseIngestor.Result (gmap string jsstring) :=
  match parts with
  | [] => CaseIngestor.Ok out
  | p :: parts' =>
      match parse_part out p with
      | CaseIngestor.Ok out' => parse_parts out' parts'
      | CaseIngestor.Rejected reason => CaseIngestor.Rejected reason
      end
  end.

Definition parseCookies (header : string)
  : CaseIngestor.Result (gmap string jsstring) :=
  parse_parts ∅ (split_on ";" header).

(** [cookies['wasp_ok'] === '1']. *)
Definition wasp_ok (cookies : gmap string jsstring) : bool :=
  bool_decide (cookies !! "wasp_ok" = Some [49%N]).

(** ** The [fetch] handler *)

(** [request.cf], as far as the handler reads it. *)
Record Cf := mkCf {
  cf_asn : option Z;
  cf_country : option string;
  cf_zoneName : option string;
  cf_colo : option string
}.

(** A value of [FormData.get]: a string or a file. *)
Inductive FormValue := FormString (s : string) | FormFile.

(** The request, as far as the handler reads it: the path of its URL, the
    method, three headers, [cf], and the outcome of [formData()] followed by
    [get('cf-turnstile-response')] ([None] when the body is no form). *)
Record Request := mkRequest {
  req_pathname : string;
  req_method : string;
  req_connecting_ip : option string;
  req_user_agent : option string;
  req_cookie : option string;
  req_cf : option Cf;
  req_form : option (option FormValue)
}.

(** What the handler answers. *)
Inductive Response :=
| PassThrough
| SeeOther (location set_cookie : string)
| ChallengePage (siteKey : string) (msg : option string)
| Tarpit (ms : Z)
| Forbidden.

(** What the platform supplies for one request: the site key, the answer of
    the verification service to a token and an address (a rejection when the
    call fails), and the clock readings of the Durable Object and of the
    event. *)
Record Platform := mkPlatform {
  TURNSTILE_SITE_KEY : string;
  verifyTurnstile : string -> string -> CaseIngestor.Result bool;
  now_limiter : Z;
  now_event : Z
}.

(** The storage of every Durable Object, by name, and the events sent to the
    queue so far. *)
Record World := mkWorld {
  objects : gmap string (gmap string Bucket);
  sent : list CaseIngestor.EventMsg
}.

(** The action as the JSON verdict spells it. *)
Definition action_name (a : Action) : string :=
  match a with
  | allow => "allow"
  | challenge => "challenge"
  | tarpit => "tarpit"
  | block => "block"
  end.

(** Lines 59-62. *)
Definition respond (platform : Platform) (a : Action) : Response :=
  match a with
  | allow => PassThrough
  | challenge => ChallengePage (TURNSTILE_SITE_KEY platform) None
  | tarpit => Tarpit 15000
  | block => Forbidden
  end.

(** The name of the Durable Object of a request, [`${ip}:${asn}`]. *)
Definition object_name (ip : string) (asn : Z) : string :=
  ip +:+ ":" +:+ pretty asn.

Definition client_ip (request : Request) : string :=
  default "0.0.0.0" (req_connecting_ip request).

Definition client_cf (request : Request) : Cf :=
  default (mkCf None None None None) (req_cf request).

Definition client_asn (request : Request) : Z :=
  default 0 (cf_asn (client_cf request)).

(** The default export: [fetch(request, env, ctx)]. *)
Definition fetch (platform : Platform) (w : World) (request : Request)
  : CaseIngestor.Result (Response * World) :=
  let ip := client_ip request in
  let cf := client_cf request in
  let ua := default "" (req_user_agent request) in
  let asn := client_asn request in
  let country := default "XX" (cf_country cf) in
  let method := req_method request in
  let path := req_pathname request in
  if String.prefix "/healthz" path || String.prefix "/status" path then
    CaseIngestor.Ok (PassThrough, w)
  else if String.eqb path "/__wasp/turnstile" && String.eqb method "POST" then
    match req_form request with
    | None => CaseIngestor.Rejected "TypeError"
    | Some field =>
        let token := match field with
                     | None => ""
                     | Some (FormString s) => s
                     | Some FormFile => "[object File]"
                     end in
        match verifyTurnstile platform token ip with
        | CaseIngestor.Rejected reason => CaseIngestor.Rejected reason
        | CaseIngestor.Ok true =>
            CaseIngestor.Ok
              (SeeOther "/" "wasp_ok=1; Max-Age=1800; Path=/; Secure; HttpOnly; SameSite=Lax",
               w)
        | CaseIngestor.Ok false =>
            CaseIngestor.Ok
              (ChallengePage (TURNSTILE_SITE_KEY platform)
                 (Some "Verification failed. Try again."), w)
        end
    end
  else
    match parseCookies (default "" (req_cookie request)) with
    | CaseIngestor.Rejected reason => CaseIngestor.Rejected reason
    | CaseIngestor.Ok cookies =>
        let trustedCookie := wasp_ok cookies in
        let name := object_name ip asn in
        let storage := default ∅ (objects w !! name) in
        let result := WaspEdge.fetch (now_limiter platform) storage
                        (mkLimitRequest ip asn ua path method trustedCookie) in
        let verdict := snd result in
        let event := CaseIngestor.mkEventMsg (now_event platform) ip asn country
                       ua path method (action_name (action verdict))
                       (inject_Z (v_score verdict)) (v_hits verdict)
                       (default "" (cf_zoneName cf)) (default "" (cf_colo cf)) in
        CaseIngestor.Ok
          (respond platform (action verdict),
           mkWorld (<[name := fst result]> (objects w)) (sent w ++ [event]))
    end.

(** Requests served one after the other; the first exception ends the run. *)
Fixpoint serve (w : World) (requests : list (Platform * Request))
  : CaseIngestor.Result (list Response * World) :=
  match requests with
  | [] => CaseIngestor.Ok ([], w)
  | (platform, request) :: rest =>
      match fetch platform w request with
      | CaseIngestor.Rejected reason => CaseIngestor.Rejected reason
      | CaseIngestor.Ok (response, w') =>
          match serve w' rest with
          | CaseIngestor.Rejected reason => CaseIngestor.Rejected reason
          | CaseIngestor.Ok (responses, w'') =>
              CaseIngestor.Ok (response :: responses, w'')
          end
      end
  end.

(** ** [tarpit]

    The loop [while (Date.now() < end) { write('.'); sleep(1100) }] over the
    successive readings of the clock: the number of chunks written when the
    stream is closed, and [None] when the readings given end before the loop
    does. *)
Fixpoint tarpit_loop (end_ : Z) (checks : list Z) : option nat :=
  match checks with
  | [] => None
  | now :: checks' =>
      if now <? end_ then S <$> tarpit_loop end_ checks' else Some O
  end.

(** [tarpit(ms)]: the first reading fixes [end = Date.now() + ms]. *)
Definition tarpit (ms : Z) (readings : list Z) : option nat :=
  match readings with
  | [] => None
  | now :: checks => tarpit_loop (now + ms) checks
  end.

End EdgeWorker.

(* ================================================================== *)
(** * Notions used to state the further properties                      *)
(* ================================================================== *)

Module Notions.

(** The verdicts by increasing severity. *)
Definition severity (a : WaspEdge.Action) : Z :=
  match a with
  | WaspEdge.allow => 0
  | WaspEdge.challenge => 1
  | WaspEdge.tarpit => 2
  | WaspEdge.block => 3
  end.

(** A request that no heuristic of the limiter penalises whatever the hits:
    a GET or HEAD outside [/api/] with a user agent that is neither empty nor
    the placeholder. *)
Definition plain_read (r : WaspEdge.LimitRequest) : Prop :=
  ~ WaspEdge.under_api (WaspEdge.path r)
  /\ (WaspEdge.method r = "GET" \/ WaspEdge.method r = "HEAD")
  /\ WaspEdge.ua r <> "" /\ WaspEdge.ua r <> "-".

(** A GET or HEAD under [/api/] with such a user agent. *)
Definition api_read (r : WaspEdge.LimitRequest) : Prop :=
  WaspEdge.under_api (WaspEdge.path r)
  /\ (WaspEdge.method r = "GET" \/ WaspEdge.method r = "HEAD")
  /\ WaspEdge.ua r <> "" /\ WaspEdge.ua r <> "-".

(** The evaluations of the storage key [key] in a history. *)
Definition evaluations_of (key : string) (h : list WaspEdge.Step) : Z :=
  Z.of_nat (length (List.filter
    (fun s => match s with
              | WaspEdge.Evaluate _ r => String.eqb (WaspEdge.storage_key r) key
              | WaspEdge.Evict _ => false
              end) h)).

(** The bucket that an evaluation at [now] stores over the bucket [b]. *)
Definition next_bucket (now : Z) (b : WaspEdge.Bucket) (r : WaspEdge.LimitRequest)
  : WaspEdge.Bucket :=
  WaspEdge.decay (WaspEdge.tick now b) r
    (WaspEdge.heuristics (WaspEdge.tick now b) r).

(** Evaluations of one request at the successive times [ts]. *)
Definition evaluate_at (r : WaspEdge.LimitRequest) (ts : list Z)
  : list WaspEdge.Step :=
  (fun t => WaspEdge.Evaluate t r) <$> ts.

(** Each time of [ts] is more than 1000 ms after the previous one, the first
    one being more than 1000 ms after [t0]. *)
Fixpoint spaced (t0 : Z) (ts : list Z) : Prop :=
  match ts with
  | [] => True
  | t :: ts' => 1000 < t - t0 /\ spaced t ts'
  end.

(** The event row [row] records the message [e]: it has its fields, and its
    [case_id] is the id of a case of [cs] whose key is the key of [e]. *)
Definition records (cs : list CaseIngestor.CaseRow) (row : CaseIngestor.EventRow)
    (e : CaseIngestor.EventMsg) : Prop :=
  CaseIngestor.e_ts row = CaseIngestor.ts e
  /\ CaseIngestor.e_path row = CaseIngestor.path e
  /\ CaseIngestor.e_method row = CaseIngestor.method e
  /\ CaseIngestor.e_ua row = CaseIngestor.ua e
  /\ CaseIngestor.e_action row = CaseIngestor.action e
  /\ CaseIngestor.e_score row = CaseIngestor.score e
  /\ CaseIngestor.e_hits row = CaseIngestor.hits e
  /\ CaseIngestor.e_colo row = CaseIngestor.colo e
  /\ exists c, In c cs /\ CaseIngestor.c_id c = CaseIngestor.e_case_id row
                /\ CaseIngestor.c_key c = CaseIngestor.case_key e.

(** The requests that the Worker answers without asking the limiter: the
    health paths, and the POST of a challenge result. *)
Definition exempt (request : EdgeWorker.Request) : Prop :=
  String.prefix "/healthz" (EdgeWorker.req_pathname request) = true
  \/ String.prefix "/status" (EdgeWorker.req_pathname request) = true
  \/ (EdgeWorker.req_pathname request = "/__wasp/turnstile"
      /\ EdgeWorker.req_method request = "POST").

(** The request that the Worker posts to the Durable Object. *)
Definition limit_request (request : EdgeWorker.Request) (trusted : bool)
  : WaspEdge.LimitRequest :=
  WaspEdge.mkLimitRequest (EdgeWorker.client_ip request)
    (EdgeWorker.client_asn request)
    (default "" (EdgeWorker.req_user_agent request))
    (EdgeWorker.req_pathname request) (EdgeWorker.req_method request) trusted.

(** Clock readings of the tarpit loop: the first test is not before [t0],
    and each later test is at least the 1100 ms of the timer after the
    previous one. *)
Fixpoint paced (t0 : Z) (checks : list Z) : Prop :=
  match checks with
  | [] => True
  | c :: checks' =>
      t0 <= c /\ paced (c + 1100) checks'
  end.

(** The sum of the scores of a window, as a rational. *)
Definition score_total (rows : list CaseIngestor.Row) : Q :=
  foldl (fun s r => (s + CaseIngestor.r_score r)%Q) 0%Q rows.

(** The characters of a string. *)
Definition has_char (c : ascii) (s : string) : Prop :=
  In c (list_ascii_of_string s).

(** The columns of a case that identify it and date its creation. *)
Definition same_identity (c c' : CaseIngestor.CaseRow) : Prop :=
  CaseIngestor.c_id c' = CaseIngestor.c_id c
  /\ CaseIngestor.c_key c' = CaseIngestor.c_key c
  /\ CaseIngestor.c_zone c' = CaseIngestor.c_zone c
  /\ CaseIngestor.c_ip c' = CaseIngestor.c_ip c
  /\ CaseIngestor.c_asn c' = CaseIngestor.c_asn c
  /\ CaseIngestor.c_country c' = CaseIngestor.c_country c
  /\ CaseIngestor.c_first_seen c' = CaseIngestor.c_first_seen c.

End Notions.

(* ================================================================== *)
(** * Properties of the RateLimiter                                     *)
(* ================================================================== *)

Lemma truthy_true s : truthy s = true <-> s <> "".
Proof.
  unfold truthy. rewrite negb_true_iff. split.
  - intros H ->. by rewrite String.eqb_refl in H.
  - intros H. by apply String.eqb_neq.
Qed.

Lemma truthy_false s : truthy s = false <-> s = "".
Proof.
  unfold truthy. rewrite negb_false_iff. apply String.eqb_eq.
Qed.

Lemma prefix_append (p rest : string) : String.prefix p (p +:+ rest) = true.
Proof.
  induction p as [|c p IH]; simpl.
  - by destruct rest.
  - destruct (Ascii.ascii_dec c c); [done | congruence].
Qed.

Lemma prefix_split (p s : string) :
  String.prefix p s = true -> exists rest, s = p +:+ rest.
Proof.
  revert s. induction p as [|c p IH]; intros s H.
  - by exists s.
  - destruct s as [|d s]; simpl in H; [done |].
    destruct (Ascii.ascii_dec c d) as [-> | ]; [| done].
    destruct (IH _ H) as [rest ->]. by exists rest.
Qed.

Section RateLimiterFacts.
Import WaspEdge.

(** [startsWith('/api/')] holds exactly for the paths that extend [/api/]. *)
Lemma under_api_iff p : under_api p <-> exists rest, p = "/api/" +:+ rest.
Proof.
  split.
  - apply prefix_split.
  - intros [rest ->]. apply prefix_append.
Qed.

Lemma tick_hits now b :
  hits (tick now b) = if 1000 <? now - window b then 1 else hits b + 1.
Proof. unfold tick. by destruct (1000 <? now - window b). Qed.

Lemma tick_window now b :
  window (tick now b) = if 1000 <? now - window b then now else window b.
Proof. unfold tick. by destruct (1000 <? now - window b). Qed.

Lemma tick_score now b : score (tick now b) = score b.
Proof. unfold tick. by destruct (1000 <? now - window b). Qed.

Lemma tick_lastUA now b : lastUA (tick now b) = lastUA b.
Proof. unfold tick. by destruct (1000 <? now - window b). Qed.

Lemma fetch_storage now storage r :
  fst (fetch now storage r)
  = <[storage_key r :=
        decay (tick now (load now storage (storage_key r))) r
              (heuristics (tick now (load now storage (storage_key r))) r)]>
      storage.
Proof. reflexivity. Qed.

Lemma contribution_true (P : Prop) `{Decision P} w : P -> contribution P w = w.
Proof. intros HP. unfold contribution. by destruct (decide P). Qed.

Lemma contribution_false (P : Prop) `{Decision P} w : ~ P -> contribution P w = 0.
Proof. intros HP. unfold contribution. by destruct (decide P). Qed.

Lemma contribution_bool (P : Prop) `{Decision P} (c : bool) (w d : Z) :
  (c = true <-> P) -> (if c then d + w else d) = d + contribution P w.
Proof.
  intros Hc. destruct c.
  - rewrite contribution_true; [done | by apply Hc].
  - rewrite contribution_false; [lia | intros HP; by apply Hc in HP].
Qed.

(** C1. A trusted request is always allowed; otherwise the verdict is the
    most severe threshold that the hits or the score of the bucket, as stored
    by this evaluation, exceed: block above 120 hits or score 12, tarpit above
    70 or 8, challenge above 30 or 5, and allow below. *)
Theorem fetch_verdict_thresholds now (storage : gmap string Bucket) r :
  let result := fetch now storage r in
  exists b,
    fst result !! storage_key r = Some b
    /\ b = decay (tick now (load now storage (storage_key r))) r
                 (heuristics (tick now (load now storage (storage_key r))) r)
    /\ v_hits (snd result) = hits b
    /\ v_score (snd result) = score b
    /\ (trustedCookie r = true -> action (snd result) = allow)
    /\ (trustedCookie r = false ->
        action (snd result) =
          if bool_decide (120 < hits b \/ 12 < score b) then block
          else if bool_decide (70 < hits b \/ 8 < score b) then tarpit
          else if bool_decide (30 < hits b \/ 5 < score b) then challenge
          else allow).
Proof.
  intros result. eexists. split; [| split; [reflexivity |]].
  - subst result. rewrite fetch_storage. apply lookup_insert_eq.
  - subst result. cbn [fetch snd v_hits v_score action].
    set (b := decay _ _ _). repeat split.
    + intros ->. reflexivity.
    + intros ->. unfold verdict_action. cbn [negb].
      repeat case_bool_decide;
        repeat match goal with
               | |- context [?x <? ?y] => destruct (Z.ltb_spec x y)
               end; cbn [orb]; try reflexivity; exfalso; lia.
Qed.

(** C4. The heuristic delta is the sum of five additive contributions, each
    decided on its own: 2 for an /api/ path above 15 hits, 1 for another path
    above 35 hits, 1 for an empty or "-" user agent, 2 for a method other than
    GET and HEAD above 5 hits, 1 for a user agent that differs from a
    non-empty previous one; so it lies between 0 and 7. *)
Theorem heuristics_additive now (storage : gmap string Bucket) r :
  let b0 := load now storage (storage_key r) in
  let b := tick now b0 in
  heuristics b r
  = contribution (under_api (path r) /\ 15 < hits b) 2
    + contribution (~ under_api (path r) /\ 35 < hits b) 1
    + contribution (ua r = "" \/ ua r = "-") 1
    + contribution ((method r <> "GET" /\ method r <> "HEAD") /\ 5 < hits b) 2
    + contribution (ua r <> lastUA b0 /\ lastUA b0 <> "") 1
  /\ 0 <= heuristics b r <= 7.
Proof.
  intros b0 b.
  assert (Heq : heuristics b r
    = contribution (under_api (path r) /\ 15 < hits b) 2
      + contribution (~ under_api (path r) /\ 35 < hits b) 1
      + contribution (ua r = "" \/ ua r = "-") 1
      + contribution ((method r <> "GET" /\ method r <> "HEAD") /\ 5 < hits b) 2
      + contribution (ua r <> lastUA b0 /\ lastUA b0 <> "") 1).
  { unfold heuristics.
    replace (lastUA b) with (lastUA b0) by (symmetry; apply tick_lastUA).
    cbv zeta.
    rewrite (contribution_bool (ua r <> lastUA b0 /\ lastUA b0 <> "")).
    2:{ rewrite andb_true_iff, truthy_true, negb_true_iff, String.eqb_neq.
        split; intros [? ?]; split; congruence. }
    rewrite (contribution_bool ((method r <> "GET" /\ method r <> "HEAD") /\ 5 < hits b)).
    2:{ rewrite !andb_true_iff, !negb_true_iff, !String.eqb_neq, Z.ltb_lt. tauto. }
    rewrite (contribution_bool (ua r = "" \/ ua r = "-")).
    2:{ rewrite orb_true_iff, negb_true_iff, truthy_false, String.eqb_eq. tauto. }
    rewrite (contribution_bool (~ under_api (path r) /\ 35 < hits b)).
    2:{ rewrite andb_true_iff, negb_true_iff, Z.ltb_lt. unfold under_api.
        rewrite not_true_iff_false. tauto. }
    rewrite (contribution_bool (under_api (path r) /\ 15 < hits b)).
    2:{ rewrite andb_true_iff, Z.ltb_lt. unfold under_api. tauto. }
    lia. }
  split; [exact Heq |].
  rewrite Heq. unfold contribution.
  repeat match goal with |- context [decide ?P] => destruct (decide P) end; lia.
Qed.

(** The two path contributions exclude each other, so the delta never
    exceeds 6, and 6 is reached. *)
Lemma heuristics_le_6 b r : heuristics b r <= 6.
Proof.
  unfold heuristics.
  destruct (String.prefix "/api/" (path r)); cbn [andb negb];
    repeat match goal with |- context [if ?c then _ else _] => destruct c end; lia.
Qed.

Example heuristics_reaches_6 :
  heuristics (mkBucket 16 0 0 "curl") (mkLimitRequest "1.2.3.4" 64500 "-" "/api/x" "POST" false) = 6.
Proof. reflexivity. Qed.

Lemma fetch_score_nonneg now (storage : gmap string Bucket) r :
  map_Forall (fun _ b => 0 <= score b) storage ->
  map_Forall (fun _ b => 0 <= score b) (fst (fetch now storage r)).
Proof.
  intros Hst. rewrite fetch_storage.
  apply map_Forall_insert_2; [| exact Hst].
  cbn [decay score]. lia.
Qed.

Lemma step_score_nonneg (storage : gmap string Bucket) s :
  map_Forall (fun _ b => 0 <= score b) storage ->
  map_Forall (fun _ b => 0 <= score b) (step storage s).
Proof.
  destruct s as [now r | key]; cbn [step].
  - apply fetch_score_nonneg.
  - apply map_Forall_delete.
Qed.

Lemma foldl_step_score_nonneg h (storage : gmap string Bucket) :
  map_Forall (fun _ b => 0 <= score b) storage ->
  map_Forall (fun _ b => 0 <= score b) (foldl step storage h).
Proof.
  revert storage. induction h as [|s h IH]; intros storage Hst; cbn [foldl].
  - exact Hst.
  - apply IH, step_score_nonneg, Hst.
Qed.

(** C3. Every evaluation stores the score [max 0 (score + delta - 1)], and
    in every storage reached from the empty one by evaluations and evictions
    no bucket has a negative score. *)
Theorem score_decay_never_negative :
  (forall now (storage : gmap string Bucket) r,
      let b0 := load now storage (storage_key r) in
      let delta := heuristics (tick now b0) r in
      exists b,
        fst (fetch now storage r) !! storage_key r = Some b
        /\ score b = Z.max 0 (score b0 + delta - 1)
        /\ v_score (snd (fetch now storage r)) = score b)
  /\ (forall h, map_Forall (fun _ b => 0 <= score b) (run h)).
Proof.
  split.
  - intros now storage r b0 delta. eexists. split.
    + rewrite fetch_storage. apply lookup_insert_eq.
    + cbn [decay score fetch snd v_score]. by rewrite tick_score.
  - intros h. unfold run. apply foldl_step_score_nonneg, map_Forall_empty.
Qed.

Lemma clock_ok_app t0 h1 h2 :
  clock_ok t0 (h1 ++ h2) = clock_ok t0 h1 && clock_ok (last_clock t0 h1) h2.
Proof.
  revert t0. induction h1 as [|[now r | key] h1 IH]; intros t0; cbn.
  - reflexivity.
  - by rewrite IH, andb_assoc.
  - apply IH.
Qed.

Lemma last_clock_app t0 h1 h2 :
  last_clock t0 (h1 ++ h2) = last_clock (last_clock t0 h1) h2.
Proof.
  revert t0. induction h1 as [|[now r | key] h1 IH]; intros t0; cbn; auto.
Qed.

Lemma tick_window_le now b : window b <= now -> window (tick now b) <= now.
Proof.
  intros Hb. rewrite tick_window. destruct (1000 <? now - window b); lia.
Qed.

(** With a clock that never goes backwards, no stored window starts after the
    last clock reading. *)
Lemma foldl_step_window h t0 (storage : gmap string Bucket) :
  clock_ok t0 h = true ->
  map_Forall (fun _ b => window b <= t0) storage ->
  map_Forall (fun _ b => window b <= last_clock t0 h) (foldl step storage h).
Proof.
  revert t0 storage. induction h as [|[now r | key] h IH]; intros t0 storage Hc Hst.
  - exact Hst.
  - cbn in Hc. apply andb_true_iff in Hc as [Ht%Z.leb_le Hc].
    cbn [foldl last_clock step]. apply IH; [exact Hc |].
    rewrite fetch_storage. apply map_Forall_insert_2.
    + cbn [decay window]. apply tick_window_le.
      unfold load. destruct (storage !! storage_key r) as [b|] eqn:E; cbn.
      * specialize (Hst _ _ E). cbn in Hst. lia.
      * lia.
    + intros k b Hk. specialize (Hst _ _ Hk). cbn in Hst. cbn. lia.
  - cbn [foldl last_clock step]. apply IH; [exact Hc |].
    by apply map_Forall_delete.
Qed.

(** C2. Two consecutive evaluations of one key, at [t] and then at [now],
    after any history with a clock that never goes backwards: the second one
    (whose stored and reported hits are those of [b2], the first one's being
    those of [b1]) restarts the window (hits 0, then incremented to 1, window at [now]) when
    [now] is more than 1000 ms past the stored window start, and otherwise
    adds exactly 1 to the hits of the first; in particular it restarts the
    window when the two evaluations are more than 1000 ms apart. *)
Theorem hits_tumbling_window t0 h t now r1 r2 :
  clock_ok t0 (h ++ [Evaluate t r1; Evaluate now r2]) = true ->
  ip r1 = ip r2 ->
  let storage1 := run (h ++ [Evaluate t r1]) in
  let result := fetch now storage1 r2 in
  exists b1 b2,
    storage1 !! storage_key r2 = Some b1
    /\ v_hits (snd (fetch t (run h) r1)) = hits b1
    /\ fst result !! storage_key r2 = Some b2
    /\ v_hits (snd result) = hits b2
    /\ (1000 < now - window b1 -> hits b2 = 0 + 1 /\ window b2 = now)
    /\ (now - window b1 <= 1000 -> hits b2 = hits b1 + 1 /\ window b2 = window b1)
    /\ (1000 < now - t -> hits b2 = 0 + 1 /\ window b2 = now).
Proof.
  intros Hc Hip storage1 result.
  assert (Hkey : storage_key r1 = storage_key r2).
  { unfold storage_key. by rewrite Hip. }
  replace (h ++ [Evaluate t r1; Evaluate now r2])
    with ((h ++ [Evaluate t r1]) ++ [Evaluate now r2]) in Hc
    by (by rewrite <- app_assoc).
  rewrite clock_ok_app in Hc. apply andb_true_iff in Hc as [Hc1 Hc2].
  assert (Hlast : last_clock t0 (h ++ [Evaluate t r1]) = t).
  { by rewrite last_clock_app. }
  rewrite Hlast in Hc2. cbn in Hc2. rewrite andb_true_r in Hc2.
  apply Z.leb_le in Hc2.
  pose proof (foldl_step_window _ t0 ∅ Hc1 (map_Forall_empty _)) as Hwin.
  rewrite Hlast in Hwin. fold (run (h ++ [Evaluate t r1])) in Hwin.
  fold storage1 in Hwin.
  assert (Hb1 : exists b1, storage1 !! storage_key r2 = Some b1
                           /\ v_hits (snd (fetch t (run h) r1)) = hits b1).
  { subst storage1. unfold run. rewrite foldl_app. cbn [foldl step].
    rewrite fetch_storage, Hkey. eexists.
    split; [apply lookup_insert_eq |].
    cbn [fetch snd v_hits]. by rewrite Hkey. }
  destruct Hb1 as (b1 & Hb1 & Hv1). exists b1. eexists.
  split; [exact Hb1 |]. split; [exact Hv1 |]. split.
  { subst result. rewrite fetch_storage. apply lookup_insert_eq. }
  pose proof (Hwin _ _ Hb1) as Hw. cbn in Hw.
  assert (Hload : load now storage1 (storage_key r2) = b1).
  { unfold load. by rewrite Hb1. }
  subst result. cbn [fetch snd v_hits]. rewrite Hload.
  cbn [decay hits window]. rewrite tick_hits, tick_window.
  destruct (Z.ltb_spec 1000 (now - window b1)); repeat split; intros; lia.
Qed.

(** The first evaluation of a key (no stored bucket) reports one hit and
    opens the window at the current clock reading. *)
Lemma fetch_first_evaluation now (storage : gmap string Bucket) r :
  storage !! storage_key r = None ->
  exists b, fst (fetch now storage r) !! storage_key r = Some b
            /\ hits b = 1 /\ window b = now
            /\ v_hits (snd (fetch now storage r)) = 1.
Proof.
  intros Hnone. eexists. split.
  - rewrite fetch_storage. apply lookup_insert_eq.
  - assert (Hload : load now storage (storage_key r) = mkBucket 0 now 0 "").
    { unfold load. by rewrite Hnone. }
    cbn [fetch snd v_hits]. rewrite Hload.
    cbn [decay hits window]. rewrite tick_hits, tick_window. cbn [hits window].
    rewrite Z.sub_diag. by cbn.
Qed.

(** Three evaluations of one key at 0, 600 and 1200 ms: the clock is
    monotone, and the theorem applies to the last two. *)
Lemma hits_tumbling_window_witness :
  let r := mkLimitRequest "203.0.113.9" 64500 "curl/8" "/" "GET" false in
  clock_ok 0 ([Evaluate 0 r] ++ [Evaluate 600 r; Evaluate 1200 r]) = true
  /\ ip r = ip r
  /\ exists b1 b2,
      run ([Evaluate 0 r] ++ [Evaluate 600 r]) !! storage_key r = Some b1
      /\ v_hits (snd (fetch 600 (run [Evaluate 0 r]) r)) = hits b1
      /\ fst (fetch 1200 (run ([Evaluate 0 r] ++ [Evaluate 600 r])) r) !! storage_key r
         = Some b2
      /\ v_hits (snd (fetch 1200 (run ([Evaluate 0 r] ++ [Evaluate 600 r])) r)) = hits b2
      /\ (1000 < 1200 - window b1 -> hits b2 = 0 + 1 /\ window b2 = 1200)
      /\ (1200 - window b1 <= 1000 -> hits b2 = hits b1 + 1 /\ window b2 = window b1)
      /\ (1000 < 1200 - 600 -> hits b2 = 0 + 1 /\ window b2 = 1200).
Proof.
  intros r. split; [reflexivity |]. split; [reflexivity |].
  apply (hits_tumbling_window 0 [Evaluate 0 r] 600 1200 r r); reflexivity.
Defined.

(** On that run the second evaluation counts a second hit in the window
    opened at 0, and the third one, 1200 ms after the window start but only
    600 ms after the second evaluation, restarts the window. *)
Example tumbling_window_run :
  let r := mkLimitRequest "203.0.113.9" 64500 "curl/8" "/" "GET" false in
  run [Evaluate 0 r; Evaluate 600 r] !! storage_key r = Some (mkBucket 2 0 0 "curl/8")
  /\ run [Evaluate 0 r; Evaluate 600 r; Evaluate 1200 r] !! storage_key r
     = Some (mkBucket 1 1200 0 "curl/8").
Proof. split; vm_compute; reflexivity. Qed.

End RateLimiterFacts.

(* ================================================================== *)
(** * Properties of the case ingestor                                   *)
(* ================================================================== *)

Section IngestorFacts.
Import CaseIngestor.
Context `{host : Host}.

Lemma Qltb_lt x y : Qltb x y = true <-> (x < y)%Q.
Proof.
  unfold Qltb. rewrite negb_true_iff, <- not_true_iff_false, Qle_bool_iff.
  split; [apply Qnot_le_lt | apply Qlt_not_le].
Qed.

Lemma Qltb_pos_neq a : Qltb 0 a = true -> Qeq_bool a 0 = false.
Proof.
  intros Hlt%Qltb_lt. apply not_true_iff_false. intros Heq%Qeq_bool_iff.
  rewrite Heq in Hlt. by apply Qlt_irrefl in Hlt.
Qed.

Lemma num_div_fin a b : Qeq_bool b 0 = false -> (Fin a / Fin b)%num = Fin (a / b).
Proof. intros Hb. cbn. by rewrite Hb. Qed.

Lemma num_gtb_fin_pos x : (x >? Fin 0)%num = true ->
  x = PosInf \/ exists a, x = Fin a /\ Qltb 0 a = true.
Proof. destruct x; cbn; intros Hx; try discriminate; eauto. Qed.

Lemma attack_rps_fin capacity rows :
  attack_rps (metricsOf capacity rows) = Fin (rps_of (length rows)).
Proof. reflexivity. Qed.

Lemma df_fin capacity rows : df (metricsOf capacity rows) = Fin (df_of rows).
Proof. reflexivity. Qed.

Lemma af_unfold capacity rows :
  af (metricsOf capacity rows)
  = if (capacity >? Fin 0)%num
    then (attack_rps (metricsOf capacity rows) / capacity)%num else Fin 0.
Proof. reflexivity. Qed.

Lemma bof_unfold capacity rows :
  bof (metricsOf capacity rows)
  = if (af (metricsOf capacity rows) >? Fin 0)%num
    then (df (metricsOf capacity rows) / af (metricsOf capacity rows))%num
    else Fin 1.
Proof. reflexivity. Qed.

Lemma af_finite capacity rows : finite (af (metricsOf capacity rows)).
Proof.
  rewrite af_unfold, attack_rps_fin.
  destruct (capacity >? Fin 0)%num eqn:Hc; [| by eexists].
  apply num_gtb_fin_pos in Hc as [-> | (c & -> & Hc)].
  - by eexists.
  - rewrite num_div_fin by (by apply Qltb_pos_neq). by eexists.
Qed.

Lemma bof_finite capacity rows : finite (bof (metricsOf capacity rows)).
Proof.
  rewrite bof_unfold, df_fin.
  destruct (af_finite capacity rows) as [a Ha]. rewrite Ha.
  destruct (Fin a >? Fin 0)%num eqn:Hpos; [| by eexists].
  rewrite num_div_fin by (by apply Qltb_pos_neq). by eexists.
Qed.

(** C6. AF is [attack_rps / capacity] when the capacity is positive and 0
    otherwise, BoF is [DF / AF] when AF is positive and 1 otherwise; for every
    capacity and every window both are finite numbers, which a division by
    zero never is; and on the empty window AF is 0 and BoF is 1. *)
Theorem division_guards (capacity : num) (rows : list Row) :
  let m := metricsOf capacity rows in
  af m = (if (capacity >? Fin 0)%num then (attack_rps m / capacity)%num else Fin 0)
  /\ bof m = (if (af m >? Fin 0)%num then (df m / af m)%num else Fin 1)
  /\ finite (af m) /\ finite (bof m)
  /\ (af (metricsOf capacity []) == Fin 0)%num
  /\ bof (metricsOf capacity []) = Fin 1.
Proof.
  intros m. split; [apply af_unfold |]. split; [apply bof_unfold |].
  split; [apply af_finite |]. split; [apply bof_finite |].
  assert (Haf : (af (metricsOf capacity []) == Fin 0)%num).
  { rewrite af_unfold, attack_rps_fin.
    destruct (capacity >? Fin 0)%num eqn:Hc; [| by cbn].
    apply num_gtb_fin_pos in Hc as [-> | (c & -> & Hc)]; [by cbn |].
    rewrite num_div_fin by (by apply Qltb_pos_neq). cbn.
    unfold rps_of. cbn. unfold Qdiv. by rewrite !Qmult_0_l. }
  split; [exact Haf |].
  rewrite bof_unfold. destruct (af (metricsOf capacity [])) as [a | | |]; try done.
  cbn in Haf. cbn. unfold Qltb.
  replace (Qle_bool a 0) with true; [done |].
  symmetry. apply Qle_bool_iff. rewrite Haf. apply Qle_refl.
Qed.

(** Without the guards the same divisions leave the finite numbers: on the
    empty window with capacity 0 AF would be 0/0, and BoF would divide by the
    AF of any window that is 0. *)
Example unguarded_divisions :
  (of_nat 0 / Fin 60 / Fin 0)%num = NaN /\ (Fin 0.5 / Fin 0)%num = PosInf.
Proof. split; reflexivity. Qed.

Lemma Math_round_comp a b : (a == b)%Q -> Math_round (Fin a) = Math_round (Fin b).
Proof.
  intros Hab. cbn [Math_round]. f_equal. apply Qfloor_comp. by rewrite Hab.
Qed.

Lemma ef_unfold capacity rows :
  ef (metricsOf capacity rows)
  = Math_round (of_nat (length rows) + avgScore rows * Fin 3)%num.
Proof. unfold metricsOf, avgScore. by destruct rows. Qed.

Lemma af_default rows :
  af (metricsOf capacityRPS rows) = Fin (rps_of (length rows) / 500).
Proof. reflexivity. Qed.

Lemma recomputeMetrics_rows env db caseId rows :
  select_window env db caseId (now_recompute env - windowMs) = Ok rows ->
  recomputeMetrics env db caseId = Ok (metricsOf capacityRPS rows).
Proof. intros Hsel. unfold recomputeMetrics. by rewrite Hsel. Qed.

Lemma rps_of_pos n : (0 < n)%nat -> (0 < rps_of n)%Q.
Proof.
  intros Hn. unfold rps_of. apply Qlt_shift_div_l; [done |].
  rewrite Qmult_0_l. change 0%Q with (inject_Z 0). rewrite <- Zlt_Qlt. lia.
Qed.

(** C7. A window of 50 rows of mean score 10, 30 of them blocked and none
    challenged or tarpitted: DF = 30/60 = 0.5, attack_rps = 50/60,
    AF = 1/600, BoF = 300, EF = 80, and the trigger fires, on EF >= 50. *)
Theorem metrics_of_fifty_events env db caseId rows :
  select_window env db caseId (now_recompute env - windowMs) = Ok rows ->
  length rows = 50%nat ->
  (avgScore rows == Fin 10)%num ->
  count_action "block" rows = 30%nat ->
  count_action "challenge" rows = 0%nat ->
  count_action "tarpit" rows = 0%nat ->
  exists m,
    recomputeMetrics env db caseId = Ok m
    /\ (df m == Fin (30 * 1.0 / 60))%num /\ (df m == Fin 0.5)%num
    /\ (attack_rps m == Fin (50 / 60))%num
    /\ (af m == Fin (50 / 60 / 500))%num /\ (af m == Fin (1 / 600))%num
    /\ (bof m == Fin (0.5 / (1 / 600)))%num /\ (bof m == Fin 300)%num
    /\ ef m = Fin 80
    /\ (ef m >=? Fin 50)%num = true
    /\ trigger m = true.
Proof.
  intros Hsel Hn Havg Hb Hc Ht.
  exists (metricsOf capacityRPS rows).
  split; [by apply recomputeMetrics_rows |].
  assert (Hdf : df (metricsOf capacityRPS rows) = Fin ((0 * 0.6 + 0 * 0.9 + 30 * 1.0) / 60)).
  { rewrite df_fin. unfold df_of. by rewrite Hb, Hc, Ht. }
  assert (Haf : af (metricsOf capacityRPS rows) = Fin (50 / 60 / 500)).
  { rewrite af_default. by rewrite Hn. }
  assert (Hbof : bof (metricsOf capacityRPS rows)
                 = Fin ((0 * 0.6 + 0 * 0.9 + 30 * 1.0) / 60 / (50 / 60 / 500))).
  { rewrite bof_unfold, Hdf, Haf. reflexivity. }
  assert (Hef : ef (metricsOf capacityRPS rows) = Fin 80).
  { rewrite ef_unfold, Hn.
    destruct (avgScore rows) as [q | | |]; try done.
    cbn in Havg.
    change (of_nat 50 + Fin q * Fin 3)%num
      with (Fin (inject_Z (Z.of_nat 50) + q * 3)).
    rewrite (Math_round_comp _ (inject_Z 50 + 10 * 3)%Q); [reflexivity |].
    by rewrite Havg. }
  rewrite Hdf, Haf, Hbof, Hef, attack_rps_fin, Hn.
  unfold trigger. rewrite Hef.
  repeat split; reflexivity.
Qed.

Lemma count_action_other a rows :
  Forall (fun r => r_action r = "allow") rows -> a <> "allow" ->
  count_action a rows = 0%nat.
Proof.
  intros Hall Ha. unfold count_action.
  induction Hall as [| r rows Hr _ IH]; [done |].
  cbn [List.filter]. rewrite Hr.
  destruct (String.eqb_spec "allow" a) as [<- | _]; [done | exact IH].
Qed.

Lemma num_ltb_fin_comp a b c : (a == b)%Q -> (Fin a <? Fin c)%num = (Fin b <? Fin c)%num.
Proof. intros Hab. cbn. unfold Qltb. by rewrite Hab. Qed.

(** ** The cases table *)

Lemma d1_up_run {A} env (r : Result A) : d1_up env = true -> d1 env r = r.
Proof. intros Hup. unfold d1. by rewrite Hup. Qed.

Lemma find_key_absent key (l : list CaseRow) :
  Forall (fun c => c_key c <> key) l ->
  List.find (fun c => String.eqb (c_key c) key) l = None.
Proof.
  induction 1 as [| c l Hc _ IH]; [done |]. cbn.
  by destruct (String.eqb_spec (c_key c) key).
Qed.

Lemma find_key_split key c (l1 l2 : list CaseRow) :
  Forall (fun c' => c_key c' <> key) l1 -> c_key c = key ->
  List.find (fun c' => String.eqb (c_key c') key) (l1 ++ c :: l2) = Some c.
Proof.
  intros Hl1 Hc. induction Hl1 as [| c' l1 Hc' _ IH]; cbn.
  - by rewrite Hc, String.eqb_refl.
  - by destruct (String.eqb_spec (c_key c') key).
Qed.

Lemma rows_of_key_absent key (l : list CaseRow) :
  Forall (fun c => c_key c <> key) l -> rows_of_key key l = [].
Proof.
  induction 1 as [| c l Hc _ IH]; [done |]. unfold rows_of_key in *. cbn.
  by destruct (String.eqb_spec (c_key c) key).
Qed.

Lemma existsb_id_absent id (l : list CaseRow) :
  Forall (fun c => c_id c <> id) l ->
  existsb (fun c => String.eqb (c_id c) id) l = false.
Proof.
  induction 1 as [| c l Hc _ IH]; [done |]. cbn.
  by destruct (String.eqb_spec (c_id c) id).
Qed.

Lemma existsb_key_absent key (l : list CaseRow) :
  Forall (fun c => c_key c <> key) l ->
  existsb (fun c => String.eqb (c_key c) key) l = false.
Proof.
  induction 1 as [| c l Hc _ IH]; [done |]. cbn.
  by destruct (String.eqb_spec (c_key c) key).
Qed.

Lemma map_id_absent id (f : CaseRow -> CaseRow) (l : list CaseRow) :
  Forall (fun c => c_id c <> id) l ->
  map (fun c => if String.eqb (c_id c) id then f c else c) l = l.
Proof.
  induction 1 as [| c l Hc _ IH]; [done |]. cbn. rewrite IH.
  by destruct (String.eqb_spec (c_id c) id).
Qed.

Lemma map_id_split id (f : CaseRow -> CaseRow) c (l1 l2 : list CaseRow) :
  Forall (fun c' => c_id c' <> id) l1 -> Forall (fun c' => c_id c' <> id) l2 ->
  c_id c = id ->
  map (fun c' => if String.eqb (c_id c') id then f c' else c') (l1 ++ c :: l2)
  = l1 ++ f c :: l2.
Proof.
  intros H1 H2 Hc. rewrite map_app. cbn.
  rewrite !map_id_absent by done. by rewrite Hc, String.eqb_refl.
Qed.

(** In a table with unique values of the column [f], the rows around a row
    differ from it on [f]. *)
Lemma NoDup_fmap_split {B} (f : CaseRow -> B) c (l1 l2 : list CaseRow) :
  NoDup (f <$> (l1 ++ c :: l2)) ->
  Forall (fun c' => f c' <> f c) l1 /\ Forall (fun c' => f c' <> f c) l2.
Proof.
  rewrite fmap_app, fmap_cons. intros Hnd.
  apply NoDup_app in Hnd as (_ & Hdisj & Hnd2).
  apply NoDup_cons in Hnd2 as [Hnotin _].
  split; apply Forall_forall; intros c' Hin Heq.
  - apply (Hdisj (f c')).
    + apply list_elem_of_fmap. eauto.
    + rewrite Heq. left.
  - apply Hnotin. rewrite <- Heq. apply list_elem_of_fmap. eauto.
Qed.

Lemma set_last_seen_bumped t c : bumped t c (set_last_seen t c).
Proof. unfold bumped. cbn. tauto. Qed.

Lemma rows_of_key_split key c (l1 l2 : list CaseRow) :
  Forall (fun c' => c_key c' <> key) l1 -> Forall (fun c' => c_key c' <> key) l2 ->
  c_key c = key ->
  rows_of_key key (l1 ++ c :: l2) = [c].
Proof.
  intros H1 H2 Hc. unfold rows_of_key. rewrite List.filter_app. cbn [List.filter].
  fold (rows_of_key key l1). fold (rows_of_key key l2).
  rewrite !rows_of_key_absent by done. by rewrite Hc, String.eqb_refl.
Qed.

Lemma upsertCase_existing env db e l1 c l2 :
  d1_up env = true ->
  cases db = l1 ++ c :: l2 ->
  Forall (fun c' => c_key c' <> case_key e) l1 ->
  Forall (fun c' => c_id c' <> c_id c) l1 ->
  Forall (fun c' => c_id c' <> c_id c) l2 ->
  c_key c = case_key e -> c_id c <> "" ->
  upsertCase env db e
  = Ok (c_id c, mkDB (l1 ++ set_last_seen (ts e) c :: l2) (events db)).
Proof.
  intros Hup Hl Hk1 Hid1 Hid2 Hkey Hne.
  unfold upsertCase, select_case_id, update_last_seen.
  rewrite !d1_up_run by done. rewrite Hl.
  rewrite find_key_split by done.
  cbn [fmap option_fmap option_map mbind Result_bind].
  apply truthy_true in Hne. rewrite Hne, d1_up_run by done.
  cbn [cases events mbind Result_bind mret Result_ret].
  by rewrite map_id_split.
Qed.

Lemma upsertCase_new env db e :
  d1_up env = true ->
  Forall (fun c => c_key c <> case_key e) (cases db) ->
  Forall (fun c => c_id c <> randomUUID env) (cases db) ->
  upsertCase env db e
  = Ok (randomUUID env,
        mkDB (cases db ++ [new_case (randomUUID env) (case_key e) e]) (events db)).
Proof.
  intros Hup Hk Hi.
  unfold upsertCase, select_case_id, insert_case.
  rewrite !d1_up_run by done.
  rewrite find_key_absent by done.
  cbn [fmap option_fmap option_map mbind Result_bind c_id c_key new_case].
  by rewrite existsb_id_absent, existsb_key_absent.
Qed.

Lemma fresh_id_Forall id (l : list CaseRow) :
  id ∉ (c_id <$> l) -> Forall (fun c => c_id c <> id) l.
Proof.
  intros Hfresh. apply Forall_forall. intros c Hin Heq. apply Hfresh.
  rewrite <- Heq. apply list_elem_of_fmap. eauto.
Qed.

(** C8. In a table that satisfies the constraints of the schema, with D1
    answering: when a row has the key of the event, [upsertCase] returns its
    id and replaces that row, in place, by one that differs from it in
    [last_seen] only, so that the key still has exactly one row; when no row
    has the key (and the fresh id is unused), it appends one row with status
    OPEN and [first_seen = last_seen = ts]. *)
Theorem upsertCase_no_duplicate env db e :
  d1_up env = true ->
  cases_ok (cases db) ->
  (forall c, c ∈ cases db -> c_key c = case_key e ->
     exists l1 l2 c',
       cases db = l1 ++ c :: l2
       /\ upsertCase env db e = Ok (c_id c, mkDB (l1 ++ c' :: l2) (events db))
       /\ bumped (ts e) c c'
       /\ rows_of_key (case_key e) (l1 ++ c' :: l2) = [c'])
  /\ ((forall c, c ∈ cases db -> c_key c <> case_key e) ->
      randomUUID env ∉ (c_id <$> cases db) ->
      exists c',
        upsertCase env db e
        = Ok (randomUUID env, mkDB (cases db ++ [c']) (events db))
        /\ c_id c' = randomUUID env /\ c_key c' = case_key e
        /\ c_status c' = "OPEN"
        /\ c_first_seen c' = ts e /\ c_last_seen c' = ts e
        /\ rows_of_key (case_key e) (cases db ++ [c']) = [c']).
Proof.
  intros Hup (Hids & Hkeys & Hne). split.
  - intros c Hin Hkey.
    apply list_elem_of_split in Hin as (l1 & l2 & Hl).
    rewrite Hl in Hids, Hkeys, Hne.
    apply NoDup_fmap_split in Hids as [Hid1 Hid2].
    apply NoDup_fmap_split in Hkeys as [Hk1 Hk2].
    rewrite Hkey in Hk1, Hk2.
    apply Forall_app in Hne as [_ [Hne _]%Forall_cons].
    exists l1, l2, (set_last_seen (ts e) c).
    split; [exact Hl |].
    split; [by apply upsertCase_existing |].
    split; [apply set_last_seen_bumped |].
    by apply rows_of_key_split.
  - intros Hnokey Hfresh.
    assert (Hk : Forall (fun c => c_key c <> case_key e) (cases db)).
    { apply Forall_forall. exact Hnokey. }
    exists (new_case (randomUUID env) (case_key e) e).
    split; [apply upsertCase_new; [done | done | by apply fresh_id_Forall] |].
    repeat (split; [reflexivity |]).
    replace (cases db ++ [new_case (randomUUID env) (case_key e) e])
      with (cases db ++ new_case (randomUUID env) (case_key e) e :: []) by done.
    apply rows_of_key_split; [done | constructor | reflexivity].
Qed.

(** ** One message *)

Lemma key_dichotomy key (l : list CaseRow) :
  (exists l1 c l2, l = l1 ++ c :: l2 /\ c_key c = key)
  \/ Forall (fun c => c_key c <> key) l.
Proof.
  induction l as [| c l [(l1 & c' & l2 & -> & Hc') | IH]].
  - by right.
  - left. by exists (c :: l1), c', l2.
  - destruct (decide (c_key c = key)) as [Hc | Hc].
    + left. by exists [], c, l.
    + right. by constructor.
Qed.

(** With D1 answering, a table that satisfies the constraints and an unused
    fresh id, [upsertCase] returns: the table then holds exactly one row of
    the returned id, which has the key of the event, and the events are
    untouched. *)
Lemma upsertCase_total env db e :
  d1_up env = true ->
  cases_ok (cases db) ->
  randomUUID env ∉ (c_id <$> cases db) ->
  exists caseId l1 c l2,
    upsertCase env db e = Ok (caseId, mkDB (l1 ++ c :: l2) (events db))
    /\ c_id c = caseId /\ c_key c = case_key e
    /\ Forall (fun c' => c_id c' <> caseId) l1
    /\ Forall (fun c' => c_id c' <> caseId) l2.
Proof.
  intros Hup (Hids & Hkeys & Hne) Hfresh.
  destruct (key_dichotomy (case_key e) (cases db))
    as [(l1 & c & l2 & Hl & Hkey) | Hnokey].
  - rewrite Hl in Hids, Hkeys, Hne.
    apply NoDup_fmap_split in Hids as [Hid1 Hid2].
    apply NoDup_fmap_split in Hkeys as [Hk1 Hk2].
    rewrite Hkey in Hk1.
    apply Forall_app in Hne as [_ [Hne _]%Forall_cons].
    exists (c_id c), l1, (set_last_seen (ts e) c), l2.
    split; [by apply upsertCase_existing |]. by cbn.
  - exists (randomUUID env), (cases db),
      (new_case (randomUUID env) (case_key e) e), [].
    split; [apply upsertCase_new; [done | done | by apply fresh_id_Forall] |].
    cbn. split; [done |]. split; [done |].
    split; [by apply fresh_id_Forall | constructor].
Qed.

Lemma insert_event_ok env db caseId e l1 c l2 :
  d1_up env = true ->
  cases db = l1 ++ c :: l2 -> c_id c = caseId ->
  exists row,
    insert_event env db caseId e = Ok (mkDB (cases db) (events db ++ [row]))
    /\ e_case_id row = caseId /\ e_ts row = ts e /\ e_action row = action e
    /\ e_score row = score e /\ e_hits row = hits e.
Proof.
  intros Hup Hl Hc. unfold insert_event. rewrite d1_up_run by done.
  replace (existsb _ (cases db)) with true.
  - eexists. split; [reflexivity |]. by cbn.
  - symmetry. apply existsb_exists. exists c. split.
    + rewrite Hl. apply in_or_app. right. by left.
    + rewrite Hc. apply String.eqb_refl.
Qed.

Lemma recomputeMetrics_total env db caseId :
  d1_up env = true ->
  exists rows,
    select_window env db caseId (now_recompute env - windowMs) = Ok rows
    /\ recomputeMetrics env db caseId = Ok (metricsOf capacityRPS rows).
Proof.
  intros Hup. eexists. split.
  - unfold select_window. by rewrite d1_up_run.
  - apply recomputeMetrics_rows. unfold select_window. by rewrite d1_up_run.
Qed.

Lemma update_snapshot_split env l1 c l2 evs caseId t status m abuse s504 :
  d1_up env = true ->
  Forall (fun c' => c_id c' <> caseId) l1 ->
  Forall (fun c' => c_id c' <> caseId) l2 ->
  c_id c = caseId ->
  update_snapshot env (mkDB (l1 ++ c :: l2) evs) caseId t status m abuse s504
  = Ok (mkDB (l1 ++ set_snapshot t status m abuse s504 c :: l2) evs).
Proof.
  intros Hup H1 H2 Hc. unfold update_snapshot. rewrite d1_up_run by done.
  cbn [cases events]. by rewrite map_id_split.
Qed.

Lemma set_snapshot_of t m abuse s504 c :
  snapshot_of t m abuse s504 c (set_snapshot t "OPEN" m abuse s504 c).
Proof. unfold snapshot_of. cbn. tauto. Qed.

(** C10. A case whose window is not empty and holds only rows of action
    'allow': no request was challenged, tarpitted or blocked, so DF = 0, while
    AF = (n/60)/500 is positive; hence BoF = 0 < 1, the trigger fires, and the
    update rewrites the row of the case: its [last_seen], status, nine metric
    columns and two reports become those of the snapshot, every other row
    and the events being left as they were. *)
Theorem allow_only_window_materializes env db e l1 c l2 rows :
  cases db = l1 ++ c :: l2 ->
  NoDup (c_id <$> cases db) ->
  select_window env db (c_id c) (now_recompute env - windowMs) = Ok rows ->
  rows <> [] ->
  Forall (fun r => r_action r = "allow") rows ->
  exists m c',
    let abuse := buildAbuseReport (zone e) m in
    let s504 := buildSection504Draft (now_draft env) m in
    recomputeMetrics env db (c_id c) = Ok m
    /\ count_action "challenge" rows = 0%nat
    /\ count_action "tarpit" rows = 0%nat
    /\ count_action "block" rows = 0%nat
    /\ (df m == Fin 0)%num
    /\ af m = Fin (inject_Z (Z.of_nat (length rows)) / 60 / 500)
    /\ (af m >? Fin 0)%num = true
    /\ (bof m == Fin 0)%num
    /\ (bof m <? Fin 1)%num = true
    /\ trigger m = true
    /\ materialize env db e (c_id c) m
       = update_snapshot env db (c_id c) (now_update env) "OPEN" m abuse s504
    /\ materialize env db e (c_id c) m = Ok (mkDB (l1 ++ c' :: l2) (events db))
    /\ snapshot_of (now_update env) m abuse s504 c c'.
Proof.
  intros Hcases Hnd Hsel Hne Hall.
  assert (Hup : d1_up env = true).
  { unfold select_window, d1 in Hsel. by destruct (d1_up env). }
  exists (metricsOf capacityRPS rows).
  exists (set_snapshot (now_update env) "OPEN" (metricsOf capacityRPS rows)
            (buildAbuseReport (zone e) (metricsOf capacityRPS rows))
            (buildSection504Draft (now_draft env) (metricsOf capacityRPS rows)) c).
  cbv zeta.
  split; [by apply recomputeMetrics_rows |].
  assert (Hc : count_action "challenge" rows = 0%nat) by (by apply count_action_other).
  assert (Ht : count_action "tarpit" rows = 0%nat) by (by apply count_action_other).
  assert (Hb : count_action "block" rows = 0%nat) by (by apply count_action_other).
  assert (Hdf : (df_of rows == 0)%Q).
  { unfold df_of. rewrite Hc, Ht, Hb. reflexivity. }
  assert (Hn : (0 < length rows)%nat) by (destruct rows; [done | cbn; lia]).
  assert (Hpos : (0 < rps_of (length rows) / 500)%Q).
  { apply Qlt_shift_div_l; [done |]. rewrite Qmult_0_l. by apply rps_of_pos. }
  assert (Haf : (af (metricsOf capacityRPS rows) >? Fin 0)%num = true).
  { rewrite af_default. cbn. by apply Qltb_lt. }
  assert (Hbof : bof (metricsOf capacityRPS rows)
                 = Fin (df_of rows / (rps_of (length rows) / 500))).
  { rewrite bof_unfold, Haf, df_fin, af_default.
    apply num_div_fin, Qltb_pos_neq. by apply Qltb_lt. }
  assert (Hbof0 : (df_of rows / (rps_of (length rows) / 500) == 0)%Q).
  { rewrite Hdf. unfold Qdiv. apply Qmult_0_l. }
  assert (Hlt : (bof (metricsOf capacityRPS rows) <? Fin 1)%num = true).
  { rewrite Hbof. by rewrite (num_ltb_fin_comp _ 0). }
  assert (Htrig : trigger (metricsOf capacityRPS rows) = true).
  { unfold trigger. rewrite Hlt. apply orb_true_r. }
  assert (Hmat : materialize env db e (c_id c) (metricsOf capacityRPS rows)
                 = update_snapshot env db (c_id c) (now_update env) "OPEN"
                     (metricsOf capacityRPS rows)
                     (buildAbuseReport (zone e) (metricsOf capacityRPS rows))
                     (buildSection504Draft (now_draft env)
                        (metricsOf capacityRPS rows))).
  { unfold materialize. by rewrite Htrig. }
  split; [exact Hc |]. split; [exact Ht |]. split; [exact Hb |].
  split; [by rewrite df_fin |].
  split; [apply af_default |]. split; [exact Haf |].
  split; [by rewrite Hbof |]. split; [exact Hlt |]. split; [exact Htrig |].
  split; [exact Hmat |].
  split.
  - rewrite Hmat. rewrite Hcases in Hnd.
    apply NoDup_fmap_split in Hnd as [H1 H2].
    destruct db as [cs evs]. cbn [cases events] in *. subst cs.
    by apply update_snapshot_split.
  - apply set_snapshot_of.
Qed.

(** C5. Processing one event, with D1 answering: the case is upserted, the
    event inserted and the metrics recomputed; the trigger holds exactly when
    EF >= 50 or AF >= 1 or BoF < 1; when it holds, the one row of the case is
    replaced, by a single statement, by its snapshot ([last_seen], status
    OPEN, the nine metric columns and the two reports), all other rows and
    the events being left as they were; when it does not hold, the database
    is the one left by the insert of the event. *)
Theorem process_materialization env db e :
  d1_up env = true ->
  cases_ok (cases db) ->
  randomUUID env ∉ (c_id <$> cases db) ->
  exists caseId l1 c l2 row m,
    let db1 := mkDB (l1 ++ c :: l2) (events db) in
    let db2 := mkDB (l1 ++ c :: l2) (events db ++ [row]) in
    let abuse := buildAbuseReport (zone e) m in
    let s504 := buildSection504Draft (now_draft env) m in
    upsertCase env db e = Ok (caseId, db1)
    /\ c_id c = caseId
    /\ insert_event env db1 caseId e = Ok db2
    /\ recomputeMetrics env db2 caseId = Ok m
    /\ (trigger m = true <->
        (ef m >=? Fin 50)%num = true \/ (af m >=? Fin 1)%num = true
        \/ (bof m <? Fin 1)%num = true)
    /\ (trigger m = true ->
        exists c',
          materialize env db2 e caseId m
          = update_snapshot env db2 caseId (now_update env) "OPEN" m abuse s504
          /\ process env db e = Ok (mkDB (l1 ++ c' :: l2) (events db ++ [row]))
          /\ snapshot_of (now_update env) m abuse s504 c c')
    /\ (trigger m = false ->
        materialize env db2 e caseId m = Ok db2
        /\ process env db e = Ok db2).
Proof.
  intros Hup Hok Hfresh.
  destruct (upsertCase_total env db e Hup Hok Hfresh)
    as (caseId & l1 & c & l2 & Hupsert & Hc & _ & H1 & H2).
  destruct (insert_event_ok env (mkDB (l1 ++ c :: l2) (events db)) caseId e
              l1 c l2 Hup eq_refl Hc) as (row & Hins & _).
  cbn [cases events] in Hins.
  destruct (recomputeMetrics_total env
              (mkDB (l1 ++ c :: l2) (events db ++ [row])) caseId Hup)
    as (rows & _ & Hrec).
  exists caseId, l1, c, l2, row, (metricsOf capacityRPS rows).
  cbv zeta.
  split; [exact Hupsert |]. split; [exact Hc |].
  split; [exact Hins |]. split; [exact Hrec |].
  split; [unfold trigger; rewrite !orb_true_iff; tauto |].
  assert (Hproc : process env db e
                  = materialize env (mkDB (l1 ++ c :: l2) (events db ++ [row]))
                      e caseId (metricsOf capacityRPS rows)).
  { unfold process. rewrite Hupsert. cbn [mbind Result_bind].
    rewrite Hins. cbn [mbind Result_bind]. by rewrite Hrec. }
  split.
  - intros Htrig. eexists.
    assert (Hmat : materialize env (mkDB (l1 ++ c :: l2) (events db ++ [row]))
                     e caseId (metricsOf capacityRPS rows)
                   = update_snapshot env (mkDB (l1 ++ c :: l2) (events db ++ [row]))
                       caseId (now_update env) "OPEN" (metricsOf capacityRPS rows)
                       (buildAbuseReport (zone e) (metricsOf capacityRPS rows))
                       (buildSection504Draft (now_draft env) (metricsOf capacityRPS rows))).
    { unfold materialize. by rewrite Htrig. }
    split; [exact Hmat |]. split.
    + rewrite Hproc, Hmat. by apply update_snapshot_split.
    + apply set_snapshot_of.
  - intros Htrig.
    assert (Hmat : materialize env (mkDB (l1 ++ c :: l2) (events db ++ [row]))
                     e caseId (metricsOf capacityRPS rows)
                   = Ok (mkDB (l1 ++ c :: l2) (events db ++ [row]))).
    { unfold materialize. by rewrite Htrig. }
    split; [exact Hmat |]. by rewrite Hproc.
Qed.

(** ** The constraints of the schema are kept *)

Lemma cases_ok_map (f : CaseRow -> CaseRow) (l : list CaseRow) :
  (forall c, c_id (f c) = c_id c /\ c_key (f c) = c_key c) ->
  cases_ok l -> cases_ok (map f l).
Proof.
  intros Hf (Hids & Hkeys & Hne).
  assert (Hi : c_id <$> map f l = c_id <$> l).
  { induction l as [| c l IH]; [done |]. cbn. f_equal; [apply Hf |].
    apply IH; [by apply NoDup_cons in Hids as [_ ?]
              | by apply NoDup_cons in Hkeys as [_ ?]
              | by apply Forall_cons in Hne as [_ ?]]. }
  assert (Hk : c_key <$> map f l = c_key <$> l).
  { clear -Hf. induction l as [| c l IH]; [done |]. cbn. f_equal; [apply Hf | apply IH]. }
  split; [by rewrite Hi |]. split; [by rewrite Hk |].
  clear -Hf Hne. induction Hne as [| c l Hc _ IH]; cbn; constructor; [| done].
  by rewrite (proj1 (Hf c)).
Qed.

Lemma existsb_false_Forall (g : CaseRow -> string) v (l : list CaseRow) :
  existsb (fun c => String.eqb (g c) v) l = false -> v ∉ (g <$> l).
Proof.
  intros Hex Hin. apply list_elem_of_fmap in Hin as (c & -> & Hin).
  apply not_true_iff_false in Hex. apply Hex, existsb_exists.
  exists c. split; [by apply list_elem_of_In | apply String.eqb_refl].
Qed.

Lemma cases_ok_snoc (l : list CaseRow) c :
  cases_ok l -> c_id c ∉ (c_id <$> l) -> c_key c ∉ (c_key <$> l) -> c_id c <> "" ->
  cases_ok (l ++ [c]).
Proof.
  intros (Hids & Hkeys & Hne) Hi Hk Hc. unfold cases_ok. rewrite !fmap_app. cbn.
  split; [| split].
  - apply NoDup_app. split; [done |]. split; [| apply NoDup_singleton].
    intros x Hx ->%list_elem_of_singleton. done.
  - apply NoDup_app. split; [done |]. split; [| apply NoDup_singleton].
    intros x Hx ->%list_elem_of_singleton. done.
  - apply Forall_app. split; [done |]. by constructor.
Qed.

Lemma insert_case_cases_ok env db c db' :
  cases_ok (cases db) -> c_id c <> "" ->
  insert_case env db c = Ok db' ->
  cases_ok (cases db') /\ events db' = events db /\ c_id c ∈ (c_id <$> cases db').
Proof.
  intros Hok Hc. unfold insert_case, d1.
  destruct (d1_up env); [| done].
  destruct (existsb _ (cases db)) eqn:Hi; [done |].
  destruct (existsb (fun c' => String.eqb (c_key c') (c_key c)) (cases db)) eqn:Hk; [done |].
  intros [= <-]. cbn [cases events].
  apply (existsb_false_Forall c_id) in Hi. apply (existsb_false_Forall c_key) in Hk.
  split; [by apply cases_ok_snoc |]. split; [done |].
  rewrite fmap_app. apply elem_of_app. right. cbn. left.
Qed.

Lemma upsertCase_cases_ok env db e caseId db' :
  cases_ok (cases db) -> randomUUID env <> "" ->
  upsertCase env db e = Ok (caseId, db') ->
  cases_ok (cases db') /\ events db' = events db /\ caseId ∈ (c_id <$> cases db').
Proof.
  intros Hok Huuid. unfold upsertCase, select_case_id, d1 at 1.
  destruct (d1_up env) eqn:Hup; [| done]. cbn [mbind Result_bind].
  assert (Hins : forall r,
    (insert_case env db (new_case (randomUUID env) (case_key e) e)
       ≫= (fun db0 => mret (randomUUID env, db0))) = Ok r ->
    cases_ok (cases r.2) /\ events r.2 = events db
    /\ r.1 ∈ (c_id <$> cases r.2)).
  { intros r. destruct (insert_case _ _ _) as [db0 |] eqn:E; [| done].
    intros [= <-]. cbn [fst snd].
    by apply (insert_case_cases_ok env db _ db0) in E. }
  destruct (List.find _ (cases db)) as [c |] eqn:Hfind;
    cbn [fmap option_fmap option_map]; [| apply (Hins (caseId, db'))].
  destruct (truthy (c_id c)); [| apply (Hins (caseId, db'))].
  unfold update_last_seen. rewrite d1_up_run by done.
  cbn [mbind Result_bind mret Result_ret]. intros [= <- <-]. cbn [cases events].
  split; [apply cases_ok_map; [intros c0; by destruct (String.eqb _ _) | done] |].
  split; [done |].
  apply find_some in Hfind as [Hin _].
  apply list_elem_of_fmap. eexists. split; [| apply list_elem_of_In, in_map, Hin].
  cbn. destruct (String.eqb _ _); reflexivity.
Qed.

(** Processing a message keeps the constraints of the schema, as long as the
    fresh ids are not empty. *)
Lemma process_cases_ok env db e db' :
  cases_ok (cases db) -> randomUUID env <> "" ->
  process env db e = Ok db' -> cases_ok (cases db').
Proof.
  intros Hok Huuid. unfold process.
  destruct (upsertCase env db e) as [[caseId db1] |] eqn:Hupsert; [| done].
  apply upsertCase_cases_ok in Hupsert as (Hok1 & _ & _); [| done | done].
  cbn [mbind Result_bind].
  assert (Hev : forall db2, insert_event env db1 caseId e = Ok db2 -> cases db2 = cases db1).
  { intros db2. unfold insert_event, d1.
    destruct (d1_up env); [| done]. destruct (existsb _ _); [| done]. by intros [= <-]. }
  destruct (insert_event env db1 caseId e) as [db2 |]; [| done].
  rewrite <- (Hev db2 eq_refl) in Hok1. cbn [mbind Result_bind].
  destruct (recomputeMetrics env db2 caseId) as [m |]; [| done].
  cbn [mbind Result_bind]. unfold materialize, update_snapshot, d1.
  destruct (trigger m); [| by intros [= <-]].
  destruct (d1_up env); [| done]. intros [= <-]. cbn [cases].
  apply cases_ok_map; [| done]. intros c. by destruct (String.eqb _ _).
Qed.

(** ** The batch *)



End IngestorFacts.

(* ================================================================== *)
(** * The consumer on the sample data                                   *)
(* ================================================================== *)

Section IngestorSamples.
Import CaseIngestor.


(** The fifty sample rows satisfy the hypotheses of C7. *)
Lemma metrics_of_fifty_events_witness :
  select_window sample_env fifty_db "case-1" (now_recompute sample_env - windowMs)
  = Ok fifty_rows
  /\ length fifty_rows = 50%nat
  /\ (avgScore fifty_rows == Fin 10)%num
  /\ count_action "block" fifty_rows = 30%nat
  /\ count_action "challenge" fifty_rows = 0%nat
  /\ count_action "tarpit" fifty_rows = 0%nat
  /\ exists m,
      recomputeMetrics (H := sample_host) sample_env fifty_db "case-1" = Ok m
      /\ (df m == Fin (30 * 1.0 / 60))%num /\ (df m == Fin 0.5)%num
      /\ (attack_rps m == Fin (50 / 60))%num
      /\ (af m == Fin (50 / 60 / 500))%num /\ (af m == Fin (1 / 600))%num
      /\ (bof m == Fin (0.5 / (1 / 600)))%num /\ (bof m == Fin 300)%num
      /\ ef m = Fin 80
      /\ (ef m >=? Fin 50)%num = true
      /\ trigger m = true.
Proof.
  repeat (split; [vm_compute; reflexivity |]).
  apply (@metrics_of_fifty_events sample_host sample_env fifty_db "case-1" fifty_rows);
    vm_compute; reflexivity.
Defined.

(** One allowed request in the window of the sample case satisfies the
    hypotheses of C10. *)
Lemma allow_only_window_materializes_witness :
  let rows := [mkRow 1000 "allow" 0 1] in
  let c := new_case "case-1" (case_key (sample_event "allow")) (sample_event "allow") in
  cases one_allow_db = [] ++ c :: []
  /\ NoDup (c_id <$> cases one_allow_db)
  /\ select_window sample_env one_allow_db (c_id c)
       (now_recompute sample_env - windowMs) = Ok rows
  /\ rows <> []
  /\ Forall (fun r => r_action r = "allow") rows
  /\ exists m c',
      recomputeMetrics (H := sample_host) sample_env one_allow_db "case-1" = Ok m
      /\ (df m == Fin 0)%num
      /\ (bof m <? Fin 1)%num = true
      /\ trigger m = true
      /\ materialize (H := sample_host) sample_env one_allow_db
           (sample_event "allow") "case-1" m
         = Ok (mkDB [c'] (events one_allow_db))
      /\ c_last_seen c' = 60000
      /\ c_abuse_report c' = Some "ABUSE REPORT example.com"
      /\ c_section504_draft c' = Some "SECTION 504 INFORMATION".
Proof.
  intros rows c.
  assert (Hnd : NoDup (c_id <$> cases one_allow_db)).
  { apply (bool_decide_unpack _). by vm_compute. }
  assert (Hsel : select_window sample_env one_allow_db (c_id c)
                   (now_recompute sample_env - windowMs) = Ok rows)
    by (vm_compute; reflexivity).
  assert (Hne : rows <> []) by discriminate.
  assert (Hall : Forall (fun r => r_action r = "allow") rows)
    by (repeat constructor).
  split; [reflexivity |]. split; [exact Hnd |].
  split; [exact Hsel |]. split; [exact Hne |]. split; [exact Hall |].
  destruct (@allow_only_window_materializes sample_host sample_env one_allow_db
              (sample_event "allow") [] c [] rows eq_refl Hnd Hsel Hne Hall)
    as (m & c' & Hm & _ & _ & _ & Hdf & _ & _ & _ & Hlt & Htrig & _ & Hmat & Hsnap).
  exists m, c'.
  split; [exact Hm |]. split; [exact Hdf |]. split; [exact Hlt |].
  split; [exact Htrig |]. split; [exact Hmat |].
  destruct Hsnap as (_ & _ & _ & _ & _ & _ & _ & Hseen & _ & _ & _ & _ & _ & _
                     & _ & _ & _ & _ & Habuse & Hs504).
  split; [exact Hseen |]. split; [exact Habuse | exact Hs504].
Defined.

(** The sample case already has the key of the sample event: C8 applies. *)
Lemma upsertCase_no_duplicate_witness :
  let e := sample_event "block" in
  let c := new_case "case-1" (case_key (sample_event "allow")) (sample_event "allow") in
  d1_up sample_env = true
  /\ cases_ok (cases one_case_db)
  /\ exists l1 l2 c',
      cases one_case_db = l1 ++ c :: l2
      /\ upsertCase sample_env one_case_db e
         = Ok (c_id c, mkDB (l1 ++ c' :: l2) (events one_case_db))
      /\ bumped (ts e) c c'
      /\ rows_of_key (case_key e) (l1 ++ c' :: l2) = [c'].
Proof.
  intros e c.
  assert (Hok : cases_ok (cases one_case_db)).
  { apply (bool_decide_unpack _). by vm_compute. }
  split; [reflexivity |]. split; [exact Hok |].
  apply (proj1 (upsertCase_no_duplicate sample_env one_case_db e eq_refl Hok) c).
  - left.
  - reflexivity.
Defined.

(** The first message for a client, on the empty database: C5 applies. *)
Lemma process_materialization_witness :
  d1_up sample_env = true
  /\ cases_ok (cases empty_db)
  /\ (randomUUID sample_env ∉ (c_id <$> cases empty_db))
  /\ exists db',
      process (H := sample_host) sample_env empty_db (sample_event "block") = Ok db'.
Proof.
  assert (Hok : cases_ok (cases empty_db)).
  { apply (bool_decide_unpack _). by vm_compute. }
  assert (Hfresh : randomUUID sample_env ∉ (c_id <$> cases empty_db)).
  { apply not_elem_of_nil. }
  split; [reflexivity |]. split; [exact Hok |]. split; [exact Hfresh |].
  destruct (@process_materialization sample_host sample_env empty_db
              (sample_event "block") eq_refl Hok Hfresh)
    as (caseId & l1 & c & l2 & row & m & _ & _ & _ & _ & _ & Hfire & Hskip).
  destruct (trigger m) eqn:Htrig.
  - destruct (Hfire eq_refl) as (c' & _ & Hp & _). eauto.
  - destruct (Hskip eq_refl) as [_ Hp]. eauto.
Defined.

(** On the empty database a first blocked request of score 10 does not reach
    any threshold (EF = 31, AF = 1/30000, BoF = 500) and leaves the new case
    with the defaults of the schema; a first allowed one has BoF = 0 and
    writes the snapshot. *)
Example first_event_snapshots :
  (exists c evs,
     process (H := sample_host) sample_env empty_db (sample_event "block")
     = Ok (mkDB [c] evs)
     /\ c_abuse_report c = None /\ c_evidence_count c = Fin 0 /\ c_last_seen c = 1000)
  /\ (exists c evs,
     process (H := sample_host) sample_env empty_db (sample_event "allow")
     = Ok (mkDB [c] evs)
     /\ c_abuse_report c = Some "ABUSE REPORT example.com"
     /\ c_evidence_count c = Fin 31 /\ c_last_seen c = 60000).
Proof. split; do 2 eexists; (split; [vm_compute; reflexivity |]); repeat split. Qed.

End IngestorSamples.

(** The arithmetic of C7 in binary64, as JavaScript evaluates it: the
    roundings of 50/60 and of its quotient by 500 cancel, and DF / AF is the
    double 300. *)
Example binary64_fifty_events :
  (let rps := 50 / 60 in
   let AF := rps / 500 in
   let DF := (0 * 0x1.3333333333333p-1 + 0 * 0x1.ccccccccccccdp-1 + 30 * 1) / 60 in
   (DF =? 0.5) && (AF =? 1 / 600) && (DF / AF =? 300))%float = true.
Proof. reflexivity. Qed.

Section Binary64.
Import CaseIngestor.

(** Next to a threshold the rounding of binary64 shows.  Eleven blocked
    rows: BoF is exactly the capacity 500 over the rationals, and one unit in
    the last place above it in binary64. *)
Example binary64_eleven_blocked :
  let rows := repeat (mkRow 1000 "block" 0 130) 11 in
  (bof
     (metricsOf (H := sample_host)
        capacityRPS rows)
   == Fin 500)%num
  /\ (let '(_, _, _, BoF) := forces64 11 0 0 11 in
      (500 <? BoF)%float = true /\ (BoF <? 501)%float = true).
Proof. split; [reflexivity | split; reflexivity]. Qed.

(** Three challenged rows among 900: BoF is exactly 1 over the rationals,
    and one unit in the last place below it in binary64, where the test
    [bof < 1] of line 25 then holds. *)
Example binary64_three_challenged_of_900 :
  let rows := repeat (mkRow 1000 "challenge" 0 40) 3
              ++ repeat (mkRow 1000 "allow" 0 1) 897 in
  (bof
     (metricsOf (H := sample_host)
        capacityRPS rows)
   == Fin 1)%num
  /\ (let '(_, _, _, BoF) := forces64 900 3 0 0 in
      (BoF <? 1)%float = true).
Proof. split; [by vm_compute | reflexivity]. Qed.

End Binary64.

(* ================================================================== *)
(** * Further properties of the RateLimiter                             *)
(* ================================================================== *)

Section LimiterExtras.
Import WaspEdge Notions.

Lemma fetch_next_bucket now (storage : gmap string Bucket) r :
  fetch now storage r
  = (<[storage_key r := next_bucket now (load now storage (storage_key r)) r]> storage,
     mkVerdict
       (verdict_action (trustedCookie r)
          (next_bucket now (load now storage (storage_key r)) r))
       (score (next_bucket now (load now storage (storage_key r)) r))
       (hits (next_bucket now (load now storage (storage_key r)) r))).
Proof. reflexivity. Qed.

Lemma load_some now (storage : gmap string Bucket) key b :
  storage !! key = Some b -> load now storage key = b.
Proof. intros H. unfold load. by rewrite H. Qed.

Lemma load_none now (storage : gmap string Bucket) key :
  storage !! key = None -> load now storage key = mkBucket 0 now 0 "".
Proof. intros H. unfold load. by rewrite H. Qed.

Lemma heuristics_nonneg b r : 0 <= heuristics b r.
Proof.
  unfold heuristics.
  repeat match goal with |- context [if ?c then _ else _] => destruct c end; lia.
Qed.

Lemma next_bucket_fields now b r :
  hits (next_bucket now b r) = (if 1000 <? now - window b then 1 else hits b + 1)
  /\ window (next_bucket now b r) = (if 1000 <? now - window b then now else window b)
  /\ score (next_bucket now b r)
     = Z.max 0 (score b + heuristics (tick now b) r - 1)
  /\ lastUA (next_bucket now b r) = ua r.
Proof.
  unfold next_bucket. cbn [decay hits window score lastUA].
  by rewrite tick_hits, tick_window, tick_score.
Qed.

(** The heuristics of a GET or HEAD with a steady, non-empty user agent
    depend on the hits only. *)
Lemma heuristics_steady_read b r :
  (method r = "GET" \/ method r = "HEAD") ->
  ua r <> "" -> ua r <> "-" ->
  lastUA b = "" \/ lastUA b = ua r ->
  heuristics b r
  = if String.prefix "/api/" (path r)
    then (if 15 <? hits b then 2 else 0)
    else (if 35 <? hits b then 1 else 0).
Proof.
  intros Hm Hua Hdash Hlast. unfold heuristics.
  assert (Hwrite : negb (String.eqb (method r) "GET")
                   && negb (String.eqb (method r) "HEAD") = false).
  { destruct Hm as [-> | ->]; reflexivity. }
  assert (Hempty : negb (truthy (ua r)) || String.eqb (ua r) "-" = false).
  { apply truthy_true in Hua. rewrite Hua.
    by apply String.eqb_neq in Hdash as ->. }
  assert (Hflap : truthy (lastUA b) && negb (String.eqb (lastUA b) (ua r)) = false).
  { destruct Hlast as [-> | ->]; [reflexivity |].
    rewrite String.eqb_refl. apply andb_false_r. }
  rewrite Hwrite, Hempty, Hflap. cbn [andb].
  destruct (String.prefix "/api/" (path r)); cbn [andb negb].
  - by destruct (15 <? hits b).
  - by destruct (35 <? hits b).
Qed.

(** X1. The first evaluation of a key that has no stored bucket reports one
    hit and score 0 and is allowed, whatever the request. *)
Theorem first_request_allowed now (storage : gmap string Bucket) r :
  storage !! storage_key r = None ->
  snd (fetch now storage r) = mkVerdict allow 0 1
  /\ fst (fetch now storage r) !! storage_key r = Some (mkBucket 1 now 0 (ua r)).
Proof.
  intros Hnone. rewrite fetch_next_bucket. cbn [fst snd].
  rewrite lookup_insert_eq, (load_none _ _ _ Hnone).
  destruct (next_bucket_fields now (mkBucket 0 now 0 "") r) as (Hh & Hw & Hs & Hu).
  cbn [window hits score] in Hh, Hw, Hs. rewrite Z.sub_diag in Hh, Hw.
  replace (if 1000 <? 0 then 1 else 0 + 1) with 1 in Hh by reflexivity.
  replace (if 1000 <? 0 then now else now) with now in Hw by reflexivity.
  assert (Hdelta : heuristics (tick now (mkBucket 0 now 0 "")) r <= 1).
  { unfold heuristics. rewrite tick_hits, tick_lastUA. cbn [window hits lastUA].
    rewrite Z.sub_diag.
    replace (if 1000 <? 0 then 1 else 0 + 1) with 1 by reflexivity.
    change (15 <? 1) with false. change (35 <? 1) with false.
    change (5 <? 1) with false. change (truthy "") with false.
    rewrite !andb_false_r. cbn [andb].
    destruct (negb (truthy (ua r)) || String.eqb (ua r) "-"); lia. }
  pose proof (heuristics_nonneg (tick now (mkBucket 0 now 0 "")) r) as Hge.
  assert (Hs0 : score (next_bucket now (mkBucket 0 now 0 "") r) = 0) by lia.
  assert (Hb : next_bucket now (mkBucket 0 now 0 "") r = mkBucket 1 now 0 (ua r)).
  { destruct (next_bucket now (mkBucket 0 now 0 "") r) as [h w s u].
    cbn [hits window score lastUA] in Hh, Hw, Hs0, Hu.
    congruence. }
  rewrite Hb. split; [| reflexivity].
  by destruct (trustedCookie r).
Qed.

Lemma first_request_allowed_witness :
  let r := mkLimitRequest "203.0.113.9" 64500 "" "/api/login" "POST" false in
  (∅ : gmap string Bucket) !! storage_key r = None
  /\ snd (fetch 5000 ∅ r) = mkVerdict allow 0 1
  /\ fst (fetch 5000 ∅ r) !! storage_key r = Some (mkBucket 1 5000 0 (ua r)).
Proof.
  intros r. split; [reflexivity |].
  apply (first_request_allowed 5000 ∅ r). reflexivity.
Defined.

(** X2. The verdict never gets milder when hits or score grow: the severity
    allow < challenge < tarpit < block is monotone in both. *)
Theorem verdict_monotone trusted b b' :
  hits b <= hits b' -> score b <= score b' ->
  severity (verdict_action trusted b) <= severity (verdict_action trusted b').
Proof.
  intros Hh Hs. unfold verdict_action. destruct trusted; cbn [negb]; [reflexivity |].
  repeat match goal with
         | |- context [?x <? ?y] => destruct (Z.ltb_spec x y)
         end; cbn [orb severity]; lia.
Qed.

Lemma verdict_monotone_witness :
  hits (mkBucket 31 0 0 "") <= hits (mkBucket 71 0 9 "")
  /\ score (mkBucket 31 0 0 "") <= score (mkBucket 71 0 9 "")
  /\ severity (verdict_action false (mkBucket 31 0 0 ""))
     <= severity (verdict_action false (mkBucket 71 0 9 "")).
Proof.
  split; [cbn; lia |]. split; [cbn; lia |].
  apply (verdict_monotone false (mkBucket 31 0 0 "") (mkBucket 71 0 9 "")); cbn; lia.
Defined.

Lemma evaluations_of_snoc key h s :
  evaluations_of key (h ++ [s])
  = evaluations_of key h
    + match s with
      | Evaluate _ r => if String.eqb (storage_key r) key then 1 else 0
      | Evict _ => 0
      end.
Proof.
  unfold evaluations_of. rewrite List.filter_app, length_app, Nat2Z.inj_add.
  f_equal. destruct s as [now r | k]; cbn; [| done].
  by destruct (String.eqb (storage_key r) key).
Qed.

Lemma evaluations_of_nonneg key h : 0 <= evaluations_of key h.
Proof. unfold evaluations_of. lia. Qed.

Lemma heuristics_fresh now r : heuristics (tick now (mkBucket 0 now 0 "")) r <= 1.
Proof.
  unfold heuristics. rewrite tick_hits, tick_lastUA. cbn [window hits lastUA].
  rewrite Z.sub_diag.
  replace (if 1000 <? 0 then 1 else 0 + 1) with 1 by reflexivity.
  change (15 <? 1) with false. change (35 <? 1) with false.
  change (5 <? 1) with false. change (truthy "") with false.
  rewrite !andb_false_r. cbn [andb].
  destruct (negb (truthy (ua r)) || String.eqb (ua r) "-"); lia.
Qed.

(** X3. In any history of one Durable Object, the hits of a stored bucket are
    at least 1 and at most the number [n] of evaluations of its key so far,
    and its score is between 0 and [5 * (n - 1)]: a key cannot reach a score
    above 12, hence a block on score, before its fourth evaluation. *)
Theorem counters_bounded_by_evaluations h key b :
  run h !! key = Some b ->
  1 <= hits b <= evaluations_of key h
  /\ 0 <= score b <= 5 * (evaluations_of key h - 1).
Proof.
  revert b. induction h as [| s h IH] using rev_ind; intros b.
  - unfold run. cbn. by rewrite lookup_empty.
  - unfold run in *. rewrite foldl_app. cbn [foldl].
    rewrite evaluations_of_snoc.
    destruct s as [now r | k]; cbn [step].
    + rewrite fetch_next_bucket. cbn [fst].
      destruct (String.eqb_spec (storage_key r) key) as [<- | Hne].
      * rewrite lookup_insert_eq. intros [= <-].
        destruct (next_bucket_fields now
                    (load now (foldl step ∅ h) (storage_key r)) r)
          as (Hh & _ & Hs & _).
        pose proof (evaluations_of_nonneg (storage_key r) h) as Hn.
        destruct (foldl step ∅ h !! storage_key r) as [b0 |] eqn:E.
        -- rewrite (load_some _ _ _ _ E) in Hh, Hs |- *.
           destruct (IH b0 eq_refl) as [Hb0 Hs0].
           pose proof (heuristics_le_6 (tick now b0) r).
           pose proof (heuristics_nonneg (tick now b0) r).
           rewrite Hh, Hs. destruct (1000 <? now - window b0); lia.
        -- rewrite (load_none _ _ _ E) in Hh, Hs |- *.
           pose proof (heuristics_fresh now r).
           pose proof (heuristics_nonneg (tick now (mkBucket 0 now 0 "")) r).
           cbn [window hits score] in Hh, Hs. rewrite Z.sub_diag in Hh.
           replace (if 1000 <? 0 then 1 else 0 + 1) with 1 in Hh by reflexivity.
           rewrite Hh, Hs. lia.
      * rewrite lookup_insert_ne by done. intros Hb.
        specialize (IH b Hb). lia.
    + destruct (decide (k = key)) as [-> | Hne].
      * by rewrite lookup_delete_eq.
      * rewrite lookup_delete_ne by done. intros Hb.
        specialize (IH b Hb). lia.
Qed.

Lemma counters_bounded_by_evaluations_witness :
  let r := mkLimitRequest "203.0.113.9" 64500 "" "/api/x" "POST" false in
  let h := [Evaluate 0 r; Evaluate 10 r; Evaluate 20 r] in
  exists b,
    run h !! storage_key r = Some b
    /\ 1 <= hits b <= evaluations_of (storage_key r) h
    /\ 0 <= score b <= 5 * (evaluations_of (storage_key r) h - 1).
Proof.
  intros r h. exists (mkBucket 3 0 0 "").
  assert (Hb : run h !! storage_key r = Some (mkBucket 3 0 0 ""))
    by (vm_compute; reflexivity).
  split; [exact Hb |].
  apply (counters_bounded_by_evaluations h (storage_key r) _ Hb).
Defined.

(** ** Bursts in one window *)

Lemma foldl_step_evaluate storage t r ts :
  foldl step storage (evaluate_at r (t :: ts))
  = foldl step (<[storage_key r := next_bucket t (load t storage (storage_key r)) r]> storage)
      (evaluate_at r ts).
Proof. reflexivity. Qed.

(** The bucket of a key after further reads in its window: the hits count
    them, the window does not move, and the score stays the function [f] of
    the hits as long as one evaluation keeps it so. *)
Lemma burst_bucket (f : Z -> Z) r ts :
  (method r = "GET" \/ method r = "HEAD") -> ua r <> "" -> ua r <> "-" ->
  (forall h, 0 <= h ->
     Z.max 0 (f h + (if String.prefix "/api/" (path r)
                     then (if 15 <? h + 1 then 2 else 0)
                     else (if 35 <? h + 1 then 1 else 0)) - 1) = f (h + 1)) ->
  forall (storage : gmap string Bucket) b,
    storage !! storage_key r = Some b ->
    0 <= hits b -> score b = f (hits b) ->
    lastUA b = "" \/ lastUA b = ua r ->
    Forall (fun t => t - window b <= 1000) ts ->
    foldl step storage (evaluate_at r ts) !! storage_key r
    = Some (mkBucket (hits b + Z.of_nat (length ts)) (window b)
              (f (hits b + Z.of_nat (length ts)))
              (match ts with [] => lastUA b | _ => ua r end)).
Proof.
  intros Hm Hua Hdash Hf.
  induction ts as [| t ts IH]; intros storage b Hb Hh Hs Hlast Hts.
  - cbn. rewrite Hb, Z.add_0_r, <- Hs. by destruct b.
  - apply Forall_cons in Hts as [Ht Hts].
    rewrite foldl_step_evaluate, (load_some _ _ _ _ Hb).
    destruct (next_bucket_fields t b r) as (Hh' & Hw' & Hs' & Hu').
    assert (Hlt : (1000 <? t - window b) = false) by (apply Z.ltb_ge; lia).
    rewrite Hlt in Hh', Hw'.
    assert (Hscore : score (next_bucket t b r) = f (hits (next_bucket t b r))).
    { rewrite Hs', Hh', Hs.
      rewrite (heuristics_steady_read (tick t b) r Hm Hua Hdash)
        by (by rewrite tick_lastUA).
      rewrite tick_hits, Hlt. by apply Hf. }
    rewrite (IH _ (next_bucket t b r)); try done.
    + rewrite Hh', Hw', Hu'. cbn [length]. f_equal. f_equal.
      * lia.
      * f_equal. lia.
      * by destruct ts.
    + apply lookup_insert_eq.
    + lia.
    + by right.
    + by rewrite Hw'.
Qed.

Lemma fresh_bucket t (storage : gmap string Bucket) r :
  storage !! storage_key r = None ->
  next_bucket t (load t storage (storage_key r)) r = mkBucket 1 t 0 (ua r).
Proof.
  intros Hnone. rewrite (load_none _ _ _ Hnone).
  destruct (next_bucket_fields t (mkBucket 0 t 0 "") r) as (Hh & Hw & Hs & Hu).
  cbn [window hits score] in Hh, Hw, Hs. rewrite Z.sub_diag in Hh, Hw.
  replace (if 1000 <? 0 then 1 else 0 + 1) with 1 in Hh by reflexivity.
  replace (if 1000 <? 0 then t else t) with t in Hw by reflexivity.
  pose proof (heuristics_fresh t r).
  pose proof (heuristics_nonneg (tick t (mkBucket 0 t 0 "")) r).
  destruct (next_bucket t (mkBucket 0 t 0 "") r) as [h w s u].
  cbn [hits window score lastUA] in *. f_equal; lia || done.
Qed.

(** The bucket of a fresh key after a burst of [1 + length rest] reads that
    all fall in the window opened by the first one. *)
Lemma burst_from_fresh (f : Z -> Z) r t1 rest (storage : gmap string Bucket) :
  (method r = "GET" \/ method r = "HEAD") -> ua r <> "" -> ua r <> "-" ->
  f 1 = 0 ->
  (forall h, 0 <= h ->
     Z.max 0 (f h + (if String.prefix "/api/" (path r)
                     then (if 15 <? h + 1 then 2 else 0)
                     else (if 35 <? h + 1 then 1 else 0)) - 1) = f (h + 1)) ->
  storage !! storage_key r = None ->
  Forall (fun t => t - t1 <= 1000) rest ->
  foldl step storage (evaluate_at r (t1 :: rest)) !! storage_key r
  = Some (mkBucket (1 + Z.of_nat (length rest)) t1
            (f (1 + Z.of_nat (length rest))) (ua r)).
Proof.
  intros Hm Hua Hdash Hf1 Hf Hnone Hrest.
  rewrite foldl_step_evaluate, (fresh_bucket _ _ _ Hnone).
  rewrite (burst_bucket f r rest Hm Hua Hdash Hf _ (mkBucket 1 t1 0 (ua r)));
    cbn [hits window score lastUA]; try done.
  - f_equal. f_equal. by destruct rest.
  - apply lookup_insert_eq.
  - by right.
Qed.

Lemma verdict_of_stored now (storage : gmap string Bucket) r b :
  fst (fetch now storage r) !! storage_key r = Some b ->
  snd (fetch now storage r)
  = mkVerdict (verdict_action (trustedCookie r) b) (score b) (hits b).
Proof.
  rewrite fetch_next_bucket. cbn [fst snd]. rewrite lookup_insert_eq.
  by intros [= <-].
Qed.

Lemma evaluate_at_snoc (storage : gmap string Bucket) r ts t :
  foldl step storage (evaluate_at r (ts ++ [t]))
  = fst (fetch t (foldl step storage (evaluate_at r ts)) r).
Proof. unfold evaluate_at. by rewrite fmap_app, foldl_app. Qed.

Lemma page_burst_verdict (storage : gmap string Bucket) r t1 rest t :
  storage !! storage_key r = None ->
  plain_read r -> trustedCookie r = false ->
  Forall (fun t' => t' - t1 <= 1000) (rest ++ [t]) ->
  let k := Z.of_nat (length rest) + 2 in
  let v := snd (fetch t (foldl step storage (evaluate_at r (t1 :: rest))) r) in
  v_hits v = k /\ v_score v = 0
  /\ action v = (if 120 <? k then block else if 70 <? k then tarpit
                 else if 30 <? k then challenge else allow).
Proof.
  intros Hnone (Hapi & Hm & Hua & Hdash) Htrust Hts k v.
  assert (Hprefix : String.prefix "/api/" (path r) = false).
  { by apply not_true_iff_false. }
  pose proof (burst_from_fresh (fun _ => 0) r t1 (rest ++ [t]) storage
                Hm Hua Hdash eq_refl) as Hb.
  rewrite Hprefix in Hb.
  assert (Hf : forall h, 0 <= h ->
             Z.max 0 (0 + (if 35 <? h + 1 then 1 else 0) - 1) = 0).
  { intros h _. destruct (35 <? h + 1); lia. }
  specialize (Hb Hf Hnone Hts).
  rewrite app_comm_cons, evaluate_at_snoc in Hb.
  rewrite length_app in Hb. cbn [length] in Hb.
  replace (1 + Z.of_nat (length rest + 1)) with k in Hb by lia.
  subst v. rewrite (verdict_of_stored _ _ _ _ Hb), Htrust.
  cbn [v_hits v_score action]. split; [done |]. split; [done |].
  unfold verdict_action. cbn [negb hits score].
  change (12 <? 0) with false. change (8 <? 0) with false. change (5 <? 0) with false.
  by rewrite !orb_false_r.
Qed.

(** X4. A burst of GETs or HEADs outside [/api/], with a steady user agent
    and no trust cookie, from a client without stored bucket, all within
    1000 ms of the first: the score stays 0, and the [k]-th request is allowed
    up to the 30th, challenged from the 31st, tarpitted from the 71st and
    blocked from the 121st. *)
Theorem page_burst_thresholds (storage : gmap string Bucket) r t1 rest t :
  storage !! storage_key r = None ->
  plain_read r -> trustedCookie r = false ->
  Forall (fun t' => t' - t1 <= 1000) (rest ++ [t]) ->
  let k := Z.of_nat (length rest) + 2 in
  let v := snd (fetch t (foldl step storage (evaluate_at r (t1 :: rest))) r) in
  v_hits v = k /\ v_score v = 0
  /\ action v = (if 120 <? k then block else if 70 <? k then tarpit
                 else if 30 <? k then challenge else allow).
Proof. apply page_burst_verdict. Qed.

Lemma page_burst_thresholds_witness :
  let r := mkLimitRequest "203.0.113.9" 64500 "Mozilla/5.0" "/index.html" "GET" false in
  let rest := repeat 10 29 in
  (∅ : gmap string Bucket) !! storage_key r = None
  /\ plain_read r /\ trustedCookie r = false
  /\ Forall (fun t' => t' - 0 <= 1000) (rest ++ [20])
  /\ v_hits (snd (fetch 20 (foldl step ∅ (evaluate_at r (0 :: rest))) r)) = 31
  /\ action (snd (fetch 20 (foldl step ∅ (evaluate_at r (0 :: rest))) r)) = challenge.
Proof.
  intros r rest.
  assert (Hplain : plain_read r).
  { split; [by vm_compute |]. split; [by left |]. split; discriminate. }
  assert (Hts : Forall (fun t' => t' - 0 <= 1000) (rest ++ [20])).
  { apply Forall_forall. intros x Hx.
    apply elem_of_app in Hx as [Hx%list_elem_of_In%repeat_spec | ->%list_elem_of_singleton]; lia. }
  split; [reflexivity |]. split; [exact Hplain |]. split; [reflexivity |].
  split; [exact Hts |].
  destruct (page_burst_thresholds ∅ r 0 rest 20 (lookup_empty _) Hplain eq_refl Hts)
    as (Hh & _ & Ha).
  split; [exact Hh | exact Ha].
Defined.

(** X5. The same burst under [/api/]: the score is [max 0 (k - 15)] at the
    [k]-th request, which is allowed up to the 20th, challenged from the
    21st, tarpitted from the 24th and blocked from the 28th. *)
Theorem api_burst_thresholds (storage : gmap string Bucket) r t1 rest t :
  storage !! storage_key r = None ->
  api_read r -> trustedCookie r = false ->
  Forall (fun t' => t' - t1 <= 1000) (rest ++ [t]) ->
  let k := Z.of_nat (length rest) + 2 in
  let v := snd (fetch t (foldl step storage (evaluate_at r (t1 :: rest))) r) in
  v_hits v = k /\ v_score v = Z.max 0 (k - 15)
  /\ action v = (if 27 <? k then block else if 23 <? k then tarpit
                 else if 20 <? k then challenge else allow).
Proof.
  intros Hnone (Hapi & Hm & Hua & Hdash) Htrust Hts k v.
  pose proof (burst_from_fresh (fun h => Z.max 0 (h - 15)) r t1 (rest ++ [t]) storage
                Hm Hua Hdash eq_refl) as Hb.
  unfold under_api in Hapi. rewrite Hapi in Hb.
  assert (Hf : forall h, 0 <= h ->
             Z.max 0 (Z.max 0 (h - 15) + (if 15 <? h + 1 then 2 else 0) - 1)
             = Z.max 0 (h + 1 - 15)).
  { intros h _. destruct (Z.ltb_spec 15 (h + 1)); lia. }
  specialize (Hb Hf Hnone Hts).
  rewrite app_comm_cons, evaluate_at_snoc in Hb.
  rewrite length_app in Hb. cbn [length] in Hb.
  replace (1 + Z.of_nat (length rest + 1)) with k in Hb by lia.
  subst v. rewrite (verdict_of_stored _ _ _ _ Hb), Htrust.
  cbn [v_hits v_score action]. split; [done |]. split; [done |].
  unfold verdict_action. cbn [negb hits score].
  assert (Hk : 2 <= k) by lia. clearbody k.
  repeat match goal with
         | |- context [?x <? ?y] => destruct (Z.ltb_spec x y)
         end; cbn [orb]; try reflexivity; exfalso; lia.
Qed.

Lemma api_burst_thresholds_witness :
  let r := mkLimitRequest "203.0.113.9" 64500 "okhttp/4" "/api/items" "GET" false in
  let rest := repeat 10 26 in
  (∅ : gmap string Bucket) !! storage_key r = None
  /\ api_read r /\ trustedCookie r = false
  /\ Forall (fun t' => t' - 0 <= 1000) (rest ++ [20])
  /\ v_score (snd (fetch 20 (foldl step ∅ (evaluate_at r (0 :: rest))) r)) = 13
  /\ action (snd (fetch 20 (foldl step ∅ (evaluate_at r (0 :: rest))) r)) = block.
Proof.
  intros r rest.
  assert (Hapi : api_read r).
  { split; [by vm_compute |]. split; [by left |]. split; discriminate. }
  assert (Hts : Forall (fun t' => t' - 0 <= 1000) (rest ++ [20])).
  { apply Forall_forall. intros x Hx.
    apply elem_of_app in Hx as [Hx%list_elem_of_In%repeat_spec | ->%list_elem_of_singleton]; lia. }
  split; [reflexivity |]. split; [exact Hapi |]. split; [reflexivity |].
  split; [exact Hts |].
  destruct (api_burst_thresholds ∅ r 0 rest 20 (lookup_empty _) Hapi eq_refl Hts)
    as (_ & Hs & Ha).
  split; [exact Hs | exact Ha].
Defined.

(** ** Requests more than a window apart *)

Lemma spaced_bucket r ts :
  (method r = "GET" \/ method r = "HEAD") -> ua r <> "" -> ua r <> "-" ->
  forall (storage : gmap string Bucket) b,
    storage !! storage_key r = Some b ->
    lastUA b = "" \/ lastUA b = ua r ->
    spaced (window b) ts ->
    foldl step storage (evaluate_at r ts) !! storage_key r
    = Some (match ts with
            | [] => b
            | _ => mkBucket 1 (default (window b) (last ts))
                     (Z.max 0 (score b - Z.of_nat (length ts))) (ua r)
            end).
Proof.
  intros Hm Hua Hdash.
  induction ts as [| t ts IH]; intros storage b Hb Hlast Hsp; [done |].
  destruct Hsp as [Ht Hsp].
  rewrite foldl_step_evaluate, (load_some _ _ _ _ Hb).
  destruct (next_bucket_fields t b r) as (Hh' & Hw' & Hs' & Hu').
  assert (Hlt : (1000 <? t - window b) = true) by (apply Z.ltb_lt; lia).
  rewrite Hlt in Hh', Hw'.
  assert (Hd : heuristics (tick t b) r = 0).
  { rewrite (heuristics_steady_read (tick t b) r Hm Hua Hdash)
      by (by rewrite tick_lastUA).
    rewrite tick_hits, Hlt. by destruct (String.prefix "/api/" (path r)). }
  rewrite Hd in Hs'.
  assert (Hnb : next_bucket t b r = mkBucket 1 t (Z.max 0 (score b - 1)) (ua r)).
  { destruct (next_bucket t b r) as [h w s u].
    cbn [hits window score lastUA] in Hh', Hw', Hs', Hu'. f_equal; lia || done. }
  rewrite Hnb.
  rewrite (IH _ (mkBucket 1 t (Z.max 0 (score b - 1)) (ua r)));
    [| apply lookup_insert_eq | by right | exact Hsp].
  f_equal. destruct ts as [| t' ts]; cbn [length window score]; [reflexivity |].
  f_equal; [| lia]. rewrite last_cons_cons.
  destruct (last (t' :: ts)) eqn:E; [done |]. by apply last_None in E.
Qed.

(** X6. Reads of one key each more than 1000 ms after the previous one (the
    first more than 1000 ms after the stored window start), with the user
    agent the bucket last saw: each reports one hit and lowers the score by
    one, down to 0; so the [n]-th has score [max 0 (score - n)], and the
    client is allowed again as soon as that is at most 5. *)
Theorem spaced_reads_decay (storage : gmap string Bucket) r b ts t :
  storage !! storage_key r = Some b ->
  (method r = "GET" \/ method r = "HEAD") -> ua r <> "" -> ua r <> "-" ->
  lastUA b = "" \/ lastUA b = ua r ->
  trustedCookie r = false ->
  spaced (window b) (ts ++ [t]) ->
  let n := Z.of_nat (length ts) + 1 in
  let v := snd (fetch t (foldl step storage (evaluate_at r ts)) r) in
  v_hits v = 1 /\ v_score v = Z.max 0 (score b - n)
  /\ action v = (if 12 <? score b - n then block
                 else if 8 <? score b - n then tarpit
                 else if 5 <? score b - n then challenge else allow).
Proof.
  intros Hb Hm Hua Hdash Hlast Htrust Hsp n v.
  pose proof (spaced_bucket r (ts ++ [t]) Hm Hua Hdash storage b Hb Hlast Hsp) as Hfin.
  rewrite evaluate_at_snoc in Hfin.
  destruct (ts ++ [t]) as [| x l] eqn:E; [by destruct ts |].
  rewrite <- E, length_app in Hfin. cbn [length] in Hfin.
  replace (Z.of_nat (length ts + 1)) with n in Hfin by lia.
  subst v. rewrite (verdict_of_stored _ _ _ _ Hfin), Htrust.
  cbn [v_hits v_score action]. split; [done |]. split; [done |].
  unfold verdict_action. cbn [negb hits score]. clearbody n.
  repeat match goal with
         | |- context [?x <? ?y] => destruct (Z.ltb_spec x y)
         end; cbn [orb]; try reflexivity; exfalso; lia.
Qed.

Lemma spaced_reads_decay_witness :
  let r := mkLimitRequest "203.0.113.9" 64500 "Mozilla/5.0" "/" "GET" false in
  let b := mkBucket 121 0 14 "Mozilla/5.0" in
  let storage : gmap string Bucket := {[storage_key r := b]} in
  let ts := [2000; 4000; 6000; 8000; 10000; 12000; 14000; 16000] in
  storage !! storage_key r = Some b
  /\ spaced (window b) (ts ++ [18000])
  /\ v_score (snd (fetch 18000 (foldl step storage (evaluate_at r ts)) r)) = 5
  /\ action (snd (fetch 18000 (foldl step storage (evaluate_at r ts)) r)) = allow.
Proof.
  intros r b storage ts.
  assert (Hb : storage !! storage_key r = Some b) by apply lookup_singleton_eq.
  assert (Hsp : spaced (window b) (ts ++ [18000])) by (cbn; lia).
  split; [exact Hb |]. split; [exact Hsp |].
  destruct (spaced_reads_decay storage r b ts 18000 Hb (or_introl eq_refl)
              ltac:(discriminate) ltac:(discriminate) (or_intror eq_refl) eq_refl Hsp)
    as (_ & Hs & Ha).
  split; [exact Hs | exact Ha].
Defined.

End LimiterExtras.

(* ================================================================== *)
(** * Further properties of the case ingestor                           *)
(* ================================================================== *)

Section IngestorExtras.
Import CaseIngestor Notions.
Context `{host : Host}.

(** ** The metrics of a window *)

Lemma sum_scores_fin rows : sum_scores rows = Fin (score_total rows).
Proof.
  unfold sum_scores, score_total. generalize 0%Q.
  induction rows as [| r rows IH]; intros q; [done |]. cbn [foldl]. apply IH.
Qed.

Lemma score_total_nonneg rows :
  Forall (fun r => (0 <= r_score r)%Q) rows -> (0 <= score_total rows)%Q.
Proof.
  unfold score_total. intros Hall.
  assert (H : forall q, (0 <= q)%Q ->
            (0 <= foldl (fun s r => (s + r_score r)%Q) q rows)%Q).
  { induction Hall as [| r rows Hr _ IH]; intros q Hq; [done |].
    cbn [foldl]. apply IH. cbn beta in Hr.
    lra. }
  by apply H.
Qed.

Lemma of_nat_nonzero n : Qeq_bool (inject_Z (Z.of_nat (S n))) 0 = false.
Proof.
  apply not_true_iff_false. intros H%Qeq_bool_iff.
  unfold Qeq in H. cbn in H. lia.
Qed.

(** The mean score of a window is a finite number, and it is not negative
    when no score is. *)
Lemma avgScore_fin rows :
  exists a, avgScore rows = Fin a
            /\ (Forall (fun r => (0 <= r_score r)%Q) rows -> (0 <= a)%Q).
Proof.
  unfold avgScore. destruct rows as [| r rows].
  - exists 0%Q. by split.
  - rewrite sum_scores_fin. unfold of_nat, of_Z. cbn [length].
    rewrite num_div_fin by apply of_nat_nonzero.
    eexists. split; [reflexivity |]. intros Hall.
    apply Qle_shift_div_l.
    + change 0%Q with (inject_Z 0). rewrite <- Zlt_Qlt. lia.
    + rewrite Qmult_0_l. by apply score_total_nonneg.
Qed.

Lemma justice_unfold capacity rows :
  justice (metricsOf capacity rows)
  = Math_max (Fin 0)
      (Math_min (Fin 1)
         (match length rows with
          | O => Fin 0
          | _ => ((of_nat (count_action "challenge" rows)
                   + of_nat (count_action "tarpit" rows)
                   + of_nat (count_action "block" rows)) / of_nat (length rows))%num
          end + avgScore rows / Fin 12)%num).
Proof. unfold metricsOf, avgScore. by destruct rows. Qed.

Lemma clamp_fin x :
  exists j, Math_max (Fin 0) (Math_min (Fin 1) (Fin x)) = Fin j /\ (0 <= j <= 1)%Q.
Proof.
  cbn [Math_min num_ltb]. destruct (Qltb x 1) eqn:H1.
  - cbn [Math_max num_ltb]. destruct (Qltb 0 x) eqn:H0.
    + exists x. split; [done |]. apply Qltb_lt in H1, H0. lra.
    + exists 0%Q. split; [done | lra].
  - cbn [Math_max num_ltb]. exists 1%Q. split; [reflexivity | lra].
Qed.

(** X7. [justice] is always a finite number between 0 and 1, for every
    capacity and every window, whatever the scores. *)
Theorem justice_clamped (capacity : num) (rows : list Row) :
  exists j, justice (metricsOf capacity rows) = Fin j /\ (0 <= j <= 1)%Q.
Proof.
  rewrite justice_unfold.
  destruct (avgScore_fin rows) as (a & -> & _).
  assert (Hna : exists x,
    match length rows with
    | O => Fin 0
    | _ => ((of_nat (count_action "challenge" rows)
             + of_nat (count_action "tarpit" rows)
             + of_nat (count_action "block" rows)) / of_nat (length rows))%num
    end = Fin x).
  { destruct rows as [| r rows]; [by eexists |]. cbn [length].
    unfold of_nat, of_Z. cbn [num_add].
    rewrite num_div_fin by apply of_nat_nonzero. by eexists. }
  destruct Hna as [x ->].
  rewrite num_div_fin by reflexivity. cbn [num_add]. apply clamp_fin.
Qed.

Lemma mercy_unfold capacity rows :
  mercy (metricsOf capacity rows)
  = (Fin 1 / (Fin 1 + Math_exp (avgScore rows - Fin 6)))%num.
Proof. unfold metricsOf, avgScore. by destruct rows. Qed.

(** X25. [mercy] is a finite number between 0 and 1 for every capacity and
    every window, as soon as the exponential of the host returns, on a finite
    argument, a number that is not negative or [+Infinity]. *)
Theorem mercy_in_unit_interval (capacity : num) (rows : list Row) :
  (forall x : Q, Math_exp (Fin x) = PosInf
                 \/ exists y, Math_exp (Fin x) = Fin y /\ (0 <= y)%Q) ->
  exists u, mercy (metricsOf capacity rows) = Fin u /\ (0 <= u <= 1)%Q.
Proof.
  intros Hexp. rewrite mercy_unfold.
  destruct (avgScore_fin rows) as (a & -> & _).
  cbn [num_sub num_opp num_add].
  match goal with
  | |- context [Math_exp (Fin ?x)] => destruct (Hexp x) as [-> | (y & -> & Hy)]
  end.
  - exists 0%Q. split; [reflexivity | lra].
  - cbn [num_add]. rewrite num_div_fin.
    + eexists. split; [reflexivity |]. split.
      * apply Qle_shift_div_l; lra.
      * apply Qle_shift_div_r; lra.
    + apply not_true_iff_false. intros H%Qeq_bool_iff. lra.
Qed.

(** X8. A window of at least 50 rows whose scores are not negative always
    satisfies the trigger, through EF >= 50, for every capacity. *)
Theorem fifty_rows_always_trigger (capacity : num) (rows : list Row) :
  Forall (fun r => (0 <= r_score r)%Q) rows ->
  (50 <= length rows)%nat ->
  exists e, ef (metricsOf capacity rows) = Fin (inject_Z e)
            /\ (Z.of_nat (length rows) <= e)%Z
            /\ trigger (metricsOf capacity rows) = true.
Proof.
  intros Hall Hn. rewrite ef_unfold.
  destruct (avgScore_fin rows) as (a & Ha & Hpos). specialize (Hpos Hall).
  rewrite Ha. unfold of_nat, of_Z. cbn [num_mul num_add Math_round].
  unfold of_Z. eexists. split; [reflexivity |].
  assert (Hfloor : (Z.of_nat (length rows)
                    <= Qfloor (inject_Z (Z.of_nat (length rows)) + a * 3 + (1 # 2)))%Z).
  { rewrite <- (Qfloor_Z (Z.of_nat (length rows))) at 1.
    apply Qfloor_resp_le. lra. }
  split; [exact Hfloor |].
  unfold trigger. rewrite ef_unfold, Ha. unfold of_nat, of_Z.
  cbn [num_mul num_add Math_round num_geb num_leb]. unfold of_Z.
  replace (Qle_bool 50 _) with true; [done |].
  symmetry. apply Qle_bool_iff. change 50%Q with (inject_Z 50).
  rewrite <- Zle_Qle. lia.
Qed.

Lemma counts_le_length rows :
  (count_action "challenge" rows + count_action "tarpit" rows
   + count_action "block" rows <= length rows)%nat.
Proof.
  unfold count_action. induction rows as [| r rows IH]; [done |].
  cbn [List.filter length].
  destruct (String.eqb_spec (r_action r) "challenge") as [-> | _];
    [cbn; lia |].
  destruct (String.eqb_spec (r_action r) "tarpit") as [-> | _];
    [cbn; lia |].
  destruct (String.eqb (r_action r) "block"); cbn [length]; lia.
Qed.

Lemma rps_of_nonneg n : (0 <= rps_of n)%Q.
Proof.
  unfold rps_of. apply Qle_shift_div_l; [done |]. rewrite Qmult_0_l.
  change 0%Q with (inject_Z 0). rewrite <- Zle_Qle. lia.
Qed.

Lemma inject_nat_nonneg n : (0 <= inject_Z (Z.of_nat n))%Q.
Proof. change 0%Q with (inject_Z 0). rewrite <- Zle_Qle. lia. Qed.

(** [DF] is between 0 and the request rate. *)
Lemma df_of_bounds rows : (0 <= df_of rows <= rps_of (length rows))%Q.
Proof.
  pose proof (counts_le_length rows) as Hle.
  pose proof (inject_nat_nonneg (count_action "challenge" rows)).
  pose proof (inject_nat_nonneg (count_action "tarpit" rows)).
  pose proof (inject_nat_nonneg (count_action "block" rows)).
  assert (Hsum : (inject_Z (Z.of_nat (count_action "challenge" rows))
                  + inject_Z (Z.of_nat (count_action "tarpit" rows))
                  + inject_Z (Z.of_nat (count_action "block" rows))
                  <= inject_Z (Z.of_nat (length rows)))%Q).
  { rewrite <- !inject_Z_plus, <- Zle_Qle. lia. }
  unfold df_of, rps_of, Qdiv. change (/ 60)%Q with (1 # 60)%Q. lra.
Qed.

Lemma bof_nonempty rows :
  rows <> [] ->
  bof (metricsOf capacityRPS rows)
  = Fin (df_of rows / (rps_of (length rows) / 500)).
Proof.
  intros Hne.
  assert (Hn : (0 < length rows)%nat) by (destruct rows; [done | cbn; lia]).
  assert (Hpos : (0 < rps_of (length rows) / 500)%Q).
  { apply Qlt_shift_div_l; [done |]. rewrite Qmult_0_l. by apply rps_of_pos. }
  rewrite bof_unfold, af_default, df_fin.
  replace (Fin (rps_of (length rows) / 500) >? Fin 0)%num with true
    by (symmetry; cbn; by apply Qltb_lt).
  apply num_div_fin, Qltb_pos_neq. by apply Qltb_lt.
Qed.

(** X9. With the capacity of the source, for every window DF is a finite
    number between 0 and the request rate, and BoF is a finite number that is
    not negative.  Over the rationals BoF is also at most the capacity 500;
    the binary64 division can exceed it by a unit in the last place
    ([binary64_eleven_blocked]), so no upper bound is stated. *)
Theorem force_bounds (rows : list Row) :
  let m := metricsOf capacityRPS rows in
  exists d q,
    df m = Fin d /\ bof m = Fin q
    /\ (0 <= d <= rps_of (length rows))%Q
    /\ (0 <= q)%Q.
Proof.
  intros m. subst m. exists (df_of rows).
  pose proof (df_of_bounds rows) as [Hd0 Hd1].
  destruct rows as [| r rows].
  - exists 1%Q. split; [apply df_fin |]. split; [reflexivity |].
    split; [by split | lra].
  - exists (df_of (r :: rows) / (rps_of (length (r :: rows)) / 500))%Q.
    split; [apply df_fin |]. split; [by apply bof_nonempty |].
    split; [by split |].
    assert (Hpos : (0 < rps_of (length (r :: rows)))%Q)
      by (apply rps_of_pos; cbn; lia).
    assert (Ha : (0 < rps_of (length (r :: rows)) / 500)%Q).
    { apply Qlt_shift_div_l; [done |]. by rewrite Qmult_0_l. }
    apply Qle_shift_div_l; [exact Ha |]. by rewrite Qmult_0_l.
Qed.

(** X10. With the capacity of the source, a window satisfies the trigger
    whenever it has at least 30000 rows (AF >= 1), and whenever it is not
    empty and [300 * challenged + 450 * tarpitted + 500 * blocked] is below
    its number of rows (BoF < 1): in particular whenever nothing in it was
    challenged, tarpitted or blocked.  Where the two sides are equal BoF is 1
    over the rationals and the rounding of the binary64 division decides
    ([binary64_three_challenged_of_900]), so no converse is stated. *)
Theorem trigger_from_counts (rows : list Row) :
  let n := Z.of_nat (length rows) in
  (30000 <= n)%Z
  \/ ((0 < n)%Z
      /\ (300 * Z.of_nat (count_action "challenge" rows)
          + 450 * Z.of_nat (count_action "tarpit" rows)
          + 500 * Z.of_nat (count_action "block" rows) < n)%Z) ->
  trigger (metricsOf capacityRPS rows) = true.
Proof.
  intros n Hcounts. unfold trigger. rewrite !orb_true_iff.
  destruct Hcounts as [Hn | [Hn Hw]].
  - left. right. rewrite af_default. cbn [num_geb num_leb]. apply Qle_bool_iff.
    unfold rps_of. fold n. rewrite (Zle_Qle 30000 n) in Hn.
    unfold Qdiv. change (/ 60)%Q with (1 # 60)%Q. change (/ 500)%Q with (1 # 500)%Q.
    change (inject_Z 30000) with 30000%Q in Hn. lra.
  - right. destruct rows as [| r rows]; [subst n; cbn in Hn; lia |].
    rewrite bof_nonempty by done. cbn [num_ltb]. apply Qltb_lt.
    assert (Hpos : (0 < rps_of (length (r :: rows)))%Q)
      by (apply rps_of_pos; cbn; lia).
    assert (Ha : (0 < rps_of (length (r :: rows)) / 500)%Q).
    { apply Qlt_shift_div_l; [done |]. by rewrite Qmult_0_l. }
    apply Qlt_shift_div_r; [exact Ha |]. rewrite Qmult_1_l.
    unfold df_of, rps_of. fold n.
    revert Hw.
    set (c := Z.of_nat (count_action "challenge" (r :: rows))).
    set (t := Z.of_nat (count_action "tarpit" (r :: rows))).
    set (b := Z.of_nat (count_action "block" (r :: rows))).
    rewrite (Zlt_Qlt (300 * c + 450 * t + 500 * b) n),
      !inject_Z_plus, !inject_Z_mult.
    change (inject_Z 300) with 300%Q. change (inject_Z 450) with 450%Q.
    change (inject_Z 500) with 500%Q.
    unfold Qdiv. change (/ 60)%Q with (1 # 60)%Q. change (/ 500)%Q with (1 # 500)%Q.
    intros Hw. lra.
Qed.

(** ** What one message does to the database *)

Lemma filter_app_drop {A} (f : A -> bool) l1 x l2 :
  f x = false -> List.filter f (l1 ++ x :: l2) = List.filter f (l1 ++ l2).
Proof. intros Hx. rewrite !List.filter_app. cbn. by rewrite Hx. Qed.

(** X11. The metrics of a case read the events of that case that are at most
    60 s older than the clock of the recompute and nothing else: an event of
    another case, or an older one, anywhere in the table, changes nothing. *)
Theorem window_ignores_other_events env cs l1 x l2 caseId :
  e_case_id x <> caseId \/ e_ts x < now_recompute env - windowMs ->
  recomputeMetrics env (mkDB cs (l1 ++ x :: l2)) caseId
  = recomputeMetrics env (mkDB cs (l1 ++ l2)) caseId.
Proof.
  intros Hx. unfold recomputeMetrics, select_window. cbn [events].
  rewrite filter_app_drop; [done |].
  destruct Hx as [Hc | Ht].
  - by apply String.eqb_neq in Hc as ->.
  - apply andb_false_iff. right. apply Z.leb_gt. exact Ht.
Qed.

(** The two outcomes of [upsertCase] that return: a row of the key was found
    and every row of its id got the new [last_seen], or a row was appended. *)
Lemma upsertCase_shape env db e caseId db1 :
  upsertCase env db e = Ok (caseId, db1) ->
  d1_up env = true /\ events db1 = events db
  /\ ((exists c0, In c0 (cases db) /\ c_key c0 = case_key e /\ c_id c0 = caseId
                  /\ caseId <> ""
                  /\ cases db1 = map (fun c => if String.eqb (c_id c) caseId
                                               then set_last_seen (ts e) c else c)
                                   (cases db))
      \/ (caseId = randomUUID env
          /\ Forall (fun c => c_id c <> caseId) (cases db)
          /\ cases db1 = cases db ++ [new_case caseId (case_key e) e])).
Proof.
  unfold upsertCase, select_case_id, d1 at 1.
  destruct (d1_up env) eqn:Hup; [| done]. cbn [mbind Result_bind].
  assert (Hins :
    (insert_case env db (new_case (randomUUID env) (case_key e) e)
       ≫= (fun db0 => mret (randomUUID env, db0))) = Ok (caseId, db1) ->
    true = true /\ events db1 = events db
    /\ ((exists c0, In c0 (cases db) /\ c_key c0 = case_key e /\ c_id c0 = caseId
                    /\ caseId <> ""
                    /\ cases db1 = map (fun c => if String.eqb (c_id c) caseId
                                                 then set_last_seen (ts e) c else c)
                                     (cases db))
        \/ (caseId = randomUUID env
            /\ Forall (fun c => c_id c <> caseId) (cases db)
            /\ cases db1 = cases db ++ [new_case caseId (case_key e) e]))).
  { unfold insert_case. rewrite d1_up_run by done.
    cbn [c_id c_key new_case].
    destruct (existsb (fun c' => String.eqb (c_id c') (randomUUID env)) (cases db))
      eqn:Hi; [done |].
    destruct (existsb (fun c' => String.eqb (c_key c') (case_key e)) (cases db));
      [done |].
    cbn [mbind Result_bind mret Result_ret].
    intros [= <- <-]. cbn [cases events].
    split; [done |]. split; [done |]. right. split; [done |]. split; [| done].
    apply (existsb_false_Forall c_id) in Hi. by apply fresh_id_Forall. }
  destruct (List.find _ (cases db)) as [c |] eqn:Hfind;
    cbn [fmap option_fmap option_map]; [| exact Hins].
  destruct (truthy (c_id c)) eqn:Htruthy; [| exact Hins].
  unfold update_last_seen. rewrite d1_up_run by done.
  cbn [mbind Result_bind mret Result_ret]. intros [= <- <-]. cbn [cases events].
  split; [done |]. split; [done |]. left.
  apply find_some in Hfind as [Hin Hkey%String.eqb_eq].
  exists c. split; [done |]. split; [done |]. split; [done |].
  split; [by apply truthy_true | done].
Qed.

Lemma same_identity_refl c : same_identity c c.
Proof. unfold same_identity. tauto. Qed.

Lemma same_identity_trans c1 c2 c3 :
  same_identity c1 c2 -> same_identity c2 c3 -> same_identity c1 c3.
Proof. unfold same_identity. intuition congruence. Qed.

Lemma Forall2_same_identity_map (f : CaseRow -> CaseRow) (l : list CaseRow) :
  (forall c, same_identity c (f c)) -> Forall2 same_identity l (map f l).
Proof.
  intros Hf. induction l as [| c l IH]; cbn; constructor; [apply Hf | exact IH].
Qed.

Lemma Forall2_same_identity_trans (l1 l2 l3 : list CaseRow) :
  Forall2 same_identity l1 l2 -> Forall2 same_identity l2 l3 ->
  Forall2 same_identity l1 l3.
Proof.
  intros H12. revert l3. induction H12 as [| c1 c2 l1 l2 Hc _ IH]; intros l3 H23.
  - by inversion H23.
  - inversion H23 as [| ? c3 ? l3' Hc' H23']; subst. constructor.
    + by eapply same_identity_trans.
    + by apply IH.
Qed.

Lemma bump_same_identity id t c :
  same_identity c (if String.eqb (c_id c) id then set_last_seen t c else c).
Proof. destruct (String.eqb _ _); unfold same_identity; cbn; tauto. Qed.

Lemma snapshot_same_identity id t st m a s5 c :
  same_identity c (if String.eqb (c_id c) id then set_snapshot t st m a s5 c else c).
Proof. destruct (String.eqb _ _); unfold same_identity; cbn; tauto. Qed.

(** What a message that was processed leaves: one more event, with the
    fields of the message and the id of a case of its key; the rows of the
    cases that were there, in place, with their identity; and behind them at
    most one new case. *)
Lemma process_effect env db e db' :
  process env db e = Ok db' ->
  exists row prefix new,
    events db' = events db ++ [row]
    /\ e_ts row = ts e /\ e_path row = path e /\ e_method row = method e
    /\ e_ua row = ua e /\ e_action row = action e /\ e_score row = score e
    /\ e_hits row = hits e /\ e_colo row = colo e
    /\ (exists c, In c (cases db') /\ c_id c = e_case_id row
                  /\ c_key c = case_key e)
    /\ cases db' = prefix ++ new
    /\ Forall2 same_identity (cases db) prefix
    /\ (length new <= 1)%nat.
Proof.
  unfold process.
  destruct (upsertCase env db e) as [[caseId db1] |] eqn:Hupsert; [| done].
  apply upsertCase_shape in Hupsert as (Hup & Hev1 & Hshape).
  cbn [mbind Result_bind]. unfold insert_event. rewrite d1_up_run by done.
  destruct (existsb _ (cases db1)); [| done]. cbn [mbind Result_bind].
  unfold recomputeMetrics, select_window. rewrite d1_up_run by done.
  cbn [mbind Result_bind mret Result_ret].
  set (m := metricsOf capacityRPS _).
  set (row := mkEventRow _ caseId _ _ _ _ _ _ _ _).
  assert (Hcore : exists prefix new,
    (exists c, In c (cases db1) /\ c_id c = caseId /\ c_key c = case_key e)
    /\ cases db1 = prefix ++ new
    /\ Forall2 same_identity (cases db) prefix /\ (length new <= 1)%nat).
  { destruct Hshape as [(c0 & Hin & Hkey & Hid & _ & Hcs) | (_ & _ & Hcs)].
    - exists (cases db1), []. split.
      + exists (set_last_seen (ts e) c0). rewrite Hcs. split; [| by cbn].
        apply in_map_iff. exists c0. split; [| done].
        by rewrite Hid, String.eqb_refl.
      + rewrite app_nil_r. split; [done |]. split; [| cbn; lia].
        rewrite Hcs. apply Forall2_same_identity_map. intros c.
        apply bump_same_identity.
    - exists (cases db), [new_case caseId (case_key e) e]. split.
      + exists (new_case caseId (case_key e) e). rewrite Hcs.
        split; [apply in_or_app; right; by left | by cbn].
      + split; [done |]. split; [| cbn; lia].
        rewrite <- (map_id (cases db)) at 2.
        apply Forall2_same_identity_map. intros c. apply same_identity_refl. }
  destruct Hcore as (prefix & new & (c & Hin & Hid & Hkey) & Hcs & Hpre & Hlen).
  unfold materialize, update_snapshot. rewrite d1_up_run by done.
  destruct (trigger m).
  - intros [= <-]. cbn [cases events].
    exists row,
      (map (fun c => if String.eqb (c_id c) caseId
                     then set_snapshot (now_update env) "OPEN" m
                            (buildAbuseReport (zone e) m)
                            (buildSection504Draft (now_draft env) m) c
                     else c) prefix),
      (map (fun c => if String.eqb (c_id c) caseId
                     then set_snapshot (now_update env) "OPEN" m
                            (buildAbuseReport (zone e) m)
                            (buildSection504Draft (now_draft env) m) c
                     else c) new).
    rewrite Hev1. repeat (split; [reflexivity |]). split.
    + eexists. split; [apply in_map, Hin |].
      rewrite Hid, String.eqb_refl. by cbn.
    + split; [by rewrite Hcs, map_app |]. split; [| by rewrite length_map].
      eapply Forall2_same_identity_trans; [exact Hpre |].
      apply Forall2_same_identity_map. intros c'. apply snapshot_same_identity.
  - intros [= <-]. cbn [cases events].
    exists row, prefix, new. rewrite Hev1. repeat (split; [reflexivity |]).
    split; [by exists c |]. done.
Qed.

(** ** What a batch does to the database *)

Lemma Forall2_same_identity_In (l l' : list CaseRow) c :
  Forall2 same_identity l l' -> In c l ->
  exists c', In c' l' /\ same_identity c c'.
Proof.
  induction 1 as [| c1 c2 l l' Hc _ IH]; [done |].
  intros [<- | Hin].
  - exists c2. split; [by left | done].
  - destruct (IH Hin) as (c' & Hin' & Hs). exists c'. split; [by right | done].
Qed.

Lemma records_later (cs cs' pre new : list CaseRow) row e :
  cs' = pre ++ new -> Forall2 same_identity cs pre ->
  records cs row e -> records cs' row e.
Proof.
  intros -> Hpre (H1 & H2 & H3 & H4 & H5 & H6 & H7 & H8 & c & Hin & Hid & Hkey).
  repeat (split; [assumption |]).
  destruct (Forall2_same_identity_In _ _ _ Hpre Hin) as (c' & Hin' & Hs).
  exists c'. split; [apply in_or_app; by left |].
  destruct Hs as (Hi & Hk & _). by rewrite Hi, Hk.
Qed.

(** What each await of the body leaves when it returns. *)
Lemma upsertCase_effect env db e caseId db1 :
  upsertCase env db e = Ok (caseId, db1) ->
  events db1 = events db
  /\ exists prefix new,
      (exists c, In c (cases db1) /\ c_id c = caseId /\ c_key c = case_key e)
      /\ cases db1 = prefix ++ new
      /\ Forall2 same_identity (cases db) prefix /\ (length new <= 1)%nat.
Proof.
  intros Hupsert.
  apply upsertCase_shape in Hupsert as (_ & Hev1 & Hshape).
  split; [exact Hev1 |].
  destruct Hshape as [(c0 & Hin & Hkey & Hid & _ & Hcs) | (_ & _ & Hcs)].
  - exists (cases db1), []. split.
    + exists (set_last_seen (ts e) c0). rewrite Hcs. split; [| by cbn].
      apply in_map_iff. exists c0. split; [| done].
      by rewrite Hid, String.eqb_refl.
    + rewrite app_nil_r. split; [done |]. split; [| cbn; lia].
      rewrite Hcs. apply Forall2_same_identity_map. intros c.
      apply bump_same_identity.
  - exists (cases db), [new_case caseId (case_key e) e]. split.
    + exists (new_case caseId (case_key e) e). rewrite Hcs.
      split; [apply in_or_app; right; by left | by cbn].
    + split; [done |]. split; [| cbn; lia].
      rewrite <- (map_id (cases db)) at 2.
      apply Forall2_same_identity_map. intros c. apply same_identity_refl.
Qed.

Lemma insert_event_effect env db caseId e db2 :
  insert_event env db caseId e = Ok db2 ->
  cases db2 = cases db
  /\ exists row,
      events db2 = events db ++ [row]
      /\ e_case_id row = caseId
      /\ e_ts row = ts e /\ e_path row = path e /\ e_method row = method e
      /\ e_ua row = ua e /\ e_action row = action e /\ e_score row = score e
      /\ e_hits row = hits e /\ e_colo row = colo e.
Proof.
  unfold insert_event, d1. destruct (d1_up env); [| done].
  destruct (existsb _ (cases db)); [| done].
  intros [= <-]. cbn [cases events]. split; [done |].
  eexists. split; [reflexivity |]. by cbn.
Qed.

Lemma materialize_effect env db e caseId m db3 :
  materialize env db e caseId m = Ok db3 ->
  events db3 = events db
  /\ exists f, cases db3 = map f (cases db) /\ forall c, same_identity c (f c).
Proof.
  unfold materialize, update_snapshot, d1. destruct (trigger m).
  - destruct (d1_up env); [| done]. intros [= <-]. cbn [cases events].
    split; [done |]. eexists. split; [reflexivity |].
    intros c. apply snapshot_same_identity.
  - intros [= <-]. split; [done |]. exists (fun c => c).
    split; [by rewrite map_id | apply same_identity_refl].
Qed.

Lemma records_intro cs row e :
  e_ts row = ts e -> e_path row = path e -> e_method row = method e ->
  e_ua row = ua e -> e_action row = action e -> e_score row = score e ->
  e_hits row = hits e -> e_colo row = colo e ->
  (exists c, In c cs /\ c_id c = e_case_id row /\ c_key c = case_key e) ->
  records cs row e.
Proof. intros. unfold records. tauto. Qed.

(** What the body leaves behind, whether it returned or was rejected on the
    way: the cases that were there, in place and with their identity, then at
    most one new case; and the events that were there, then at most one row,
    which records the message; exactly one when the body returned. *)
Lemma process_awaits_effect envs db e db' r :
  process_awaits envs db e = (db', r) ->
  exists prefix new rows,
    cases db' = prefix ++ new
    /\ Forall2 same_identity (cases db) prefix
    /\ (length new <= 1)%nat
    /\ events db' = events db ++ rows
    /\ Forall (fun row => records (cases db') row e) rows
    /\ match r with
       | Ok _ => length rows = 1%nat
       | Rejected _ => (length rows <= 1)%nat
       end.
Proof.
  unfold process_awaits.
  assert (Hrefl : Forall2 same_identity (cases db) (cases db)).
  { rewrite <- (map_id (cases db)) at 2.
    apply Forall2_same_identity_map. intros c. apply same_identity_refl. }
  destruct (upsertCase (envs 0%nat) db e) as [[caseId db1] | reason] eqn:Hupsert.
  2: { intros [= <- <-]. exists (cases db), [], [].
       rewrite !app_nil_r. split; [done |]. split; [done |].
       split; [cbn; lia |]. split; [done |]. split; [constructor | cbn; lia]. }
  apply upsertCase_effect in Hupsert
    as (Hev1 & prefix & new & (c & Hin & Hid & Hkey) & Hcs1 & Hpre & Hlen).
  destruct (insert_event (envs 1%nat) db1 caseId e) as [db2 | reason] eqn:Hins.
  2: { intros [= <- <-]. exists prefix, new, [].
       rewrite app_nil_r. split; [done |]. split; [done |].
       split; [done |]. split; [done |]. split; [constructor | cbn; lia]. }
  apply insert_event_effect in Hins
    as (Hcs2 & row & Hev2 & Hrow & H1 & H2 & H3 & H4 & H5 & H6 & H7 & H8).
  assert (Hrec : records (cases db2) row e).
  { apply records_intro; try assumption.
    exists c. rewrite Hcs2, Hrow. by repeat split. }
  assert (Hstop : forall reason,
    exists prefix0 new0 rows,
      cases db2 = prefix0 ++ new0
      /\ Forall2 same_identity (cases db) prefix0
      /\ (length new0 <= 1)%nat
      /\ events db2 = events db ++ rows
      /\ Forall (fun row => records (cases db2) row e) rows
      /\ match @Rejected unit reason with
         | Ok _ => length rows = 1%nat
         | Rejected _ => (length rows <= 1)%nat
         end).
  { intros reason. exists prefix, new, [row].
    split; [by rewrite Hcs2 |]. split; [done |]. split; [done |].
    split; [by rewrite Hev2, Hev1 |]. split; [by constructor | cbn; lia]. }
  destruct (recomputeMetrics (envs 2%nat) db2 caseId) as [m | reason];
    [| intros [= <- <-]; apply (Hstop reason)].
  destruct (materialize (envs 3%nat) db2 e caseId m) as [db3 | reason] eqn:Hmat;
    [| intros [= <- <-]; apply (Hstop reason)].
  intros [= <- <-].
  apply materialize_effect in Hmat as (Hev3 & f & Hcs3 & Hf).
  exists (map f prefix), (map f new), [row].
  split; [by rewrite Hcs3, Hcs2, Hcs1, map_app |].
  split.
  { eapply Forall2_same_identity_trans; [exact Hpre |].
    by apply Forall2_same_identity_map. }
  split; [by rewrite length_map |].
  split; [by rewrite Hev3, Hev2, Hev1 |].
  split; [| done]. constructor; [| constructor].
  apply (records_later (cases db2) _ (map f (cases db2)) []).
  - by rewrite app_nil_r.
  - by apply Forall2_same_identity_map.
  - exact Hrec.
Qed.

(** What a batch leaves behind when the awaits fail one by one. *)
Lemma queue_awaits_from_effect world i db acks messages :
  let out := queue_awaits_from world i db acks messages in
  exists k rows extra prefix new,
    acked out = acks ++ (msg_id <$> take k messages)
    /\ events (final_db out) = events db ++ rows ++ extra
    /\ Forall2 (records (cases (final_db out))) rows (body <$> take k messages)
    /\ cases (final_db out) = prefix ++ new
    /\ Forall2 same_identity (cases db) prefix
    /\ match completed out with
       | Ok _ => k = length messages /\ extra = [] /\ (length new <= k)%nat
       | Rejected _ =>
           (length new <= S k)%nat /\ (length extra <= 1)%nat
           /\ exists msg,
               messages !! k = Some msg
               /\ Forall (fun row => records (cases (final_db out)) row (body msg))
                    extra
       end.
Proof.
  revert i db acks. induction messages as [| msg rest IH]; intros i db acks.
  - exists 0%nat, [], [], (cases db), []. cbn. rewrite !app_nil_r.
    split; [done |]. split; [done |]. split; [constructor |].
    split; [done |]. split; [| done].
    rewrite <- (map_id (cases db)) at 2.
    apply Forall2_same_identity_map. intros c. apply same_identity_refl.
  - cbn [queue_awaits_from].
    destruct (process_awaits (world i) db (body msg)) as [db' r] eqn:Hp.
    destruct (process_awaits_effect _ _ _ _ _ Hp)
      as (pre1 & new1 & rows1 & Hcs1 & Hpre1 & Hlen1 & Hev1 & Hrec1 & Hrows1).
    destruct r as [[] | reason].
    + destruct rows1 as [| row [| row' rows1]]; [done | | done].
      apply Forall_cons in Hrec1 as [Hrow _].
      destruct (IH (S i) db' (acks ++ [msg_id msg]))
        as (k & rows & extra & pre & new & Hacks & Hevs & Hrec & Hcs & Hpre & Hdone).
      cbn zeta in *.
      rewrite Hcs1 in Hpre.
      apply Forall2_app_inv_l in Hpre as (p1 & n1 & Hp1 & Hn1 & ->).
      exists (S k), (row :: rows), extra, p1, (n1 ++ new).
      split; [by rewrite Hacks, <- app_assoc |].
      split; [by rewrite Hevs, Hev1, <- !app_assoc |].
      split.
      { cbn [take fmap list_fmap]. constructor; [| exact Hrec].
        apply (records_later (cases db') _ (p1 ++ n1) new).
        - exact Hcs.
        - rewrite Hcs1. by apply Forall2_app.
        - exact Hrow. }
      split; [by rewrite Hcs, <- app_assoc |].
      split; [by eapply Forall2_same_identity_trans |].
      apply Forall2_length in Hn1.
      destruct (completed _).
      * destruct Hdone as (-> & -> & Hnew). split; [done |]. split; [done |].
        rewrite length_app. lia.
      * destruct Hdone as (Hnew & Hextra & msg' & Hmsg' & Hrec').
        split; [rewrite length_app; lia |]. split; [done |].
        exists msg'. by split.
    + exists 0%nat, [], rows1, pre1, new1. cbn [completed final_db acked take].
      cbn [fmap list_fmap]. rewrite app_nil_r.
      split; [done |]. split; [done |]. split; [constructor |].
      split; [done |]. split; [done |].
      split; [lia |]. split; [done |]. exists msg. by split.
Qed.

(** X12. A batch whose awaits may each be rejected: the acknowledged messages
    are the first [k] of the batch; the events table is the old one followed
    by one row per acknowledged message, in the order of the batch, each with
    the fields of its message and the id of a case of its key; and, when the
    handler threw, by at most one more row, which records the message that
    was not acknowledged: its insert is not undone by the later rejection. *)
Theorem queue_awaits_records world db messages :
  let out := queue_awaits world db messages in
  exists k rows extra,
    acked out = msg_id <$> take k messages
    /\ events (final_db out) = events db ++ rows ++ extra
    /\ Forall2 (records (cases (final_db out))) rows (body <$> take k messages)
    /\ match completed out with
       | Ok _ => k = length messages /\ extra = []
       | Rejected _ =>
           (length extra <= 1)%nat
           /\ exists msg,
               messages !! k = Some msg
               /\ Forall (fun row => records (cases (final_db out)) row (body msg))
                    extra
       end.
Proof.
  destruct (queue_awaits_from_effect world 0 db [] messages)
    as (k & rows & extra & _ & new & Hacks & Hevs & Hrec & _ & _ & Hdone).
  exists k, rows, extra. cbn zeta in *.
  split; [exact Hacks |]. split; [exact Hevs |]. split; [exact Hrec |].
  unfold queue_awaits. destruct (completed _); tauto.
Qed.

(** X13. A batch never deletes, reorders or re-identifies a case, wherever it
    is rejected: the cases that were there are still there, in place, with
    the same id, key, zone, ip, asn, country and [first_seen]; behind them
    come the new cases, at most one per acknowledged message, and one more
    when the handler threw. *)
Theorem queue_awaits_keeps_cases world db messages :
  let out := queue_awaits world db messages in
  exists prefix new,
    cases (final_db out) = prefix ++ new
    /\ Forall2 same_identity (cases db) prefix
    /\ (length new <= length (acked out)
                      + match completed out with Ok _ => 0 | Rejected _ => 1 end)%nat.
Proof.
  destruct (queue_awaits_from_effect world 0 db [] messages)
    as (k & rows & extra & prefix & new & Hacks & Hevs & Hrec & Hcs & Hpre & Hdone).
  exists prefix, new. split; [exact Hcs |]. split; [exact Hpre |].
  cbn zeta in *. apply Forall2_length in Hrec. rewrite length_fmap in Hrec.
  unfold queue_awaits. rewrite Hacks. cbn [app]. rewrite length_fmap.
  rewrite length_take.
  destruct (completed _).
  - destruct Hdone as (-> & _ & Hnew). lia.
  - destruct Hdone as (Hnew & _ & msg & Hmsg%lookup_lt_Some & _). lia.
Qed.

(** When D1 gives one answer for all the awaits of a message, the body is
    [process]: a rejection can then only come from [upsertCase], before
    anything is written. *)
Lemma process_awaits_uniform env db e :
  process_awaits (fun _ => env) db e
  = match process env db e with
    | Ok db' => (db', Ok tt)
    | Rejected reason => (db, Rejected reason)
    end.
Proof.
  unfold process_awaits, process.
  destruct (upsertCase env db e) as [[caseId db1] | reason] eqn:Hupsert; [| done].
  cbn [mbind Result_bind].
  pose proof (upsertCase_shape _ _ _ _ _ Hupsert) as (Hup & _ & _).
  apply upsertCase_effect in Hupsert as (_ & _ & _ & (c & Hin & Hid & _) & _).
  assert (Hex : existsb (fun c => String.eqb (c_id c) caseId) (cases db1) = true).
  { apply existsb_exists. exists c. split; [done |]. by apply String.eqb_eq. }
  unfold insert_event at 1 2. rewrite d1_up_run by done. rewrite Hex.
  cbn [mbind Result_bind].
  unfold recomputeMetrics, select_window. rewrite d1_up_run by done.
  cbn [mbind Result_bind mret Result_ret].
  unfold materialize, update_snapshot. rewrite d1_up_run by done.
  by destruct (trigger _).
Qed.

Lemma queue_awaits_from_uniform world i db acks messages :
  queue_awaits_from (fun j _ => world j) i db acks messages
  = queue_from world i db acks messages.
Proof.
  revert i db acks. induction messages as [| msg rest IH]; intros i db acks;
    [done |].
  cbn [queue_awaits_from queue_from].
  rewrite (process_awaits_uniform (world i)).
  destruct (process (world i) db (body msg)); [apply IH | done].
Qed.

(** So [queue] is [queue_awaits] in the worlds where the answer of D1 does
    not change within a message. *)
Lemma queue_awaits_uniform world db messages :
  queue_awaits (fun j _ => world j) db messages = queue world db messages.
Proof. apply queue_awaits_from_uniform. Qed.

(** The body keeps the constraints of the schema wherever it stops. *)
Lemma process_awaits_cases_ok envs db e db' r :
  cases_ok (cases db) -> randomUUID (envs 0%nat) <> "" ->
  process_awaits envs db e = (db', r) -> cases_ok (cases db').
Proof.
  intros Hok Huuid. unfold process_awaits.
  destruct (upsertCase (envs 0%nat) db e) as [[caseId db1] | reason] eqn:Hupsert;
    [| by intros [= <- <-]].
  apply upsertCase_cases_ok in Hupsert as (Hok1 & _ & _); [| done | done].
  destruct (insert_event (envs 1%nat) db1 caseId e) as [db2 | reason] eqn:Hins;
    [| by intros [= <- <-]].
  apply insert_event_effect in Hins as (Hcs2 & _). rewrite <- Hcs2 in Hok1.
  destruct (recomputeMetrics (envs 2%nat) db2 caseId) as [m | reason];
    [| by intros [= <- <-]].
  destruct (materialize (envs 3%nat) db2 e caseId m) as [db3 | reason] eqn:Hmat;
    [| by intros [= <- <-]].
  intros [= <- <-].
  apply materialize_effect in Hmat as (_ & f & -> & Hf).
  apply cases_ok_map; [| done].
  intros c. destruct (Hf c) as (Hi & Hk & _). by split.
Qed.

Lemma queue_awaits_from_cases_ok world i db acks messages :
  cases_ok (cases db) ->
  (forall j, randomUUID (world j 0%nat) <> "") ->
  cases_ok (cases (final_db (queue_awaits_from world i db acks messages))).
Proof.
  intros Hok Huuid. revert i db acks Hok.
  induction messages as [| msg rest IH]; intros i db acks Hok; [done |].
  cbn [queue_awaits_from].
  destruct (process_awaits (world i) db (body msg)) as [db' r] eqn:Hp.
  apply process_awaits_cases_ok in Hp; [| done | done].
  destruct r as [[] | reason]; [by apply IH | done].
Qed.

(** X26. A batch keeps the constraints of the schema on [cases] (unique ids,
    unique keys, no empty id) at whichever await it is rejected, as long as
    the fresh ids are not empty: the states left by a rejection in the middle
    of a message satisfy them too. *)
Theorem queue_awaits_keeps_constraints world db messages :
  cases_ok (cases db) ->
  (forall j, randomUUID (world j 0%nat) <> "") ->
  cases_ok (cases (final_db (queue_awaits world db messages))).
Proof. intros Hok Huuid. by apply queue_awaits_from_cases_ok. Qed.

Lemma queue_from_cases_ok world i db acks messages :
  cases_ok (cases db) ->
  (forall j, randomUUID (world j) <> "") ->
  cases_ok (cases (final_db (queue_from world i db acks messages))).
Proof.
  intros Hok Huuid. revert i db acks Hok.
  induction messages as [| msg rest IH]; intros i db acks Hok; [done |].
  cbn [queue_from].
  destruct (process (world i) db (body msg)) as [db' | reason] eqn:Hp; [| done].
  apply IH. by eapply process_cases_ok.
Qed.

(** X14. A batch keeps the constraints of the schema on [cases] (unique ids,
    unique keys, no empty id), whatever fails on the way, as long as the
    fresh ids are not empty. *)
Theorem queue_keeps_constraints world db messages :
  cases_ok (cases db) ->
  (forall j, randomUUID (world j) <> "") ->
  cases_ok (cases (final_db (queue world db messages))).
Proof. intros Hok Huuid. by apply queue_from_cases_ok. Qed.

(** ** When a message is rejected, and what a redelivery does *)

Lemma upsertCase_found env db e l1 c l2 :
  d1_up env = true -> cases_ok (cases db) ->
  cases db = l1 ++ c :: l2 -> c_key c = case_key e ->
  upsertCase env db e
  = Ok (c_id c, mkDB (l1 ++ set_last_seen (ts e) c :: l2) (events db)).
Proof.
  intros Hup (Hids & Hkeys & Hne) Hl Hkey.
  rewrite Hl in Hids, Hkeys, Hne.
  apply NoDup_fmap_split in Hids as [Hid1 Hid2].
  apply NoDup_fmap_split in Hkeys as [Hk1 Hk2].
  rewrite Hkey in Hk1.
  apply Forall_app in Hne as [_ [Hne _]%Forall_cons].
  by apply upsertCase_existing.
Qed.

(** Once [upsertCase] has returned, with D1 answering, the rest of the
    processing returns too, and leaves as many cases. *)
Lemma process_after_upsert env db e caseId db1 :
  d1_up env = true ->
  upsertCase env db e = Ok (caseId, db1) ->
  (exists c, In c (cases db1) /\ c_id c = caseId) ->
  exists db' row,
    process env db e = Ok db'
    /\ length (cases db') = length (cases db1)
    /\ events db' = events db1 ++ [row] /\ e_case_id row = caseId.
Proof.
  intros Hup Hupsert (c & Hin & Hid). unfold process. rewrite Hupsert.
  cbn [mbind Result_bind]. unfold insert_event. rewrite d1_up_run by done.
  replace (existsb _ (cases db1)) with true.
  2:{ symmetry. apply existsb_exists. exists c. split; [done |].
      rewrite Hid. apply String.eqb_refl. }
  cbn [mbind Result_bind]. unfold recomputeMetrics, select_window.
  rewrite d1_up_run by done. cbn [mbind Result_bind mret Result_ret].
  unfold materialize, update_snapshot. rewrite d1_up_run by done.
  destruct (trigger _); do 2 eexists; (split; [reflexivity |]); cbn [cases events];
    rewrite ?length_map; by repeat split.
Qed.

(** X15. On a table that satisfies the constraints, processing a message is
    rejected in exactly two situations: D1 does not answer, or no case has
    the key of the message and the fresh id is already the id of a case. *)
Theorem process_rejected_exactly env db e :
  cases_ok (cases db) ->
  (exists reason, process env db e = Rejected reason)
  <-> (d1_up env = false
       \/ (Forall (fun c => c_key c <> case_key e) (cases db)
           /\ randomUUID env ∈ (c_id <$> cases db))).
Proof.
  intros Hok. split.
  - intros [reason Hrej].
    destruct (d1_up env) eqn:Hup; [right | by left].
    destruct (key_dichotomy (case_key e) (cases db))
      as [(l1 & c & l2 & Hl & Hkey) | Hnokey].
    + pose proof (upsertCase_found env db e l1 c l2 Hup Hok Hl Hkey) as Hupsert.
      destruct (process_after_upsert env db e _ _ Hup Hupsert) as (db' & row & Hp & _).
      { exists (set_last_seen (ts e) c). split; [| done].
        cbn [cases]. apply in_or_app. right. by left. }
      congruence.
    + split; [exact Hnokey |].
      destruct (decide (randomUUID env ∈ (c_id <$> cases db))) as [Hin | Hfresh];
        [exact Hin |].
      pose proof (upsertCase_new env db e Hup Hnokey (fresh_id_Forall _ _ Hfresh))
        as Hupsert.
      destruct (process_after_upsert env db e _ _ Hup Hupsert) as (db' & row & Hp & _).
      { exists (new_case (randomUUID env) (case_key e) e). split; [| done].
        cbn [cases]. apply in_or_app. right. by left. }
      congruence.
  - intros [Hdown | [Hnokey Hclash]].
    + exists "D1_ERROR". unfold process, upsertCase, select_case_id, d1.
      by rewrite Hdown.
    + destruct (d1_up env) eqn:Hup.
      * exists "UNIQUE constraint failed: cases.id".
        unfold process, upsertCase, select_case_id, insert_case.
        rewrite !d1_up_run by done. rewrite find_key_absent by done.
        cbn [fmap option_fmap option_map mbind Result_bind c_id new_case].
        replace (existsb _ (cases db)) with true; [done |].
        symmetry. apply existsb_exists.
        apply list_elem_of_fmap in Hclash as (c & Hc & Hin).
        exists c. split; [by apply list_elem_of_In |].
        rewrite Hc. apply String.eqb_refl.
      * exists "D1_ERROR". unfold process, upsertCase, select_case_id, d1.
        by rewrite Hup.
Qed.

(** X16. A message that is delivered and processed twice leaves one case but
    two event rows: the second processing finds the case of the first (no row
    is added to [cases]) and appends a second event with the same case id. *)
Theorem redelivery_duplicates_event env1 env2 db e db1 db2 :
  cases_ok (cases db) -> randomUUID env1 <> "" ->
  process env1 db e = Ok db1 ->
  process env2 db1 e = Ok db2 ->
  length (cases db2) = length (cases db1)
  /\ exists r1 r2,
      events db2 = events db ++ [r1; r2]
      /\ e_case_id r1 = e_case_id r2
      /\ e_ts r1 = ts e /\ e_ts r2 = ts e
      /\ e_action r1 = action e /\ e_action r2 = action e.
Proof.
  intros Hok Huuid Hp1 Hp2.
  pose proof (process_cases_ok env1 db e db1 Hok Huuid Hp1) as Hok1.
  destruct (process_effect _ _ _ _ Hp1)
    as (r1 & _ & _ & Hev1 & Hts1 & _ & _ & _ & Hact1 & _ & _ & _
        & (c & Hin & Hid & Hkey) & _).
  assert (Hup2 : d1_up env2 = true).
  { destruct (d1_up env2) eqn:E; [done |].
    unfold process, upsertCase, select_case_id, d1 in Hp2. by rewrite E in Hp2. }
  apply list_elem_of_In, list_elem_of_split in Hin as (l1 & l2 & Hl).
  pose proof (upsertCase_found env2 db1 e l1 c l2 Hup2 Hok1 Hl Hkey) as Hupsert.
  destruct (process_after_upsert env2 db1 e _ _ Hup2 Hupsert)
    as (db2' & r2 & Hp2' & Hlen & Hev2 & Hid2).
  { exists (set_last_seen (ts e) c). split; [| done].
    cbn [cases]. apply in_or_app. right. by left. }
  rewrite Hp2 in Hp2'. injection Hp2' as <-.
  cbn [cases] in Hlen. cbn [events] in Hev2.
  split.
  - rewrite Hlen, Hl, !length_app. by cbn.
  - destruct (process_effect _ _ _ _ Hp2)
      as (r2' & _ & _ & Hev2' & Hts2 & _ & _ & _ & Hact2 & _).
    rewrite Hev2 in Hev2'. apply app_inj_tail in Hev2' as [_ <-].
    exists r1, r2. rewrite Hev2, Hev1, <- app_assoc.
    split; [done |]. split; [congruence |]. by repeat split.
Qed.

(** ** The key of a case *)

Lemma has_char_cons c d s : has_char c (String d s) <-> d = c \/ has_char c s.
Proof. reflexivity. Qed.

Lemma pretty_N_go_no_colon x s :
  ~ has_char ":" s -> ~ has_char ":" (pretty_N_go x s).
Proof.
  revert s. induction (N.lt_wf_0 x) as [x _ IH]; intros s Hs.
  assert (x = 0 \/ 0 < x)%N as [-> | Hx] by lia.
  - by rewrite pretty_N_go_0.
  - rewrite pretty_N_go_step by done. apply IH; [by apply N.div_lt |].
    rewrite has_char_cons. intros [Hd | Hin]; [| done].
    revert Hd. unfold pretty_N_char. by repeat case_match.
Qed.

Lemma pretty_Z_no_colon (z : Z) : ~ has_char ":" (pretty z).
Proof.
  assert (HN : forall n : N, ~ has_char ":" (pretty n)).
  { intros n. unfold pretty, pretty_N. case_decide.
    - cbn. intros [Hc | []]. discriminate.
    - apply pretty_N_go_no_colon. intros []. }
  destruct z as [| p | p]; unfold pretty, pretty_Z.
  - cbn. intros [Hc | []]. discriminate.
  - apply (HN (Npos p)).
  - change ("-" +:+ pretty p) with (String "-" (pretty (Npos p))).
    rewrite has_char_cons. intros [Hc | Hc]; [discriminate | by apply (HN (Npos p))].
Qed.

(** Two strings cut at their first [c] are equal part by part. *)
Lemma append_first_inj c (z1 z2 r1 r2 : string) :
  ~ has_char c z1 -> ~ has_char c z2 ->
  z1 +:+ String c r1 = z2 +:+ String c r2 -> z1 = z2 /\ r1 = r2.
Proof.
  revert z2. induction z1 as [| a z1 IH]; intros [| b z2] H1 H2 Heq; cbn in Heq.
  - by injection Heq as ->.
  - injection Heq as <- _. exfalso. apply H2. by left.
  - injection Heq as -> _. exfalso. apply H1. by left.
  - injection Heq as -> Heq. rewrite has_char_cons in H1, H2.
    destruct (IH z2) as [-> ->]; [tauto | tauto | done | done].
Qed.

Lemma has_char_append c (s1 s2 : string) :
  has_char c (s1 +:+ s2) <-> has_char c s1 \/ has_char c s2.
Proof.
  induction s1 as [| a s1 IH]; cbn.
  - unfold has_char at 2. cbn. tauto.
  - change (has_char c (String a (s1 +:+ s2))
            <-> has_char c (String a s1) \/ has_char c s2).
    rewrite !has_char_cons, IH. tauto.
Qed.

(** Two strings cut at their last [c] are equal part by part. *)
Lemma append_last_inj c (l1 l2 p1 p2 : string) :
  ~ has_char c p1 -> ~ has_char c p2 ->
  l1 +:+ String c p1 = l2 +:+ String c p2 -> l1 = l2 /\ p1 = p2.
Proof.
  revert l2. induction l1 as [| a l1 IH]; intros [| b l2] H1 H2 Heq; cbn in Heq.
  - by injection Heq as ->.
  - injection Heq as <- Heq. exfalso. apply H1. rewrite Heq.
    apply has_char_append. right. by left.
  - injection Heq as -> Heq. exfalso. apply H2. rewrite <- Heq.
    apply has_char_append. right. by left.
  - injection Heq as -> Heq. destruct (IH l2 H1 H2 Heq) as [-> ->]. done.
Qed.

(** X17. Messages whose zones contain no colon have the same case key only
    when they have the same zone, ip and asn: cases of different identities
    are never merged, also for IPv6 addresses. *)
Theorem case_key_injective e1 e2 :
  ~ has_char ":" (zone e1) -> ~ has_char ":" (zone e2) ->
  case_key e1 = case_key e2 ->
  zone e1 = zone e2 /\ ip e1 = ip e2 /\ asn e1 = asn e2.
Proof.
  intros Hz1 Hz2 Heq. unfold case_key in Heq.
  change (zone e1 +:+ String ":" (ip e1 +:+ String ":" (pretty (asn e1)))
          = zone e2 +:+ String ":" (ip e2 +:+ String ":" (pretty (asn e2)))) in Heq.
  apply append_first_inj in Heq as [Hz Hrest]; [| done | done].
  apply append_last_inj in Hrest as [Hip Hasn];
    [| apply pretty_Z_no_colon | apply pretty_Z_no_colon].
  apply (inj pretty) in Hasn. done.
Qed.

(** With a colon in the zone the key is ambiguous. *)
Example case_key_collision :
  case_key (mkEventMsg 0 "1:2" 7 "" "" "" "" "" 0 0 "z" "")
  = case_key (mkEventMsg 0 "2" 7 "" "" "" "" "" 0 0 "z:1" "").
Proof. reflexivity. Qed.

End IngestorExtras.

(* ================================================================== *)
(** * Properties of the Worker in front of the limiter                  *)
(* ================================================================== *)

Section EdgeFacts.
Import EdgeWorker Notions.

(** ** Splitting and decoding *)

Lemma has_char_String c d s : has_char c (String d s) <-> d = c \/ has_char c s.
Proof. reflexivity. Qed.

Lemma split_on_nonempty sep s : split_on sep s <> [].
Proof.
  destruct s as [| c s]; cbn [split_on]; [done |].
  destruct (Ascii.eqb c sep); [done |]. by destruct (split_on sep s).
Qed.

Lemma split_on_no_sep sep s : ~ has_char sep s -> split_on sep s = [s].
Proof.
  induction s as [| c s IH]; intros Hs; [done |]. cbn [split_on].
  rewrite has_char_String in Hs.
  destruct (Ascii.eqb_spec c sep) as [-> | _]; [tauto |].
  rewrite IH by tauto. done.
Qed.

Lemma split_on_append sep s1 s2 :
  split_on sep (s1 +:+ String sep s2) = split_on sep s1 ++ split_on sep s2.
Proof.
  induction s1 as [| c s1 IH].
  - change (split_on sep (String sep s2) = [""] ++ split_on sep s2).
    cbn [split_on]. by rewrite Ascii.eqb_refl.
  - change (split_on sep (String c (s1 +:+ String sep s2))
            = split_on sep (String c s1) ++ split_on sep s2).
    cbn [split_on].
    destruct (Ascii.eqb c sep); [by rewrite IH |].
    rewrite IH. pose proof (split_on_nonempty sep s1).
    by destruct (split_on sep s1).
Qed.

Lemma has_char_split sep c s x :
  In x (split_on sep s) -> has_char c x -> has_char c s.
Proof.
  revert x. induction s as [| d s IH]; intros x; cbn [split_on].
  - intros [<- | []]. done.
  - destruct (Ascii.eqb d sep).
    + intros [<- | Hin] Hx; [destruct Hx |]. rewrite has_char_String. right. eauto.
    + pose proof (split_on_nonempty sep s).
      destruct (split_on sep s) as [| y ys] eqn:E; [done |].
      intros [<- | Hin] Hx; rewrite has_char_String.
      * rewrite has_char_String in Hx. destruct Hx as [-> | Hx]; [by left |].
        right. apply (IH y); [by left | done].
      * right. apply (IH x); [by right | done].
Qed.

Lemma has_char_trim_start c s : has_char c (trim_start s) -> has_char c s.
Proof.
  induction s as [| d s IH]; [done |]. cbn [trim_start].
  destruct (is_space d); [| done]. intros H. rewrite has_char_String. eauto.
Qed.

Lemma has_char_trim_end c s : has_char c (trim_end s) -> has_char c s.
Proof.
  induction s as [| d s IH]; [done |]. cbn [trim_end].
  destruct (trim_end s) as [| e t] eqn:E.
  - destruct (is_space d); [intros [] |].
    rewrite !has_char_String. intros [-> | []]. by left.
  - rewrite !has_char_String. intros [-> | H]; [by left | right; by apply IH].
Qed.

Lemma has_char_trim c s : has_char c (trim s) -> has_char c s.
Proof. intros H. by apply has_char_trim_start, has_char_trim_end. Qed.

(** Without a percent sign nothing is decoded, and nothing is rejected. *)
Lemma decode_plain s :
  ~ has_char "%" s -> decodeURIComponent s = CaseIngestor.Ok (code_units s).
Proof.
  unfold decodeURIComponent, code_units.
  induction s as [| c s IH]; intros Hs; [done |].
  rewrite has_char_String in Hs. cbn [decode_from decode_step].
  destruct (Ascii.eqb_spec c "%") as [-> | _]; [tauto |].
  rewrite IH by tauto. done.
Qed.

(** An escape that the string cuts short is rejected, wherever the decoder
    stands. *)
Lemma decode_dangling st s :
  decode_from st (s +:+ "%") = CaseIngestor.Rejected "URIError".
Proof.
  revert st. induction s as [| c s IH]; intros st.
  - destruct st as [| pending | pending hi | remaining octets]; reflexivity.
  - change (String c s +:+ "%") with (String c (s +:+ "%")). cbn [decode_from].
    destruct (decode_step st c) as [[out st'] | reason] eqn:E.
    + by rewrite IH.
    + revert E. unfold decode_step.
      destruct st as [| pending | pending hi | remaining octets];
        repeat case_match; congruence.
Qed.

(** ** Cookies *)

Lemma parse_parts_app out l1 l2 :
  parse_parts out (l1 ++ l2)
  = match parse_parts out l1 with
    | CaseIngestor.Ok out' => parse_parts out' l2
    | CaseIngestor.Rejected reason => CaseIngestor.Rejected reason
    end.
Proof.
  revert out. induction l1 as [| p l1 IH]; intros out; [done |]. cbn.
  destruct (parse_part out p); [apply IH | done].
Qed.

Lemma parseCookies_append h1 h2 :
  parseCookies (h1 +:+ String ";" h2)
  = match parseCookies h1 with
    | CaseIngestor.Ok out => parse_parts out (split_on ";" h2)
    | CaseIngestor.Rejected reason => CaseIngestor.Rejected reason
    end.
Proof. unfold parseCookies. by rewrite split_on_append, parse_parts_app. Qed.

Lemma parse_part_plain out p :
  ~ has_char "%" p -> exists out', parse_part out p = CaseIngestor.Ok out'.
Proof.
  intros Hp. unfold parse_part.
  destruct (split_on "=" p) as [| k [| v rest]] eqn:E; [by eexists .. |].
  destruct (truthy k && truthy v); [| by eexists].
  rewrite decode_plain; [by eexists |].
  intros H%has_char_trim. apply Hp, (has_char_split "=" _ _ v); [| done].
  rewrite E. right. by left.
Qed.

Lemma parse_parts_plain out parts :
  Forall (fun p => ~ has_char "%" p) parts ->
  exists out', parse_parts out parts = CaseIngestor.Ok out'.
Proof.
  intros Hall. revert out. induction Hall as [| p parts Hp _ IH]; intros out.
  - by eexists.
  - cbn. destruct (parse_part_plain out p Hp) as [out' ->]. apply IH.
Qed.

(** X18. A Cookie header without a percent sign is always parsed, whatever
    its shape: pairs without [=], with an empty name or an empty value are
    skipped, never rejected. *)
Theorem parseCookies_plain_total header :
  ~ has_char "%" header ->
  exists cookies, parseCookies header = CaseIngestor.Ok cookies.
Proof.
  intros Hh. apply parse_parts_plain, Forall_forall. intros p Hp H.
  apply Hh, (has_char_split ";" _ _ p); [by apply list_elem_of_In | done].
Qed.

Lemma parseCookies_plain_total_witness :
  ~ has_char "%" "a=1; b; =c; d=; e=f=g"
  /\ exists cookies, parseCookies "a=1; b; =c; d=; e=f=g" = CaseIngestor.Ok cookies.
Proof.
  assert (H : ~ has_char "%" "a=1; b; =c; d=; e=f=g").
  { unfold has_char. cbn. intros Hin.
    repeat (destruct Hin as [Hin | Hin]; [discriminate |]). done. }
  split; [exact H |]. by apply parseCookies_plain_total.
Defined.

(** ** The handler *)

(** A request that is not exempt goes through the cookie, the limiter and
    the queue. *)
Lemma fetch_not_exempt platform w request :
  ~ exempt request ->
  fetch platform w request
  = match parseCookies (default "" (req_cookie request)) with
    | CaseIngestor.Rejected reason => CaseIngestor.Rejected reason
    | CaseIngestor.Ok cookies =>
        let r := limit_request request (wasp_ok cookies) in
        let name := object_name (client_ip request) (client_asn request) in
        let result := WaspEdge.fetch (now_limiter platform)
                        (default ∅ (objects w !! name)) r in
        CaseIngestor.Ok
          (respond platform (WaspEdge.action (snd result)),
           mkWorld (<[name := fst result]> (objects w))
             (sent w ++
              [CaseIngestor.mkEventMsg (now_event platform) (client_ip request)
                 (client_asn request)
                 (default "XX" (cf_country (client_cf request)))
                 (default "" (req_user_agent request))
                 (req_pathname request) (req_method request)
                 (action_name (WaspEdge.action (snd result)))
                 (inject_Z (WaspEdge.v_score (snd result)))
                 (WaspEdge.v_hits (snd result))
                 (default "" (cf_zoneName (client_cf request)))
                 (default "" (cf_colo (client_cf request)))]))
    end.
Proof.
  intros Hex. unfold exempt in Hex. unfold fetch.
  destruct (String.prefix "/healthz" (req_pathname request)); [tauto |].
  destruct (String.prefix "/status" (req_pathname request)); [tauto |].
  cbn [orb].
  destruct (String.eqb_spec (req_pathname request) "/__wasp/turnstile") as [Hp | _];
    [| reflexivity].
  destruct (String.eqb_spec (req_method request) "POST") as [Hm | _];
    [tauto | reflexivity].
Qed.

Lemma fetch_exempt platform w request response w' :
  exempt request ->
  fetch platform w request = CaseIngestor.Ok (response, w') -> w' = w.
Proof.
  intros Hex. unfold fetch.
  destruct (String.prefix "/healthz" (req_pathname request)) eqn:Hh;
    [by intros [= _ <-] |].
  destruct (String.prefix "/status" (req_pathname request)) eqn:Hs;
    [by intros [= _ <-] |].
  cbn [orb]. destruct Hex as [Hex | [Hex | [-> ->]]]; [congruence .. |].
  cbn [String.eqb Ascii.eqb Bool.eqb andb].
  destruct (req_form request) as [field |]; [| done].
  destruct (verifyTurnstile platform _ _) as [[|] |]; [| | done];
    by intros [= _ <-].
Qed.

(** X19. Apart from the exempt requests, what a request that is answered
    leaves behind is exactly this: one event at the end of the queue, and a
    new storage for the Durable Object named after the client's ip and asn,
    every other object being untouched; the answer is the one of the action
    of the event, and the hits and score of the event are those of the
    bucket just stored under [ip:<ip>].  An exempt request leaves nothing. *)
Theorem edge_request_effects platform w request response w' :
  fetch platform w request = CaseIngestor.Ok (response, w') ->
  (exempt request /\ w' = w)
  \/ (~ exempt request
      /\ exists a storage' b event,
          response = respond platform a
          /\ objects w' = <[object_name (client_ip request) (client_asn request)
                            := storage']> (objects w)
          /\ sent w' = sent w ++ [event]
          /\ storage' !! ("ip:" +:+ client_ip request) = Some b
          /\ CaseIngestor.action event = action_name a
          /\ CaseIngestor.hits event = WaspEdge.hits b
          /\ CaseIngestor.score event = inject_Z (WaspEdge.score b)
          /\ CaseIngestor.ip event = client_ip request
          /\ CaseIngestor.asn event = client_asn request
          /\ CaseIngestor.path event = req_pathname request
          /\ CaseIngestor.method event = req_method request
          /\ CaseIngestor.ts event = now_event platform).
Proof.
  intros Hfetch.
  assert (Hdec : exempt request \/ ~ exempt request).
  { unfold exempt.
    destruct (String.prefix "/healthz" (req_pathname request)); [by left; left |].
    destruct (String.prefix "/status" (req_pathname request));
      [by left; right; left |].
    destruct (String.eqb_spec (req_pathname request) "/__wasp/turnstile");
      [| right; intros [? | [? | [? ?]]]; congruence].
    destruct (String.eqb_spec (req_method request) "POST");
      [by left; right; right | right; intros [? | [? | [? ?]]]; congruence]. }
  destruct Hdec as [Hex | Hex].
  - left. split; [exact Hex |]. by eapply fetch_exempt.
  - right. split; [exact Hex |].
    rewrite (fetch_not_exempt _ _ _ Hex) in Hfetch.
    destruct (parseCookies _) as [cookies |]; [| done].
    cbv zeta in Hfetch. injection Hfetch as <- <-.
    cbn [objects sent].
    do 4 eexists. split; [reflexivity |]. split; [reflexivity |].
    split; [reflexivity |]. split; [apply lookup_insert_eq |].
    by repeat split.
Qed.

Lemma trim_start_percent v : trim_start (v +:+ "%") = trim_start v +:+ "%".
Proof.
  induction v as [| c v IH]; [reflexivity |].
  change (String c v +:+ "%") with (String c (v +:+ "%")). cbn [trim_start].
  destruct (is_space c); [exact IH | reflexivity].
Qed.

Lemma trim_end_percent v : trim_end (v +:+ "%") = v +:+ "%".
Proof.
  induction v as [| c v IH]; [reflexivity |].
  change (String c v +:+ "%") with (String c (v +:+ "%")). cbn [trim_end].
  rewrite IH. by destruct v.
Qed.

Lemma parse_part_dangling out name v :
  name <> "" -> ~ has_char "=" name -> ~ has_char "=" v ->
  parse_part out (name +:+ String "=" (v +:+ "%"))
  = CaseIngestor.Rejected "URIError".
Proof.
  intros Hname Hn Hv. unfold parse_part.
  rewrite split_on_append, (split_on_no_sep _ name Hn).
  rewrite split_on_no_sep.
  2:{ intros H%has_char_append. destruct H as [H | H]; [done |].
      unfold has_char in H. cbn in H. destruct H as [H | []]. discriminate. }
  cbn [app]. apply truthy_true in Hname. rewrite Hname.
  replace (truthy (v +:+ "%")) with true by (by destruct v).
  cbn [andb]. unfold trim. rewrite trim_start_percent, trim_end_percent.
  unfold decodeURIComponent. by rewrite decode_dangling.
Qed.

(** X20. A Cookie header whose last pair has a value that ends in a percent
    sign makes the Worker throw on every request that is not exempt: such a
    request gets no verdict, is not counted by the limiter and sends no
    event. *)
Theorem dangling_escape_throws platform w request h name v :
  ~ exempt request ->
  req_cookie request = Some (h +:+ String ";" (name +:+ String "=" (v +:+ "%"))) ->
  name <> "" -> ~ has_char ";" name -> ~ has_char "=" name ->
  ~ has_char ";" v -> ~ has_char "=" v ->
  exists reason, fetch platform w request = CaseIngestor.Rejected reason.
Proof.
  intros Hex Hcookie Hname Hn1 Hn2 Hv1 Hv2.
  rewrite (fetch_not_exempt _ _ _ Hex), Hcookie. cbn [default from_option id].
  rewrite parseCookies_append.
  destruct (parseCookies h) as [out |]; [| by eexists].
  rewrite split_on_no_sep.
  - cbn [parse_parts]. rewrite parse_part_dangling by done. by eexists.
  - intros H%has_char_append. destruct H as [H | H]; [done |].
    rewrite has_char_String in H. destruct H as [H | H]; [discriminate |].
    apply has_char_append in H as [H | H]; [done |].
    unfold has_char in H. cbn in H. destruct H as [H | []]. discriminate.
Qed.

Lemma dangling_escape_throws_witness :
  let request := mkRequest "/" "GET" (Some "203.0.113.9") (Some "curl/8")
                   (Some "a=1;b=50%") None None in
  let platform := mkPlatform "key" (fun _ _ => CaseIngestor.Ok true) 0 0 in
  ~ exempt request
  /\ req_cookie request = Some ("a=1" +:+ String ";" ("b" +:+ String "=" ("50" +:+ "%")))
  /\ exists reason, fetch platform (mkWorld ∅ []) request = CaseIngestor.Rejected reason.
Proof.
  intros request platform.
  assert (Hex : ~ exempt request).
  { intros [H | [H | [H _]]]; discriminate. }
  assert (Hno : forall c s, (forall d, In d (list_ascii_of_string s) -> d <> c) ->
                            ~ has_char c s).
  { intros c s H Hin. by apply (H c). }
  split; [exact Hex |]. split; [reflexivity |].
  apply (dangling_escape_throws platform (mkWorld ∅ []) request "a=1" "b" "50");
    [exact Hex | reflexivity | discriminate | ..];
    apply Hno; cbn; intros d Hd;
    repeat (destruct Hd as [<- | Hd]; [discriminate |]); destruct Hd.
Defined.

Lemma parse_trust_pair out :
  parse_parts out (split_on ";" " wasp_ok=1")
  = CaseIngestor.Ok (<["wasp_ok" := [49%N]]> out).
Proof. reflexivity. Qed.

Lemma wasp_ok_insert (out : gmap string jsstring) :
  wasp_ok (<["wasp_ok" := [49%N]]> out) = true.
Proof. unfold wasp_ok. apply bool_decide_eq_true. apply lookup_insert_eq. Qed.

Lemma trusted_cookie_parsed cookie :
  cookie = "wasp_ok=1"
  \/ (exists h out, cookie = h +:+ "; wasp_ok=1"
                    /\ parseCookies h = CaseIngestor.Ok out) ->
  exists cookies, parseCookies cookie = CaseIngestor.Ok cookies
                  /\ wasp_ok cookies = true.
Proof.
  intros [-> | (h & out & -> & Hh)].
  - exists (<["wasp_ok" := [49%N]]> ∅). split; [reflexivity | apply wasp_ok_insert].
  - exists (<["wasp_ok" := [49%N]]> out).
    change (h +:+ "; wasp_ok=1") with (h +:+ String ";" " wasp_ok=1").
    rewrite parseCookies_append, Hh, parse_trust_pair.
    split; [reflexivity | apply wasp_ok_insert].
Qed.

(** X21. A request that is not exempt and whose Cookie header is
    [wasp_ok=1], or ends with [; wasp_ok=1] after pairs that parse, is always
    passed to the origin, whatever the limiter has stored for the client.
    The limiter is still evaluated: the Durable Object of the client stores
    the next bucket of the request (hits counted, score moved by the
    heuristics and the decay), and the event sent carries the hits and the
    score of that bucket with the action [allow]. *)
Theorem trust_cookie_passes platform w request cookie :
  ~ exempt request ->
  req_cookie request = Some cookie ->
  cookie = "wasp_ok=1"
  \/ (exists h out, cookie = h +:+ "; wasp_ok=1"
                    /\ parseCookies h = CaseIngestor.Ok out) ->
  let r := limit_request request true in
  let name := object_name (client_ip request) (client_asn request) in
  let storage := default ∅ (objects w !! name) in
  let b := next_bucket (now_limiter platform)
             (WaspEdge.load (now_limiter platform) storage (WaspEdge.storage_key r)) r in
  exists w' event,
    fetch platform w request = CaseIngestor.Ok (PassThrough, w')
    /\ sent w' = sent w ++ [event]
    /\ CaseIngestor.action event = "allow"
    /\ objects w' = <[name := <[WaspEdge.storage_key r := b]> storage]> (objects w)
    /\ CaseIngestor.hits event = WaspEdge.hits b
    /\ CaseIngestor.score event = inject_Z (WaspEdge.score b).
Proof.
  intros Hex Hcookie Hshape r name storage b.
  destruct (trusted_cookie_parsed cookie Hshape) as (cookies & Hparse & Htrust).
  rewrite (fetch_not_exempt _ _ _ Hex), Hcookie. cbn [default from_option id].
  rewrite Hparse, Htrust. cbv zeta.
  rewrite fetch_next_bucket.
  cbn [snd fst WaspEdge.action WaspEdge.trustedCookie limit_request
       WaspEdge.verdict_action negb respond action_name
       WaspEdge.v_hits WaspEdge.v_score].
  do 2 eexists. split; [reflexivity |]. by repeat split.
Qed.

Lemma trust_cookie_passes_witness :
  let request := mkRequest "/api/orders" "POST" (Some "203.0.113.9") None
                   (Some "theme=dark; wasp_ok=1") None None in
  let platform := mkPlatform "key" (fun _ _ => CaseIngestor.Ok true) 500 501 in
  let w := mkWorld {["203.0.113.9:0" :=
                      {["ip:203.0.113.9" := WaspEdge.mkBucket 500 0 40 "x"]}]} [] in
  ~ exempt request
  /\ req_cookie request = Some "theme=dark; wasp_ok=1"
  /\ exists w' event,
      fetch platform w request = CaseIngestor.Ok (PassThrough, w')
      /\ sent w' = sent w ++ [event]
      /\ CaseIngestor.action event = "allow"
      /\ objects w' !! "203.0.113.9:0"
         = Some {["ip:203.0.113.9" := WaspEdge.mkBucket 501 0 45 ""]}
      /\ CaseIngestor.hits event = 501.
Proof.
  intros request platform w.
  assert (Hex : ~ exempt request).
  { intros [H | [H | [H _]]]; discriminate. }
  split; [exact Hex |]. split; [reflexivity |].
  destruct (trust_cookie_passes platform w request "theme=dark; wasp_ok=1"
              Hex eq_refl)
    as (w' & event & Hfetch & Hsent & Haction & Hobjects & Hhits & _).
  { right. exists "theme=dark", {["theme" := [100; 97; 114; 107]%N]}.
    split; reflexivity. }
  exists w', event.
  split; [exact Hfetch |]. split; [exact Hsent |]. split; [exact Haction |].
  split; [rewrite Hobjects; by vm_compute | rewrite Hhits; reflexivity].
Defined.

(** ** Clients and their Durable Objects *)

Lemma exempt_or_not request : exempt request \/ ~ exempt request.
Proof.
  unfold exempt.
  destruct (String.prefix "/healthz" (req_pathname request)); [by left; left |].
  destruct (String.prefix "/status" (req_pathname request));
    [by left; right; left |].
  destruct (String.eqb_spec (req_pathname request) "/__wasp/turnstile");
    [| right; intros [? | [? | [? ?]]]; congruence].
  destruct (String.eqb_spec (req_method request) "POST");
    [by left; right; right | right; intros [? | [? | [? ?]]]; congruence].
Qed.

Lemma object_name_inj ip1 asn1 ip2 asn2 :
  object_name ip1 asn1 = object_name ip2 asn2 -> ip1 = ip2 /\ asn1 = asn2.
Proof.
  unfold object_name. intros Heq.
  change (ip1 +:+ String ":" (pretty asn1) = ip2 +:+ String ":" (pretty asn2)) in Heq.
  apply append_last_inj in Heq as [-> Hasn];
    [| apply pretty_Z_no_colon | apply pretty_Z_no_colon].
  by apply (inj pretty) in Hasn.
Qed.

(** X22. The limiter states of different clients are separate: a request
    never changes the Durable Object of another pair of ip and asn, also
    when the addresses contain colons. *)
Theorem clients_isolated platform w request response w' ip asn :
  fetch platform w request = CaseIngestor.Ok (response, w') ->
  (ip, asn) <> (client_ip request, client_asn request) ->
  objects w' !! object_name ip asn = objects w !! object_name ip asn.
Proof.
  intros Hfetch Hne.
  destruct (exempt_or_not request) as [Hex | Hex].
  - by rewrite (fetch_exempt _ _ _ _ _ Hex Hfetch).
  - rewrite (fetch_not_exempt _ _ _ Hex) in Hfetch.
    destruct (parseCookies _) as [cookies |]; [| done].
    cbv zeta in Hfetch. injection Hfetch as _ <-. cbn [objects].
    apply lookup_insert_ne. intros Heq.
    apply object_name_inj in Heq as [<- <-]. done.
Qed.

Lemma clients_isolated_witness :
  let request := mkRequest "/" "GET" (Some "2001:db8::1") (Some "curl/8")
                   None (Some (mkCf (Some 64500) None None None)) None in
  let platform := mkPlatform "key" (fun _ _ => CaseIngestor.Ok true) 500 501 in
  let w := mkWorld {["2001:db8::1:64501" :=
                      {["ip:2001:db8::1" := WaspEdge.mkBucket 7 0 3 "x"]}]} [] in
  exists response w',
    fetch platform w request = CaseIngestor.Ok (response, w')
    /\ ("2001:db8::1", 64501) <> (client_ip request, client_asn request)
    /\ objects w' !! object_name "2001:db8::1" 64501
       = objects w !! object_name "2001:db8::1" 64501.
Proof.
  intros request platform w.
  destruct (fetch platform w request) as [[response w'] |] eqn:Hfetch;
    [| by vm_compute in Hfetch].
  exists response, w'. split; [reflexivity |].
  assert (Hne : ("2001:db8::1", 64501) <> (client_ip request, client_asn request))
    by discriminate.
  split; [exact Hne |].
  exact (clients_isolated platform w request response w' "2001:db8::1" 64501
           Hfetch Hne).
Defined.

(** ** A burst seen from the Worker *)

Lemma serve_snoc w requests platform request :
  serve w (requests ++ [(platform, request)])
  = match serve w requests with
    | CaseIngestor.Rejected reason => CaseIngestor.Rejected reason
    | CaseIngestor.Ok (responses, w1) =>
        match fetch platform w1 request with
        | CaseIngestor.Rejected reason => CaseIngestor.Rejected reason
        | CaseIngestor.Ok (response, w2) =>
            CaseIngestor.Ok (responses ++ [response], w2)
        end
    end.
Proof.
  revert w. induction requests as [| [p r] requests IH]; intros w.
  - cbn. by destruct (fetch platform w request) as [[response w2] |].
  - cbn [app serve]. destruct (fetch p w r) as [[resp1 w1] |]; [| done].
    rewrite IH. destruct (serve w1 requests) as [[responses w2] |]; [| done].
    by destruct (fetch platform w2 request) as [[response w3] |].
Qed.

Lemma fetch_without_cookie platform w request :
  ~ exempt request -> req_cookie request = None ->
  exists event,
    fetch platform w request
    = CaseIngestor.Ok
        (respond platform
           (WaspEdge.action
              (snd (WaspEdge.fetch (now_limiter platform)
                      (default ∅ (objects w !! object_name (client_ip request)
                                                 (client_asn request)))
                      (limit_request request false)))),
         mkWorld
           (<[object_name (client_ip request) (client_asn request)
              := fst (WaspEdge.fetch (now_limiter platform)
                        (default ∅ (objects w !! object_name (client_ip request)
                                                   (client_asn request)))
                        (limit_request request false))]> (objects w))
           (sent w ++ [event])).
Proof.
  intros Hex Hcookie. rewrite (fetch_not_exempt _ _ _ Hex), Hcookie.
  cbn [default from_option id].
  change (parseCookies "") with (CaseIngestor.Ok (∅ : gmap string jsstring)).
  change (wasp_ok ∅) with false. by eexists.
Qed.

(** Requests of one client without Cookie header, served one after the
    other: all are answered, and the storage of the client's Durable Object
    is the one that the evaluations of the limiter build. *)
Lemma serve_without_cookie request platforms w :
  ~ exempt request -> req_cookie request = None ->
  exists responses w',
    serve w ((fun p => (p, request)) <$> platforms)
    = CaseIngestor.Ok (responses, w')
    /\ length responses = length platforms
    /\ default ∅ (objects w' !! object_name (client_ip request) (client_asn request))
       = foldl WaspEdge.step
           (default ∅ (objects w !! object_name (client_ip request)
                                      (client_asn request)))
           (evaluate_at (limit_request request false) (now_limiter <$> platforms)).
Proof.
  intros Hex Hcookie. revert w.
  induction platforms as [| p platforms IH]; intros w.
  - by exists [], w.
  - cbn [fmap list_fmap serve].
    destruct (fetch_without_cookie p w request Hex Hcookie) as [event ->].
    match goal with
    | |- context [serve ?w1 _] => destruct (IH w1) as (responses & w' & Hserve & Hlen & Hst)
    end.
    rewrite Hserve. do 2 eexists. split; [reflexivity |].
    split; [cbn; by rewrite Hlen |].
    rewrite Hst. cbn [objects]. by rewrite lookup_insert_eq.
Qed.

(** X23. A client without stored state, without Cookie header, that sends
    [k] GETs or HEADs of one page outside [/api/] with a steady user agent,
    all evaluated within 1000 ms of the first: every request is answered, and
    the last one is passed to the origin when [k <= 30], answered by the
    challenge page when [31 <= k <= 70], by the tarpit when [71 <= k <= 120],
    and by 403 beyond. *)
Theorem edge_page_burst w request p1 platforms p :
  ~ exempt request -> req_cookie request = None ->
  plain_read (limit_request request false) ->
  objects w !! object_name (client_ip request) (client_asn request) = None ->
  Forall (fun q => now_limiter q - now_limiter p1 <= 1000) (platforms ++ [p]) ->
  let k := Z.of_nat (length platforms) + 2 in
  exists responses w',
    serve w ((fun q => (q, request)) <$> (p1 :: platforms ++ [p]))
    = CaseIngestor.Ok (responses ++
        [if 120 <? k then Forbidden
         else if 70 <? k then Tarpit 15000
         else if 30 <? k then ChallengePage (TURNSTILE_SITE_KEY p) None
         else PassThrough], w')
    /\ length responses = S (length platforms).
Proof.
  intros Hex Hcookie Hplain Hnone Hts k.
  destruct (serve_without_cookie request (p1 :: platforms) w Hex Hcookie)
    as (responses & w1 & Hserve & Hlen & Hst).
  rewrite Hnone in Hst. cbn [default from_option id] in Hst.
  rewrite app_comm_cons, fmap_app.
  change ((fun q => (q, request)) <$> [p]) with [(p, request)].
  rewrite serve_snoc, Hserve.
  destruct (fetch_without_cookie p w1 request Hex Hcookie) as [event ->].
  rewrite Hst.
  assert (Htimes : Forall (fun t' => t' - now_limiter p1 <= 1000)
                     ((now_limiter <$> platforms) ++ [now_limiter p])).
  { change [now_limiter p] with (now_limiter <$> [p]). rewrite <- fmap_app.
    by apply Forall_fmap. }
  destruct (page_burst_verdict ∅ (limit_request request false) (now_limiter p1)
              (now_limiter <$> platforms) (now_limiter p)
              (lookup_empty _) Hplain eq_refl Htimes) as (_ & _ & Haction).
  rewrite length_fmap in Haction. fold k in Haction.
  cbn [fmap list_fmap] in Haction |- *. rewrite Haction.
  do 2 eexists. split; [| exact Hlen]. f_equal. f_equal. f_equal.
  destruct (120 <? k); [done |]. destruct (70 <? k); [done |].
  by destruct (30 <? k).
Qed.

(** ** The tarpit *)

Lemma tarpit_loop_bound (q : nat) :
  forall end_ c checks,
    paced c (c :: checks) ->
    end_ - c <= 1100 * Z.of_nat q ->
    (q < length (c :: checks))%nat ->
    exists n, tarpit_loop end_ (c :: checks) = Some n /\ (n <= q)%nat.
Proof.
  induction q as [| q IH]; intros end_ c checks Hp Hrem Hlen.
  - exists 0%nat. cbn [tarpit_loop].
    replace (c <? end_) with false by (symmetry; apply Z.ltb_ge; lia). done.
  - cbn [tarpit_loop]. destruct (c <? end_) eqn:Hc; [| exists 0%nat; split; [done | lia]].
    destruct checks as [| c' checks]; [cbn in Hlen; lia |].
    destruct Hp as (_ & Hc' & Hp).
    destruct (IH end_ c' checks) as (n & Hn & Hle).
    + split; [lia | exact Hp].
    + lia.
    + cbn [length] in Hlen |- *. lia.
    + exists (S n). rewrite Hn. split; [done | lia].
Qed.

(** X24. When no timer of the loop fires early (each test of the clock is at
    least 1100 ms after the previous one), the tarpit closes its stream after
    at most [ms / 1100 + 1] chunks: 14 for the 15000 ms of the Worker. *)
Theorem tarpit_bounded ms now0 checks :
  0 <= ms ->
  paced now0 checks ->
  (Z.to_nat (ms / 1100) + 1 < length checks)%nat ->
  exists n, tarpit ms (now0 :: checks) = Some n
            /\ (Z.of_nat n <= ms / 1100 + 1).
Proof.
  intros Hms Hp Hlen. cbn [tarpit].
  destruct checks as [| c checks]; [cbn in Hlen; lia |].
  destruct (tarpit_loop_bound (Z.to_nat (ms / 1100) + 1) (now0 + ms) c checks)
    as (n & Hn & Hle).
  - destruct Hp as [H0 Hp]. split; [lia | exact Hp].
  - destruct Hp as [H0 _].
    pose proof (Z.div_pos ms 1100 Hms ltac:(lia)).
    pose proof (Z.mod_pos_bound ms 1100 ltac:(lia)).
    pose proof (Z.div_mod ms 1100 ltac:(lia)). lia.
  - exact Hlen.
  - exists n. split; [exact Hn |].
    pose proof (Z.div_pos ms 1100 Hms ltac:(lia)). lia.
Qed.

Lemma tarpit_bounded_witness :
  let checks := (fun i => 7 + 1100 * Z.of_nat i) <$> seq 0 16 in
  0 <= 15000
  /\ paced 7 checks
  /\ (Z.to_nat (15000 / 1100) + 1 < length checks)%nat
  /\ exists n, tarpit 15000 (7 :: checks) = Some n
               /\ (Z.of_nat n <= 15000 / 1100 + 1).
Proof.
  intros checks.
  assert (Hp : paced 7 checks) by (cbn; lia).
  assert (Hlen : (Z.to_nat (15000 / 1100) + 1 < length checks)%nat)
    by (vm_compute; lia).
  split; [lia |]. split; [exact Hp |]. split; [exact Hlen |].
  apply (tarpit_bounded 15000 7 checks ltac:(lia) Hp Hlen).
Defined.

End EdgeFacts.

(** * Samples for the properties of the consumer and of the Worker *)

Section ExtraSamples.
Import CaseIngestor EdgeWorker Notions.

Lemma fifty_rows_always_trigger_witness :
  Forall (fun r => (0 <= r_score r)%Q) fifty_rows
  /\ (50 <= length fifty_rows)%nat
  /\ exists e, ef (metricsOf (H := sample_host) (Fin 0) fifty_rows) = Fin (inject_Z e)
               /\ (Z.of_nat (length fifty_rows) <= e)%Z
               /\ trigger (metricsOf (H := sample_host) (Fin 0) fifty_rows) = true.
Proof.
  assert (Hall : Forall (fun r => (0 <= r_score r)%Q) fifty_rows).
  { apply Forall_app. split; apply Forall_forall; intros r Hr;
      apply list_elem_of_In, repeat_spec in Hr; subst; discriminate. }
  assert (Hn : (50 <= length fifty_rows)%nat) by (vm_compute; lia).
  split; [exact Hall |]. split; [exact Hn |].
  apply (@fifty_rows_always_trigger sample_host (Fin 0) fifty_rows Hall Hn).
Defined.

(** Forty rows of which none was mitigated. *)
Lemma trigger_from_counts_witness :
  let rows := repeat (mkRow 1000 "allow" 0 1) 40 in
  ((30000 <= Z.of_nat (length rows))%Z
   \/ ((0 < Z.of_nat (length rows))%Z
       /\ (300 * Z.of_nat (count_action "challenge" rows)
           + 450 * Z.of_nat (count_action "tarpit" rows)
           + 500 * Z.of_nat (count_action "block" rows)
           < Z.of_nat (length rows))%Z))
  /\ trigger (metricsOf (H := sample_host) capacityRPS rows) = true.
Proof.
  intros rows.
  assert (Hcounts :
    (30000 <= Z.of_nat (length rows))%Z
    \/ ((0 < Z.of_nat (length rows))%Z
        /\ (300 * Z.of_nat (count_action "challenge" rows)
            + 450 * Z.of_nat (count_action "tarpit" rows)
            + 500 * Z.of_nat (count_action "block" rows)
            < Z.of_nat (length rows))%Z)).
  { right. vm_compute. split; reflexivity. }
  split; [exact Hcounts |].
  exact (@trigger_from_counts sample_host rows Hcounts).
Defined.

(** The host of the samples: its exponential is the constant 1. *)
Lemma mercy_in_unit_interval_witness :
  (forall x : Q, Math_exp (Host := sample_host) (Fin x) = PosInf
                 \/ exists y, Math_exp (Host := sample_host) (Fin x) = Fin y
                              /\ (0 <= y)%Q)
  /\ exists u, mercy (metricsOf (H := sample_host) capacityRPS fifty_rows) = Fin u
               /\ (0 <= u <= 1)%Q.
Proof.
  assert (Hexp : forall x : Q, Math_exp (Host := sample_host) (Fin x) = PosInf
                   \/ exists y, Math_exp (Host := sample_host) (Fin x) = Fin y
                                /\ (0 <= y)%Q).
  { intros x. right. exists 1%Q. split; [reflexivity | discriminate]. }
  split; [exact Hexp |].
  exact (@mercy_in_unit_interval sample_host capacityRPS fifty_rows Hexp).
Defined.

(** An event of another case next to the one of the sample client. *)
Lemma window_ignores_other_events_witness :
  let x := mkEventRow 2 "case-2" 1000 "/" "GET" "curl/8" "block" 10 130 "YYZ" in
  (e_case_id x <> "case-1" \/ e_ts x < now_recompute sample_env - windowMs)
  /\ recomputeMetrics (H := sample_host) sample_env
       (mkDB (cases one_allow_db) (events one_allow_db ++ x :: [])) "case-1"
     = recomputeMetrics (H := sample_host) sample_env
         (mkDB (cases one_allow_db) (events one_allow_db ++ [])) "case-1".
Proof.
  intros x.
  assert (Hx : e_case_id x <> "case-1"
               \/ e_ts x < now_recompute sample_env - windowMs)
    by (left; discriminate).
  split; [exact Hx |].
  exact (@window_ignores_other_events sample_host sample_env (cases one_allow_db)
           (events one_allow_db) x [] "case-1" Hx).
Defined.

(** The batch whose second message fails, on the database of one case. *)
Lemma queue_keeps_constraints_witness :
  cases_ok (cases one_case_db)
  /\ (forall j, randomUUID (failing_world j) <> "")
  /\ cases_ok (cases (final_db
        (queue (H := sample_host) failing_world one_case_db two_messages))).
Proof.
  assert (Hok : cases_ok (cases one_case_db)).
  { apply (bool_decide_unpack _). by vm_compute. }
  assert (Huuid : forall j, randomUUID (failing_world j) <> "")
    by (intros j; discriminate).
  split; [exact Hok |]. split; [exact Huuid |].
  exact (@queue_keeps_constraints sample_host failing_world one_case_db
           two_messages Hok Huuid).
Defined.

(** D1 stops answering after the two inserts of the first message: the
    handler throws and no message is acknowledged, yet the case and the event
    of the first message are in the database. *)
Example unacknowledged_message_recorded :
  let out := queue_awaits (H := sample_host) stopping_world empty_db two_messages in
  completed out = Rejected "D1_ERROR"
  /\ acked out = []
  /\ length (cases (final_db out)) = 1%nat
  /\ (e_action <$> events (final_db out)) = ["block"].
Proof. cbv zeta. by vm_compute. Qed.

Lemma queue_awaits_keeps_constraints_witness :
  cases_ok (cases one_case_db)
  /\ (forall j, randomUUID (stopping_world j 0%nat) <> "")
  /\ cases_ok (cases (final_db
        (queue_awaits (H := sample_host) stopping_world one_case_db two_messages))).
Proof.
  assert (Hok : cases_ok (cases one_case_db)).
  { apply (bool_decide_unpack _). by vm_compute. }
  assert (Huuid : forall j, randomUUID (stopping_world j 0%nat) <> "")
    by (intros j; discriminate).
  split; [exact Hok |]. split; [exact Huuid |].
  exact (@queue_awaits_keeps_constraints sample_host stopping_world one_case_db
           two_messages Hok Huuid).
Defined.

(** The second iteration of that batch: D1 does not answer. *)
Lemma process_rejected_exactly_witness :
  cases_ok (cases one_case_db)
  /\ exists reason,
      process (H := sample_host) (failing_world 1) one_case_db (sample_event "allow")
      = Rejected reason.
Proof.
  assert (Hok : cases_ok (cases one_case_db)).
  { apply (bool_decide_unpack _). by vm_compute. }
  split; [exact Hok |].
  apply (proj2 (@process_rejected_exactly sample_host (failing_world 1) one_case_db
                  (sample_event "allow") Hok)).
  by left.
Defined.

(** The same blocked request, delivered twice on the empty database. *)
Lemma redelivery_duplicates_event_witness :
  exists db1 db2,
    cases_ok (cases empty_db) /\ randomUUID sample_env <> ""
    /\ process (H := sample_host) sample_env empty_db (sample_event "block") = Ok db1
    /\ process (H := sample_host) sample_env db1 (sample_event "block") = Ok db2
    /\ length (cases db2) = length (cases db1)
    /\ length (events db2) = 2%nat.
Proof.
  destruct (process (H := sample_host) sample_env empty_db (sample_event "block"))
    as [db1 | reason] eqn:H1; [| by vm_compute in H1].
  destruct (process (H := sample_host) sample_env db1 (sample_event "block"))
    as [db2 | reason] eqn:H2.
  2: { vm_compute in H1. injection H1 as <-. by vm_compute in H2. }
  assert (Hok : cases_ok (cases empty_db)).
  { apply (bool_decide_unpack _). by vm_compute. }
  assert (Huuid : randomUUID sample_env <> "") by discriminate.
  exists db1, db2.
  split; [exact Hok |]. split; [exact Huuid |]. split; [reflexivity |].
  split; [exact H2 |].
  destruct (@redelivery_duplicates_event sample_host sample_env sample_env empty_db
              (sample_event "block") db1 db2 Hok Huuid H1 H2)
    as (Hlen & r1 & r2 & Hev & _).
  split; [exact Hlen | by rewrite Hev].
Defined.

(** Two messages of the sample client that differ in their action. *)
Lemma case_key_injective_witness :
  let e1 := sample_event "allow" in
  let e2 := sample_event "block" in
  ~ has_char ":" (zone e1) /\ ~ has_char ":" (zone e2)
  /\ case_key e1 = case_key e2
  /\ zone e1 = zone e2 /\ ip e1 = ip e2 /\ asn e1 = asn e2.
Proof.
  intros e1 e2.
  assert (Hz : ~ has_char ":" "example.com").
  { intros H. vm_compute in H. intuition discriminate. }
  split; [exact Hz |]. split; [exact Hz |]. split; [reflexivity |].
  exact (case_key_injective e1 e2 Hz Hz eq_refl).
Defined.

(** A first POST under [/api/] without a user agent. *)
Lemma edge_request_effects_witness :
  let request := mkRequest "/api/orders" "POST" (Some "203.0.113.9") None
                   None (Some (mkCf (Some 64500) (Some "CA") (Some "YYZ") None))
                   None in
  let platform := mkPlatform "key" (fun _ _ => Ok true) 500 501 in
  let w := mkWorld ∅ [] in
  exists response w' event,
    fetch platform w request = Ok (response, w')
    /\ ~ exempt request
    /\ sent w' = sent w ++ [event]
    /\ ts event = now_event platform.
Proof.
  intros request platform w.
  destruct (fetch platform w request) as [[response w'] |] eqn:Hfetch;
    [| by vm_compute in Hfetch].
  assert (Hex : ~ exempt request).
  { intros [H | [H | [H _]]]; discriminate. }
  destruct (edge_request_effects platform w request response w' Hfetch)
    as [[Hyes _] | (_ & a & storage' & b & event & _ & _ & Hsent & H)];
    [by destruct Hex |].
  exists response, w', event.
  split; [reflexivity |]. split; [exact Hex |]. split; [exact Hsent |].
  apply H.
Defined.

(** Thirty-two reads of one page within a second: the last is challenged. *)
Lemma edge_page_burst_witness :
  let request := mkRequest "/index.html" "GET" (Some "203.0.113.9")
                   (Some "Mozilla/5.0") None None None in
  let p1 := mkPlatform "key" (fun _ _ => Ok true) 0 1 in
  let platforms := repeat (mkPlatform "key" (fun _ _ => Ok true) 10 11) 30 in
  let p := mkPlatform "key" (fun _ _ => Ok true) 20 21 in
  ~ exempt request /\ req_cookie request = None
  /\ plain_read (limit_request request false)
  /\ objects (mkWorld ∅ [])
       !! object_name (client_ip request) (client_asn request) = None
  /\ Forall (fun q => now_limiter q - now_limiter p1 <= 1000) (platforms ++ [p])
  /\ exists responses w',
      serve (mkWorld ∅ []) ((fun q => (q, request)) <$> (p1 :: platforms ++ [p]))
      = Ok (responses ++ [ChallengePage "key" None], w')
      /\ length responses = 31%nat.
Proof.
  intros request p1 platforms p.
  assert (Hex : ~ exempt request).
  { intros [H | [H | [H _]]]; discriminate. }
  assert (Hplain : plain_read (limit_request request false)).
  { split; [by vm_compute |]. split; [by left |]. split; discriminate. }
  assert (Hts : Forall (fun q => now_limiter q - now_limiter p1 <= 1000)
                  (platforms ++ [p])).
  { apply Forall_forall. intros x Hx.
    apply elem_of_app in Hx
      as [Hx%list_elem_of_In%repeat_spec | ->%list_elem_of_singleton];
      [subst x |]; cbn; lia. }
  split; [exact Hex |]. split; [reflexivity |]. split; [exact Hplain |].
  split; [apply lookup_empty |]. split; [exact Hts |].
  exact (edge_page_burst (mkWorld ∅ []) request p1 platforms p Hex eq_refl Hplain
           (lookup_empty _) Hts).
Defined.

End ExtraSamples.
